(** * ComputeLab job server: the job lifecycle manager of [server.js]

    A shallow embedding of the in-memory job registry of [src/server.js]
    (the [jobs] array, the submit / get / list / delete / stats handlers,
    the [setTimeout] start transition and the [setInterval] progress tick,
    the order of the routes, and the generators of mock results),
    followed by the properties of the specification that concern it.

    Modelling conventions.
    - The registry is the list [jobs], in array order.  [findIndex] / [find]
      are [list_find], an in-place field update is a list insert at the index
      found, [splice(i, 1)] is a list delete, [push] appends at the end.
    - [Date.now()], [new Date()] and [Math.random()] are inputs of the
      environment: each handler receives the values it would read.  A
      timestamp is the integer number of milliseconds; its ISO rendering
      is not modelled.
    - JavaScript numbers that the handlers compute with are rationals.  The
      arithmetic on [progress] is exact.  The success rate of stats is
      printed with two decimals, which shows how its quotient and product
      were rounded, so these two operations round as binary64 does.
    - Strings are sequences of code units in the range 0..255.  A request
      body is the object [express.json()] parsed, a finite map from keys
      to JavaScript values; a query is a finite map from keys to strings (the
      plain [key=value] form of a query string).
    - Pending timers live in two finite maps from handles to closures (the
      variables [jobId] and [toolkit] captured by the callbacks). *)

From Stdlib Require Import ZArith QArith Qround Qabs Qminmax Qpower Lia Lqa.
From Stdlib Require Import Ascii Floats.SpecFloat.
From Stdlib Require Import DecimalString DecimalZ DecimalFacts Sorted.
From stdpp Require Import base option list strings gmap.

Local Open Scope string_scope.
Local Set Warnings "-register-all".

(** ** JavaScript values carried by a request body *)

Inductive js_value :=
| JUndefined
| JNull
| JBool (b : bool)
| JNum (q : Q)
| JStr (s : string)
| JArr (items : list js_value)
| JObj (fields : list (string * js_value)).

(** ToBoolean: what [!v], [v || d] and [if (v)] test. *)
Definition truthy (v : js_value) : bool :=
  match v with
  | JUndefined | JNull => false
  | JBool b => b
  | JNum q => negb (Qeq_bool q 0)
  | JStr s => negb (String.eqb s "")
  | JArr _ | JObj _ => true
  end.

(** [v === s] for a string [s]. *)
Definition strict_eq_string (v : js_value) (s : string) : bool :=
  match v with
  | JStr t => String.eqb t s
  | _ => false
  end.

(** Reading a property of a parsed body: an absent key is [undefined]. *)
Definition field (body : gmap string js_value) (k : string) : js_value :=
  default JUndefined (body !! k).

(** ** Mock results *)

(** The own keys of the [results] table of [generateMockResults]. *)
Definition mock_toolkits : list string :=
  ["molecular_dynamics"; "structure_prediction"; "quantum_chemistry";
   "molecular_docking"; "retrosynthesis"].

(** The members every object literal inherits from [Object.prototype]. *)
Definition object_prototype_members : list string :=
  ["constructor"; "__proto__"; "hasOwnProperty"; "isPrototypeOf";
   "propertyIsEnumerable"; "toLocaleString"; "toString"; "valueOf";
   "__defineGetter__"; "__defineSetter__"; "__lookupGetter__";
   "__lookupSetter__"].

(** *** The property key of a toolkit

    [results[toolkit]] first converts [toolkit] to a property key
    (ToPropertyKey: ToPrimitive with hint string, then ToString).  The toolkit
    is a value that [JSON.parse] built, so:
    - a string is its own key;
    - [true], [false], [null], [undefined] give their names;
    - a number gives its decimal notation, a string made of digits, a sign,
      a point and an exponent, or one of [Infinity], [-Infinity], [NaN];
    - an array is joined with commas ([Array.prototype.toString]), [null]
      and [undefined] elements giving the empty string;
    - an object without an own [toString] key gives ["[object Object]"]
      ([Object.prototype.toString]); an object with an own [toString] key
      has no callable [toString] (a parsed value is never a function), and
      [valueOf], own or inherited, does not return a primitive either, so the
      conversion throws a [TypeError]. *)
Inductive property_key :=
| Key (s : string)
| NumericKey (q : Q)
| JoinedKey.

(** [None]: the conversion throws. *)
Fixpoint to_property_key (v : js_value) : option property_key :=
  match v with
  | JUndefined => Some (Key "undefined")
  | JNull => Some (Key "null")
  | JBool b => Some (Key (if b then "true" else "false"))
  | JNum q => Some (NumericKey q)
  | JStr s => Some (Key s)
  | JObj fields =>
      if bool_decide ("toString" ∈ fields.*1) then None
      else Some (Key "[object Object]")
  | JArr items =>
      let element (x : js_value) : option property_key :=
        match x with
        | JUndefined | JNull => Some (Key "")
        | _ => to_property_key x
        end in
      match items with
      | [] => Some (Key "")
      | [x] => element x
      | _ :: _ :: _ =>
          if (fix all_convert (l : list js_value) : bool :=
                match l with
                | [] => true
                | y :: l' =>
                    match y with
                    | JUndefined | JNull => all_convert l'
                    | _ => match to_property_key y with
                           | Some _ => all_convert l'
                           | None => false
                           end
                    end
                end) items
          then Some JoinedKey else None
      end
  end.

(** What [generateMockResults] gives: the payload of one of the five
    toolkits, a member inherited from [Object.prototype] (all of them are
    truthy, so [||] keeps them), the default message, or no value at all
    because the conversion of the toolkit to a property key throws.  The
    numbers drawn inside a payload are opaque to the registry and are
    modelled separately, in [generateMockResults_full]. *)
Inductive mock_results :=
| ToolkitPayload (name : string)
| InheritedMember (name : string)
| DefaultMessage
| ThrowsTypeError.

(** [results[key] || { message: 'Results generated successfully' }] *)
Definition lookup_results (k : string) : mock_results :=
  if bool_decide (k ∈ mock_toolkits) then ToolkitPayload k
  else if bool_decide (k ∈ object_prototype_members) then InheritedMember k
  else DefaultMessage.

(** A numeric key and a key with a comma in it name no entry of the table
    and no member of [Object.prototype]. *)
Definition generateMockResults (toolkit : js_value) : mock_results :=
  match to_property_key toolkit with
  | None => ThrowsTypeError
  | Some (Key k) => lookup_results k
  | Some (NumericKey _) | Some JoinedKey => DefaultMessage
  end.


(** ** Jobs and the server state *)

Record Job := mkJob {
  id : string;
  toolkit : js_value;
  config : js_value;
  input_files : js_value;
  priority : js_value;
  status : string;
  progress : Q;
  created_at : Z;
  started_at : option Z;
  completed_at : option Z;
  queue_position : nat;
  estimated_completion : Z;
  results : option mock_results
}.

(** The variables a timer callback closes over. *)
Record closure := mkClosure {
  c_jobId : string;
  c_toolkit : js_value
}.

(** [alive] is off once an exception has escaped a timer callback: nothing
    catches it, so the process ends and handles no further event. *)
Record server := mkServer {
  jobs : list Job;
  jobCounter : Z;
  timeouts : gmap nat closure;
  intervals : gmap nat closure;
  next_timer : nat;
  alive : bool
}.

Definition initial : server :=
  {| jobs := []; jobCounter := 0; timeouts := ∅; intervals := ∅;
     next_timer := 0; alive := true |}.

Definition with_jobs (s : server) (l : list Job) : server :=
  {| jobs := l; jobCounter := jobCounter s; timeouts := timeouts s;
     intervals := intervals s; next_timer := next_timer s;
     alive := alive s |}.

Definition clearInterval (s : server) (h : nat) : server :=
  {| jobs := jobs s; jobCounter := jobCounter s; timeouts := timeouts s;
     intervals := delete h (intervals s); next_timer := next_timer s;
     alive := alive s |}.

Definition setTimeout (s : server) (c : closure) : server :=
  {| jobs := jobs s; jobCounter := jobCounter s;
     timeouts := <[next_timer s := c]> (timeouts s);
     intervals := intervals s; next_timer := S (next_timer s);
     alive := alive s |}.

Definition setInterval (s : server) (c : closure) : server :=
  {| jobs := jobs s; jobCounter := jobCounter s; timeouts := timeouts s;
     intervals := <[next_timer s := c]> (intervals s);
     next_timer := S (next_timer s); alive := alive s |}.

(** A one-shot timer leaves the pending set when it fires. *)
Definition expire (s : server) (h : nat) : server :=
  {| jobs := jobs s; jobCounter := jobCounter s;
     timeouts := delete h (timeouts s);
     intervals := intervals s; next_timer := next_timer s;
     alive := alive s |}.

(** An uncaught exception ends the process.  What the callback wrote before
    it threw is lost with the process; the state kept for the ended process
    is the one the callback found. *)
Definition crash (s : server) : server :=
  {| jobs := jobs s; jobCounter := jobCounter s; timeouts := timeouts s;
     intervals := intervals s; next_timer := next_timer s;
     alive := false |}.

(** [jobs.find(j => j.id === jobId)] together with its index. *)
Definition find_job (l : list Job) (jobId : string) : option (nat * Job) :=
  list_find (λ j, id j = jobId) l.

Definition set_status (j : Job) (st : string) : Job :=
  {| id := id j; toolkit := toolkit j; config := config j;
     input_files := input_files j; priority := priority j;
     status := st; progress := progress j; created_at := created_at j;
     started_at := started_at j; completed_at := completed_at j;
     queue_position := queue_position j;
     estimated_completion := estimated_completion j; results := results j |}.

Definition set_started_at (j : Job) (t : Z) : Job :=
  {| id := id j; toolkit := toolkit j; config := config j;
     input_files := input_files j; priority := priority j;
     status := status j; progress := progress j; created_at := created_at j;
     started_at := Some t; completed_at := completed_at j;
     queue_position := queue_position j;
     estimated_completion := estimated_completion j; results := results j |}.

Definition set_progress (j : Job) (p : Q) : Job :=
  {| id := id j; toolkit := toolkit j; config := config j;
     input_files := input_files j; priority := priority j;
     status := status j; progress := p; created_at := created_at j;
     started_at := started_at j; completed_at := completed_at j;
     queue_position := queue_position j;
     estimated_completion := estimated_completion j; results := results j |}.

Definition set_completed_at (j : Job) (t : Z) : Job :=
  {| id := id j; toolkit := toolkit j; config := config j;
     input_files := input_files j; priority := priority j;
     status := status j; progress := progress j; created_at := created_at j;
     started_at := started_at j; completed_at := Some t;
     queue_position := queue_position j;
     estimated_completion := estimated_completion j; results := results j |}.

Definition set_results (j : Job) (r : mock_results) : Job :=
  {| id := id j; toolkit := toolkit j; config := config j;
     input_files := input_files j; priority := priority j;
     status := status j; progress := progress j; created_at := created_at j;
     started_at := started_at j; completed_at := completed_at j;
     queue_position := queue_position j;
     estimated_completion := estimated_completion j; results := Some r |}.

(** ** Responses *)

Inductive reply (A : Type) :=
| Ok (code : nat) (body : A)
| Err (code : nat) (error : string).
Arguments Ok {A} code body.
Arguments Err {A} code error.

(** ** Submit *)

(** The clock and random readings of one run of the submit handler:
    [Date.now()] for the id, [new Date()] for [created_at], [Date.now()]
    for [estimated_completion], and [Math.random().toString(36)]. *)
Record submit_env := mkSubmitEnv {
  now_id : Z;
  now_created : Z;
  now_estimate : Z;
  random36 : string
}.

(** Decimal rendering of an integer, as a template literal prints it. *)
Definition decimal (z : Z) : string := NilZero.string_of_int (Z.to_int z).

(** [`job_${Date.now()}_${Math.random().toString(36).substr(2, 9)}`] *)
Definition make_jobId (now : Z) (r36 : string) : string :=
  "job_" ++ decimal now ++ "_" ++ String.substring 2 9 r36.

Definition validation_error : string :=
  "Missing required fields: toolkit and config".

Definition new_job (l : list Job) (body : gmap string js_value)
    (e : submit_env) : Job :=
  {| id := make_jobId (now_id e) (random36 e);
     toolkit := field body "toolkit";
     config := field body "config";
     input_files :=
       if truthy (field body "input_files") then field body "input_files"
       else JArr [];
     priority :=
       match field body "priority" with
       | JUndefined => JNum 5
       | p => p
       end;
     status := "queued";
     progress := 0;
     created_at := now_created e;
     started_at := None;
     completed_at := None;
     queue_position := length (filter (λ j, status j = "queued") l) + 1;
     estimated_completion := now_estimate e + 2 * 60 * 60 * 1000;
     results := None |}.

Definition submit (s : server) (body : gmap string js_value)
    (e : submit_env) : server * reply Job :=
  if negb (truthy (field body "toolkit")) || negb (truthy (field body "config"))
  then (s, Err 400 validation_error)
  else
    let job := new_job (jobs s) body e in
    let s1 := with_jobs s (jobs s ++ [job]) in
    let s2 := setTimeout s1 (mkClosure (id job) (field body "toolkit")) in
    (s2, Ok 201 job).

(** ** The scheduler callbacks *)

(** The [setTimeout] callback: queued -> running, then start the ticks. *)
Definition start_callback (s : server) (c : closure) (now : Z) : server :=
  match find_job (jobs s) (c_jobId c) with
  | None => s
  | Some (i, j) =>
      let j1 := set_status j "running" in
      let j2 := set_started_at j1 now in
      setInterval (with_jobs s (<[i := j2]> (jobs s))) c
  end.

Definition fire_timeout (s : server) (h : nat) (now : Z) : server :=
  match timeouts s !! h with
  | None => s
  | Some c => start_callback (expire s h) c now
  end.

(** The [setInterval] callback registered under handle [h]; [rnd] is the
    value [Math.random()] returns.  In the completion branch
    [generateMockResults(toolkit)] is evaluated before [results] is
    assigned and before [clearInterval]: when it throws, neither
    happens and the exception leaves the callback. *)
Definition progress_callback (s : server) (h : nat) (c : closure)
    (rnd : Q) (now : Z) : server :=
  match find_job (jobs s) (c_jobId c) with
  | Some (i, currentJob) =>
      if String.eqb (status currentJob) "running" then
        let p := Qmin (progress currentJob + rnd * 20) 100 in
        let j1 := set_progress currentJob p in
        if Qle_bool 100 p then
          let j2 := set_status j1 "completed" in
          let j3 := set_completed_at j2 now in
          match generateMockResults (c_toolkit c) with
          | ThrowsTypeError => crash s
          | generated =>
              let j4 := set_results j3 generated in
              clearInterval (with_jobs s (<[i := j4]> (jobs s))) h
          end
        else with_jobs s (<[i := j1]> (jobs s))
      else clearInterval s h
  | None => clearInterval s h
  end.

Definition fire_interval (s : server) (h : nat) (rnd : Q) (now : Z)
    : server :=
  match intervals s !! h with
  | None => s
  | Some c => progress_callback s h c rnd now
  end.

(** ** Get, delete *)

Definition not_found : string := "Job not found".

Definition get_job (s : server) (jobId : string) : reply Job :=
  match find_job (jobs s) jobId with
  | None => Err 404 not_found
  | Some (_, job) => Ok 200 job
  end.

Record delete_body := mkDeleteBody {
  message : string;
  job : option Job
}.

Definition delete_job (s : server) (jobId : string)
    : server * reply delete_body :=
  match find_job (jobs s) jobId with
  | None => (s, Err 404 not_found)
  | Some (jobIndex, j) =>
      if String.eqb (status j) "running" then
        let j' := set_status j "cancelled" in
        (with_jobs s (<[jobIndex := j']> (jobs s)),
         Ok 200 (mkDeleteBody "Job cancelled" (Some j')))
      else
        (with_jobs s (delete jobIndex (jobs s)),
         Ok 200 (mkDeleteBody "Job deleted" None))
  end.

(** ** List

    [list_jobs] is the handler registered for [/api/v1/jobs/list], as it is
    written.  Which requests reach it is a matter of the routes, below. *)

(** StrWhiteSpaceChar, restricted to the code units the model has: TAB, LF,
    VT, FF, CR, SP and NBSP. *)
Definition is_white_space (a : Ascii.ascii) : bool :=
  bool_decide (Ascii.nat_of_ascii a ∈ [9; 10; 11; 12; 13; 32; 160]%nat).

Fixpoint trim_start (s : string) : string :=
  match s with
  | String a rest => if is_white_space a then trim_start rest else s
  | EmptyString => s
  end.

(** The value of a code unit as a digit of the given radix, if it is one. *)
Definition digit_value (radix : Z) (a : Ascii.ascii) : option Z :=
  let n := Z.of_nat (Ascii.nat_of_ascii a) in
  let v :=
    if ((48 <=? n) && (n <=? 57))%Z then Some (n - 48)%Z
    else if ((97 <=? n) && (n <=? 122))%Z then Some (n - 87)%Z
    else if ((65 <=? n) && (n <=? 90))%Z then Some (n - 55)%Z
    else None in
  match v with
  | Some d => if (d <? radix)%Z then Some d else None
  | None => None
  end.

(** The longest prefix of radix digits, read as a number; [acc] is [None]
    until a first digit has been read. *)
Fixpoint parse_digits (radix : Z) (acc : option Z) (s : string) : option Z :=
  match s with
  | String a rest =>
      match digit_value radix a with
      | Some d => parse_digits radix (Some (default 0 acc * radix + d)%Z) rest
      | None => acc
      end
  | EmptyString => acc
  end.

(** [parseInt(input)] with no radix argument; [None] is [NaN]. *)
Definition parseInt (input : string) : option Z :=
  let s := trim_start input in
  let '(sign, s1) :=
    match s with
    | String "-"%char rest => ((-1)%Z, rest)
    | String "+"%char rest => (1%Z, rest)
    | _ => (1%Z, s)
    end in
  let '(radix, s2) :=
    match s1 with
    | String "0"%char (String "x"%char rest) => (16%Z, rest)
    | String "0"%char (String "X"%char rest) => (16%Z, rest)
    | _ => (10%Z, s1)
    end in
  Z.mul sign <$> parse_digits radix None s2.

(** [array.slice(0, e)]: [NaN] counts as 0, a negative end counts back
    from the length, and the end is clamped to the array. *)
Definition slice {A} (l : list A) (e : option Z) : list A :=
  let len := Z.of_nat (length l) in
  let relativeEnd := default 0%Z e in
  let final :=
    if (relativeEnd <? 0)%Z then Z.max (len + relativeEnd) 0
    else Z.min relativeEnd len in
  take (Z.to_nat final) l.

Record list_body := mkListBody {
  total : nat;
  listed : list Job
}.

(** A query parameter that is present and not the empty string. *)
Definition given (o : option string) : option string :=
  match o with
  | Some "" => None
  | o => o
  end.

Definition filter_status (q : option string) (l : list Job) : list Job :=
  match given q with
  | Some st => filter (λ j, status j = st) l
  | None => l
  end.

Definition filter_toolkit (q : option string) (l : list Job) : list Job :=
  match given q with
  | Some t => filter (λ j, strict_eq_string (toolkit j) t = true) l
  | None => l
  end.

(** The jobs that match the status and toolkit filters of a query. *)
Definition matching (s : server) (query : gmap string string) : list Job :=
  filter_toolkit (query !! "toolkit") (filter_status (query !! "status") (jobs s)).

Definition default_limit : string := "50".

Definition list_jobs (s : server) (query : gmap string string) : list_body :=
  let limit := default default_limit (query !! "limit") in
  let filteredJobs := slice (matching s query) (parseInt limit) in
  {| total := length filteredJobs; listed := filteredJobs |}.

(** ** Stats *)

Fixpoint zeros (k : nat) : string :=
  match k with
  | O => ""
  | S k' => String "0"%char (zeros k')
  end.

(** The integer [n] for which [n / 10^f - x] is closest to zero, the larger
    one when there are two. *)
Definition nearest_scaled (f : nat) (x : Q) : Z :=
  Qfloor (x * inject_Z (10 ^ Z.of_nat f) + (1 # 2)).

(** The digits of [n] with a point before the last [f] of them. *)
Definition fixed_digits (f : nat) (n : Z) : string :=
  let m := decimal n in
  match f with
  | O => m
  | _ =>
      let m := if (String.length m <=? f)%nat
               then zeros (f + 1 - String.length m) ++ m else m in
      let k := String.length m in
      String.substring 0 (k - f) m ++ "." ++ String.substring (k - f) f m
  end.

(** [x.toFixed(f)] for a finite [x] below 10^21 in magnitude. *)
Definition toFixed (f : nat) (x : Q) : string :=
  if Qle_bool 0 x then fixed_digits f (nearest_scaled f x)
  else "-" ++ fixed_digits f (nearest_scaled f (- x)).

(** ** Binary64

    The division and the multiplication of the success rate are binary64
    operations: each gives the double nearest to the exact result, the one
    with the even significand when two are equally near.  [toFixed] then
    works on the exact value of that double. *)

Definition pow2 (e : Z) : Q := (2 ^ e)%Q.

(** For a positive [x], the [e] with [2^e <= x < 2^(e+1)]. *)
Definition floor_log2 (x : Q) : Z :=
  let e := (Z.log2 (Qnum x) - Z.log2 (Z.pos (Qden x)))%Z in
  if Qle_bool (pow2 e) x then e else (e - 1)%Z.

(** The integer nearest to [m], the even one of two. *)
Definition nearest_even (m : Q) : Z :=
  let k := Qfloor m in
  match (m - inject_Z k ?= 1 # 2)%Q with
  | Lt => k
  | Gt => (k + 1)%Z
  | Eq => if Z.even k then k else (k + 1)%Z
  end.

(** The double nearest to a positive [x]: a multiple of [2^(e - 52)],
    where [e] is the exponent of [x], or -1022 for a subnormal one. *)
Definition round64_pos (x : Q) : Q :=
  let q := (Z.max (floor_log2 x) (-1022) - 52)%Z in
  inject_Z (nearest_even (x / pow2 q)) * pow2 q.

(** Round to nearest, ties to even.  Results beyond the largest double do
    not arise here: the operands are counts and percentages. *)
Definition round64 (x : Q) : Q :=
  match (x ?= 0)%Q with
  | Eq => 0
  | Gt => round64_pos x
  | Lt => - round64_pos (- x)
  end.

(** The reference for these operations: the IEEE 754 arithmetic of the
    standard library, at precision 53 and maximal exponent 1024. *)
Definition ieee_of_Z (n : Z) : spec_float := binary_normalize 53 1024 n 0 false.

Definition ieee_div : spec_float → spec_float → spec_float := SFdiv 53 1024.

Definition ieee_mul : spec_float → spec_float → spec_float := SFmul 53 1024.

Definition ieee_value (x : spec_float) : Q :=
  match x with
  | S754_finite sign m e =>
      ((if sign then -1 else 1) * inject_Z (Z.pos m) * pow2 e)%Q
  | _ => 0%Q
  end.

Definition count_status (l : list Job) (st : string) : nat :=
  length (filter (λ j, status j = st) l).

Definition Q_of_nat (n : nat) : Q := inject_Z (Z.of_nat n).

Record stats_body := mkStats {
  total_jobs : nat;
  completed : nat;
  running : nat;
  queued : nat;
  failed : nat;
  success_rate : js_value;
  uptime : Q;
  timestamp : Z
}.

(** [(completedJobs / jobs.length * 100).toFixed(2)]: the two counts are
    array lengths, below 2^32 and exact in binary64. *)
Definition stats (s : server) (process_uptime : Q) (now : Z) : stats_body :=
  {| total_jobs := length (jobs s);
     completed := count_status (jobs s) "completed";
     running := count_status (jobs s) "running";
     queued := count_status (jobs s) "queued";
     failed := count_status (jobs s) "failed";
     success_rate :=
       if (0 <? length (jobs s))%nat
       then JStr (toFixed 2
              (round64
                 (round64 (Q_of_nat (count_status (jobs s) "completed")
                           / Q_of_nat (length (jobs s)))
                  * 100)))
       else JNum 100;
     uptime := process_uptime;
     timestamp := now |}.

(** ** Runs of the server *)

(** What changes the state: a submission, a deletion, a one-shot timer
    firing, a periodic timer firing.  Get, list and stats only read. *)
Inductive event :=
| EvSubmit (body : gmap string js_value) (e : submit_env)
| EvDelete (jobId : string)
| EvTimeout (h : nat) (now : Z)
| EvInterval (h : nat) (rnd : Q) (now : Z).

(** What the handler or callback of an event does to the state. *)
Definition transition (s : server) (ev : event) : server :=
  match ev with
  | EvSubmit body e => (submit s body e).1
  | EvDelete jobId => (delete_job s jobId).1
  | EvTimeout h now => fire_timeout s h now
  | EvInterval h rnd now => fire_interval s h rnd now
  end.

(** A process that has ended handles nothing. *)
Definition step (s : server) (ev : event) : server :=
  if alive s then transition s ev else s.

Definition run (s : server) (tr : list event) : server := foldl step s tr.

(** [Math.random()] returns a number in the interval [0, 1). *)
Definition random_ok (ev : event) : Prop :=
  match ev with
  | EvInterval _ rnd _ => (0 <= rnd /\ rnd < 1)%Q
  | _ => True
  end.

Definition accepted (body : gmap string js_value) : bool :=
  truthy (field body "toolkit") && truthy (field body "config").

(** The id a submission creates a job under, if it creates one. *)
Definition issued_id (ev : event) : option string :=
  match ev with
  | EvSubmit body e =>
      if accepted body then Some (make_jobId (now_id e) (random36 e)) else None
  | _ => None
  end.

Definition issued (tr : list event) : list string := omap issued_id tr.

Definition is_tick (ev : event) : Prop :=
  match ev with
  | EvInterval _ _ _ => True
  | _ => False
  end.

(** ** Predicates used in the statements *)

(** A message mentions a field when the field name occurs in it. *)
Definition mentions (msg name : string) : Prop :=
  ∃ before after, msg = before ++ name ++ after.

(** The falsy values a JSON body can carry for a field that is present. *)
Definition falsy_literals : list js_value :=
  [JStr ""; JNum 0; JBool false; JNull].

(** Both required fields of a job are truthy. *)
Definition required_fields_truthy (j : Job) : Prop :=
  truthy (toolkit j) = true ∧ truthy (config j) = true.

Definition progress_in_range (j : Job) : Prop :=
  (0 <= progress j)%Q ∧ (progress j <= 100)%Q.

(** The string holds no underscore. *)
Fixpoint underscore_free (s : string) : bool :=
  match s with
  | EmptyString => true
  | String a rest => negb (Ascii.eqb a "_") && underscore_free rest
  end.

Definition digit_char (d : Z) : Ascii.ascii :=
  Ascii.ascii_of_nat (48 + Z.to_nat d).

(** The hundredths [n] written as an integer part, a point and exactly two
    decimals: what "rounded to 2 decimal places" looks like in a response. *)
Definition two_decimals (n : Z) : string :=
  decimal (n / 100)
  ++ "." ++ String (digit_char (n / 10 mod 10)) (String (digit_char (n mod 10)) "").

(** No one-shot start timer is pending for the id. *)
Definition no_pending_start (T : gmap nat closure) (jobId : string) : Prop :=
  ∀ h c, T !! h = Some c → c_jobId c ≠ jobId.

(** Where a job stands in its life: still queued; started (running or
    cancelled), so its start timer is spent; or completed, with results. *)
Definition job_phase (T : gmap nat closure) (j : Job) : Prop :=
  (status j = "queued" ∧ results j = None) ∨
  ((status j = "running" ∨ status j = "cancelled") ∧
   results j = None ∧ no_pending_start T (id j)) ∨
  (status j = "completed" ∧ is_Some (results j) ∧ no_pending_start T (id j)).

(** The invariant of a run in which the ids [ids] have been issued: jobs
    and pending start timers carry issued ids, no two jobs and no two
    pending start timers share an id, and every job is in one of the three
    phases. *)
Record lifecycle_inv (ids : list string) (s : server) : Prop := {
  inv_jobs_issued : Forall (λ j, id j ∈ ids) (jobs s);
  inv_timeouts_issued : ∀ h c, timeouts s !! h = Some c → c_jobId c ∈ ids;
  inv_ids_nodup : NoDup (id <$> jobs s);
  inv_timeouts_inj : ∀ h1 h2 c1 c2,
    timeouts s !! h1 = Some c1 → timeouts s !! h2 = Some c2 →
    c_jobId c1 = c_jobId c2 → h1 = h2;
  inv_phase : Forall (job_phase (timeouts s)) (jobs s)
}.

(** ** Sample inputs *)

Definition sample_body : gmap string js_value :=
  {[ "toolkit" := JStr "structure_prediction"; "config" := JObj [] ]}.

Definition sample_env : submit_env :=
  {| now_id := 1700000000000; now_created := 1700000000000;
     now_estimate := 1700000000001; random36 := "0.4fzyo82mvyr" |}.

Definition later_env : submit_env :=
  {| now_id := 1700000000250; now_created := 1700000000250;
     now_estimate := 1700000000250; random36 := "0.k3x9q0a7c2m" |}.

(** The id the first sample submission is given. *)
Definition sample_jobId : string := "job_1700000000000_4fzyo82mv".

(** Two submissions, nothing else. *)
Definition two_jobs : server :=
  run initial [EvSubmit sample_body sample_env; EvSubmit sample_body later_env].

(** Two submissions that read the same clock value and draw the same random
    string. *)
Definition twin_submissions : server :=
  run initial [EvSubmit sample_body sample_env; EvSubmit sample_body sample_env].

(** One submission whose start timer has fired. *)
Definition one_running : server :=
  run initial [EvSubmit sample_body sample_env; EvTimeout 0 1700000002000].

(** One submission, started, then taken to completion by six ticks. *)
Definition completed_run : list event :=
  [EvSubmit sample_body sample_env; EvTimeout 0 1700000002000;
   EvInterval 1 (9 # 10) 1700000003000; EvInterval 1 (9 # 10) 1700000004000;
   EvInterval 1 (9 # 10) 1700000005000; EvInterval 1 (9 # 10) 1700000006000;
   EvInterval 1 (9 # 10) 1700000007000; EvInterval 1 (9 # 10) 1700000008000].

Definition completed_job : Job :=
  default (new_job [] sample_body sample_env)
    (jobs (run initial completed_run) !! 0%nat).

(** One submission, started and ticked once; the ticks that follow its
    cancellation; and the record the cancellation leaves. *)
Definition before_cancel : server :=
  run initial [EvSubmit sample_body sample_env; EvTimeout 0 1700000002000;
               EvInterval 1 (1 # 2) 1700000003000].

Definition after_cancel_ticks : list event :=
  [EvInterval 1 (1 # 2) 1700000004000; EvInterval 1 (1 # 2) 1700000005000].

Definition cancelled_sample : Job :=
  set_status
    (set_progress
       (set_started_at
          (set_status (new_job [] sample_body sample_env) "running")
          1700000002000)
       (Qmin (0 + (1 # 2) * 20) 100))
    "cancelled".

Definition third_env : submit_env :=
  {| now_id := 1700000000500; now_created := 1700000000500;
     now_estimate := 1700000000500; random36 := "0.i" |}.

(** Three jobs, the first of them completed. *)
Definition one_of_three : server :=
  run initial (completed_run ++
               [EvSubmit sample_body later_env; EvSubmit sample_body third_env]).

(** ** The writes a step performs *)

(** The progress a tick computes for a running job. *)
Definition ticked_progress (j : Job) (rnd : Q) : Q :=
  Qmin (progress j + rnd * 20) 100.

(** [job_write s ev j j']: the step [ev] replaces the record [j] of the
    registry of [s] by [j'].  One case for each place where the source
    assigns to a field of a stored job. *)
Inductive job_write (s : server) : event → Job → Job → Prop :=
| write_cancel j :
    status j = "running" →
    job_write s (EvDelete (id j)) j (set_status j "cancelled")
| write_start h now c j :
    timeouts s !! h = Some c → c_jobId c = id j →
    job_write s (EvTimeout h now) j
      (set_started_at (set_status j "running") now)
| write_progress h rnd now c j :
    intervals s !! h = Some c → c_jobId c = id j →
    status j = "running" →
    Qle_bool 100 (ticked_progress j rnd) = false →
    job_write s (EvInterval h rnd now) j
      (set_progress j (ticked_progress j rnd))
| write_complete h rnd now c j :
    intervals s !! h = Some c → c_jobId c = id j →
    status j = "running" →
    Qle_bool 100 (ticked_progress j rnd) = true →
    generateMockResults (c_toolkit c) ≠ ThrowsTypeError →
    job_write s (EvInterval h rnd now) j
      (set_results
         (set_completed_at
            (set_status (set_progress j (ticked_progress j rnd)) "completed")
            now)
         (generateMockResults (c_toolkit c))).

(** ** The history of a job *)

(** The order in which a job passes through its statuses. *)
Definition status_le (a b : string) : Prop :=
  a = b ∨
  (a = "queued" ∧ (b = "running" ∨ b = "completed" ∨ b = "cancelled")) ∨
  (a = "running" ∧ (b = "completed" ∨ b = "cancelled")).

(** [later j j']: the record [j'] is a later state of the job whose record
    was [j]. *)
Record later (j j' : Job) : Prop := {
  later_id : id j' = id j;
  later_toolkit : toolkit j' = toolkit j;
  later_config : config j' = config j;
  later_input_files : input_files j' = input_files j;
  later_priority : priority j' = priority j;
  later_created_at : created_at j' = created_at j;
  later_queue_position : queue_position j' = queue_position j;
  later_estimated_completion :
    estimated_completion j' = estimated_completion j;
  later_status : status_le (status j) (status j');
  later_progress : (progress j <= progress j')%Q;
  later_started : status j ≠ "queued" → started_at j' = started_at j;
  later_terminal :
    status j = "completed" ∨ status j = "cancelled" → j' = j
}.

(** What the fields of a job look like in each status. *)
Definition job_shape (j : Job) : Prop :=
  (status j = "queued" ∧ progress j = 0%Q ∧
   started_at j = None ∧ completed_at j = None) ∨
  ((status j = "running" ∨ status j = "cancelled") ∧ (progress j < 100)%Q ∧
   is_Some (started_at j) ∧ completed_at j = None) ∨
  (status j = "completed" ∧ (progress j == 100)%Q ∧
   is_Some (started_at j) ∧ is_Some (completed_at j)).

(** A timer closure agrees with the registry: a job stored under the id it
    captured has the toolkit it captured. *)
Definition closure_matches (l : list Job) (c : closure) : Prop :=
  ∀ j, j ∈ l → id j = c_jobId c → toolkit j = c_toolkit c.

(** What the pending timers of a run with distinct ids look like. *)
Record timers_inv (ids : list string) (s : server) : Prop := {
  ti_intervals_issued :
    ∀ h c, intervals s !! h = Some c → c_jobId c ∈ ids;
  ti_timeouts_match :
    ∀ h c, timeouts s !! h = Some c → closure_matches (jobs s) c;
  ti_intervals_match :
    ∀ h c, intervals s !! h = Some c → closure_matches (jobs s) c;
  ti_timeouts_fresh :
    ∀ h c, timeouts s !! h = Some c → h < next_timer s;
  ti_intervals_fresh :
    ∀ h c, intervals s !! h = Some c → h < next_timer s;
  ti_running_ticks :
    ∀ j, j ∈ jobs s → status j = "running" →
         ∃ h c, intervals s !! h = Some c ∧ c_jobId c = id j;
  ti_results :
    Forall (λ j, status j = "completed" →
                 results j = Some (generateMockResults (toolkit j))) (jobs s)
}.

(** One submission, started and ticked once; and what three more ticks make
    of it. *)
Definition ticked_once : list event :=
  [EvSubmit sample_body sample_env; EvTimeout 0 1700000002000;
   EvInterval 1 (1 # 2) 1700000003000].

Definition three_more_ticks : list event :=
  [EvInterval 1 (9 # 10) 1700000004000; EvInterval 1 (9 # 10) 1700000005000;
   EvInterval 1 (9 # 10) 1700000006000].

Definition job_ticked_once : Job :=
  default (new_job [] sample_body sample_env)
    (jobs (run initial ticked_once) !! 0%nat).

Definition job_ticked_more : Job :=
  default (new_job [] sample_body sample_env)
    (jobs (run initial (ticked_once ++ three_more_ticks)) !! 0%nat).

(** The record of the sample job once its start timer has fired. *)
Definition job_started : Job :=
  set_started_at (set_status (new_job [] sample_body sample_env) "running")
    1700000002000.
(** ** Counting ticks *)

(** The number of periodic timer firings in a trace. *)
Fixpoint count_ticks (tr : list event) : nat :=
  match tr with
  | [] => 0
  | EvInterval _ _ _ :: rest => S (count_ticks rest)
  | _ :: rest => count_ticks rest
  end.

(** After [n] firings a job has progress 0 or less than 20 n, and a
    completed job has reached 100. *)
Definition progress_within (n : nat) (j : Job) : Prop :=
  ((progress j == 0)%Q ∨ (progress j < 20 * Q_of_nat n)%Q) ∧
  (status j = "completed" → (100 <= progress j)%Q).

(** The optional fields of a job have their defaults. *)
Definition defaults_applied (j : Job) : Prop :=
  truthy (input_files j) = true ∧ priority j ≠ JUndefined.

(** The status of a job is one of the four the code assigns. *)
Definition assigned_status (j : Job) : Prop :=
  status j = "queued" ∨ status j = "running" ∨
  status j = "cancelled" ∨ status j = "completed".
(** ** Predicates for list and stats *)

(** The job passes the status filter of a query. *)
Definition status_matches (q : option string) (j : Job) : Prop :=
  match given q with
  | Some st => status j = st
  | None => True
  end.

(** The job passes the toolkit filter of a query. *)
Definition toolkit_matches (q : option string) (j : Job) : Prop :=
  match given q with
  | Some t => toolkit j = JStr t
  | None => True
  end.
(** ** Mock results in full

    [generateMockResults] and [generateRetrosynthesisPathways] with the
    values they draw.  [Math.random()] is a stream: the function [rnd]
    gives the value of the k-th call, and a computation threads the number
    of calls made so far. *)

Definition rand (A : Type) : Type := (nat → Q) → nat → A * nat.

#[global] Instance rand_ret : MRet rand := λ A a _ k, (a, k).

#[global] Instance rand_bind : MBind rand := λ A B f m rnd k,
  let '(a, k') := m rnd k in f a rnd k'.

(** [Math.random()] *)
Definition random : rand Q := λ rnd k, (rnd k, S k).

(** Every value of the stream lies in the interval [0, 1). *)
Definition in_unit_interval (rnd : nat → Q) : Prop :=
  ∀ k, (0 <= rnd k)%Q ∧ (rnd k < 1)%Q.

(** [Math.floor(Math.random() * n) + base] *)
Definition random_int (n base : Z) : rand Z :=
  r ← random; mret (Qfloor (r * inject_Z n) + base)%Z.

(** [array[index]] for a numeric index: [None] is [undefined]. *)
Definition at_index {A} (l : list A) (index : Z) : option A :=
  if (index <? 0)%Z then None else l !! Z.to_nat index.

(** The number a string in the notation of [toFixed] denotes: what the
    subtraction in the sort comparator converts a score to. *)
Fixpoint read_fixed (acc scale : Z) (seen_point : bool) (s : string) : Q :=
  match s with
  | EmptyString => inject_Z acc / inject_Z scale
  | String a rest =>
      if Ascii.eqb a "." then read_fixed acc scale true rest
      else
        match digit_value 10 a with
        | Some d =>
            read_fixed (acc * 10 + d)
              (if seen_point then scale * 10 else scale)%Z seen_point rest
        | None => inject_Z acc / inject_Z scale
        end
  end.

Definition number_of_fixed (s : string) : Q :=
  match s with
  | String "-" rest => - read_fixed 0 1 false rest
  | _ => read_fixed 0 1 false s
  end.

Module Reaction.
Record t := mk {
  step : nat;
  type : option string;
  yield : string;
  reagents : list string;
  conditions : string
}.
End Reaction.

Module Material.
Record t := mk {
  name : string;
  smiles : string;
  price : string;
  availability : string
}.
End Material.

Module Pathway.
Record t := mk {
  id : nat;
  score : string;
  steps : Z;
  cost : string;
  reactions : list Reaction.t;
  starting_materials : list Material.t
}.
End Pathway.

Definition reactionTypes : list string :=
  ["Nucleophilic Substitution"; "Electrophilic Addition"; "Grignard Reaction";
   "Aldol Condensation"; "Friedel-Crafts Acylation";
   "Diels-Alder Cycloaddition"; "Wittig Reaction"; "Reduction"; "Oxidation";
   "Esterification"].

Definition startingMaterials : list Material.t :=
  [Material.mk "Benzene" "c1ccccc1" "$15/g" "commercial";
   Material.mk "Acetone" "CC(=O)C" "$8/L" "commercial";
   Material.mk "Ethanol" "CCO" "$12/L" "commercial";
   Material.mk "Acetic acid" "CC(=O)O" "$10/L" "commercial"].

(** The inner loop: [count] more reactions, the next one with index [j]. *)
Fixpoint generate_reactions (count j : nat) : rand (list Reaction.t) :=
  match count with
  | O => mret []
  | S count' =>
      t ← random;
      y ← random;
      rest ← generate_reactions count' (S j);
      mret (Reaction.mk (j + 1)
              (at_index reactionTypes
                 (Qfloor (t * inject_Z (Z.of_nat (length reactionTypes)))))
              (toFixed 0 (y * 30 + 70) ++ "%")
              ["Reagent A"; "Reagent B"] "RT, 2h" :: rest)
  end.

(** The outer loop: [count] more pathways, the next one with index [i]. *)
Fixpoint generate_pathways (count i : nat) : rand (list Pathway.t) :=
  match count with
  | O => mret []
  | S count' =>
      numSteps ← random_int 4 2;
      reactions ← generate_reactions (Z.to_nat numSteps) 0;
      sc ← random;
      co ← random;
      rest ← generate_pathways count' (S i);
      mret (Pathway.mk (i + 1) (toFixed 1 (85 + sc * 15)) numSteps
              (toFixed 0 (co * 500 + 100)) reactions
              (slice startingMaterials (Some (Z.min numSteps 3))) :: rest)
  end.

Definition score_value (p : Pathway.t) : Q := number_of_fixed (Pathway.score p).

(** [pathways.sort((a, b) => b.score - a.score)].  The sort of an array is
    stable, so for this comparator the result is the one ordering by
    falling score that keeps pathways of equal score in their order; it
    is computed here by insertion from the right. *)
Fixpoint insert_by_score (p : Pathway.t) (l : list Pathway.t)
    : list Pathway.t :=
  match l with
  | [] => [p]
  | q :: rest =>
      if Qle_bool (score_value q) (score_value p) then p :: l
      else q :: insert_by_score p rest
  end.

Definition sort_by_score (l : list Pathway.t) : list Pathway.t :=
  foldr insert_by_score [] l.

Definition generateRetrosynthesisPathways : rand (list Pathway.t) :=
  numPathways ← random_int 5 5;
  pathways ← generate_pathways (Z.to_nat numPathways) 0;
  mret (sort_by_score pathways).

Module MolecularDynamics.
Record t := mk {
  rmsd_avg : string;
  rmsf_avg : string;
  radius_of_gyration : string;
  total_energy : string;
  potential_energy : string;
  kinetic_energy : string;
  plots : list string
}.
End MolecularDynamics.

Module StructurePrediction.
Record t := mk {
  plddt_score : string;
  tm_score : string;
  model_confidence : string;
  structure_file : string;
  alignment_file : string
}.
End StructurePrediction.

Module QuantumChemistry.
Record t := mk {
  total_energy : string;
  homo_energy : string;
  lumo_energy : string;
  dipole_moment : string;
  optimization_steps : Z
}.
End QuantumChemistry.

Module MolecularDocking.
Record t := mk {
  binding_affinity : string;
  rmsd_lb : string;
  num_poses : Z;
  best_pose : string;
  binding_site_residues : list string
}.
End MolecularDocking.

Module Retrosynthesis.
Record t := mk {
  num_pathways : Z;
  pathways : list Pathway.t;
  sa_score : string;
  complexity : string;
  avg_steps : string;
  success_probability : string
}.
End Retrosynthesis.

(** The [results] table of [generateMockResults]: all five entries are
    computed, in this order, whatever toolkit is asked for. *)
Record results_table := mkResultsTable {
  molecular_dynamics : MolecularDynamics.t;
  structure_prediction : StructurePrediction.t;
  quantum_chemistry : QuantumChemistry.t;
  molecular_docking : MolecularDocking.t;
  retrosynthesis : Retrosynthesis.t
}.

Definition generate_molecular_dynamics : rand MolecularDynamics.t :=
  r1 ← random; r2 ← random; r3 ← random;
  r4 ← random; r5 ← random; r6 ← random;
  mret (MolecularDynamics.mk
          (toFixed 2 (r1 * 5)) (toFixed 2 (r2 * 3)) (toFixed 2 (15 + r3 * 10))
          (toFixed 0 (- (800000) - r4 * 100000))
          (toFixed 0 (- (900000) - r5 * 100000))
          (toFixed 0 (100000 + r6 * 50000))
          ["rmsd_plot.png"; "rmsf_plot.png"; "energy_plot.png"]).

Definition generate_structure_prediction : rand StructurePrediction.t :=
  r1 ← random; r2 ← random; r3 ← random;
  mret (StructurePrediction.mk
          (toFixed 2 (70 + r1 * 25))
          (toFixed 3 ((7 # 10) + r2 * (25 # 100)))
          (if Qle_bool r3 (1 # 2) then "medium" else "high")
          "predicted_structure.pdb" "alignment.a3m").

Definition generate_quantum_chemistry : rand QuantumChemistry.t :=
  r1 ← random; r2 ← random; r3 ← random; r4 ← random;
  steps ← random_int 50 20;
  mret (QuantumChemistry.mk
          (toFixed 6 (- (1500234 # 1000) - r1 * 100))
          (toFixed 4 (- (25 # 100) - r2 * (1 # 10)))
          (toFixed 4 ((5 # 100) + r3 * (1 # 10)))
          (toFixed 3 (r4 * 5))
          steps).

Definition generate_molecular_docking : rand MolecularDocking.t :=
  r1 ← random; r2 ← random;
  poses ← random_int 10 5;
  mret (MolecularDocking.mk
          (toFixed 2 (- 8 - r1 * 4)) (toFixed 3 (r2 * 2)) poses
          "pose_1.pdbqt" ["ARG123"; "ASP45"; "TYR67"; "PHE89"]).

Definition generate_retrosynthesis : rand Retrosynthesis.t :=
  count ← random_int 10 5;
  pathways ← generateRetrosynthesisPathways;
  r1 ← random; r2 ← random; r3 ← random; r4 ← random;
  mret (Retrosynthesis.mk count pathways
          (toFixed 1 (r1 * 3 + 5)) (toFixed 1 (r2 * 5 + 2))
          (toFixed 1 (r3 * 2 + 3)) (toFixed 0 (r4 * 20 + 70))).

Definition generate_results_table : rand results_table :=
  md ← generate_molecular_dynamics;
  sp ← generate_structure_prediction;
  qc ← generate_quantum_chemistry;
  dock ← generate_molecular_docking;
  retro ← generate_retrosynthesis;
  mret (mkResultsTable md sp qc dock retro).

(** The value [generateMockResults] returns. *)
Inductive mock_value :=
| OfMolecularDynamics (v : MolecularDynamics.t)
| OfStructurePrediction (v : StructurePrediction.t)
| OfQuantumChemistry (v : QuantumChemistry.t)
| OfMolecularDocking (v : MolecularDocking.t)
| OfRetrosynthesis (v : Retrosynthesis.t)
| OfObjectPrototype (member : string)
| OfDefault (message : string).

(** [results[key] || { message: 'Results generated successfully' }] for
    the property key [key] of the toolkit. *)
Definition select_result (table : results_table) (key : string) : mock_value :=
  if String.eqb key "molecular_dynamics"
  then OfMolecularDynamics (molecular_dynamics table)
  else if String.eqb key "structure_prediction"
  then OfStructurePrediction (structure_prediction table)
  else if String.eqb key "quantum_chemistry"
  then OfQuantumChemistry (quantum_chemistry table)
  else if String.eqb key "molecular_docking"
  then OfMolecularDocking (molecular_docking table)
  else if String.eqb key "retrosynthesis"
  then OfRetrosynthesis (retrosynthesis table)
  else if bool_decide (key ∈ object_prototype_members)
  then OfObjectPrototype key
  else OfDefault "Results generated successfully".

Definition generateMockResults_full (key : string) : rand mock_value :=
  table ← generate_results_table;
  mret (select_result table key).

(** A sample stream. *)
Definition sample_stream (k : nat) : Q :=
  (Z.of_nat (k * 37 mod 100) # 100).
(** The type of a reaction is one of [reactionTypes]. *)
Definition reaction_typed (r : Reaction.t) : Prop :=
  ∃ name, Reaction.type r = Some name ∧ name ∈ reactionTypes.

(** What every generated pathway looks like. *)
Definition pathway_shaped (p : Pathway.t) : Prop :=
  (2 ≤ Pathway.steps p ≤ 5)%Z ∧
  length (Pathway.reactions p) = Z.to_nat (Pathway.steps p) ∧
  Reaction.step <$> Pathway.reactions p = seq 1 (Z.to_nat (Pathway.steps p)) ∧
  Forall reaction_typed (Pathway.reactions p) ∧
  Pathway.starting_materials p
    = take (Z.to_nat (Z.min (Pathway.steps p) 3)) startingMaterials ∧
  (85 <= score_value p)%Q ∧ (score_value p <= 100)%Q.

(** Falling score. *)
Definition score_ge (a b : Pathway.t) : Prop :=
  (score_value b <= score_value a)%Q.
(** Which entry of the table a returned value is: the view the registry
    model takes of it. *)
Definition value_kind (key : string) (v : mock_value) : mock_results :=
  match v with
  | OfMolecularDynamics _ | OfStructurePrediction _ | OfQuantumChemistry _
  | OfMolecularDocking _ | OfRetrosynthesis _ => ToolkitPayload key
  | OfObjectPrototype member => InheritedMember member
  | OfDefault _ => DefaultMessage
  end.

(** ** Routing

    Express runs the middleware and the routes in the order in which
    [server.js] registers them.  For a GET request the static file
    middleware answers when the path names a file under [__dirname];
    otherwise the first route whose method and path match answers.  No
    handler of [server.js] passes a request on to a later route.  A path
    is given by its segments; a literal segment of a route matches without
    regard to case and a parameter matches any one segment that is not
    empty.  Requests with a method other than GET, POST and DELETE are not
    modelled. *)

Inductive method := GET | POST | DELETE.

#[global] Instance method_eq_dec : EqDecision method.
Proof. solve_decision. Defined.

Inductive segment :=
| Literal (s : string)
| Capture (name : string).

Inductive handler :=
| HealthCheck | SubmitJob | GetJob | ListJobs | DeleteJob | StatsReport
| MainPage.

Record route := mkRoute {
  route_method : method;
  route_path : list segment;
  route_handler : handler
}.

(** The routes, in the order of registration. *)
Definition routes : list route :=
  [mkRoute GET [Literal "api"; Literal "health"] HealthCheck;
   mkRoute POST
     [Literal "api"; Literal "v1"; Literal "jobs"; Literal "submit"] SubmitJob;
   mkRoute GET
     [Literal "api"; Literal "v1"; Literal "jobs"; Capture "jobId"] GetJob;
   mkRoute GET
     [Literal "api"; Literal "v1"; Literal "jobs"; Literal "list"] ListJobs;
   mkRoute DELETE
     [Literal "api"; Literal "v1"; Literal "jobs"; Capture "jobId"]
     DeleteJob;
   mkRoute GET [Literal "api"; Literal "v1"; Literal "stats"] StatsReport;
   mkRoute GET [] MainPage].

Definition lower (a : Ascii.ascii) : Ascii.ascii :=
  let n := Ascii.nat_of_ascii a in
  if (65 <=? n)%nat && (n <=? 90)%nat then Ascii.ascii_of_nat (n + 32) else a.

Fixpoint lower_case (s : string) : string :=
  match s with
  | EmptyString => EmptyString
  | String a rest => String (lower a) (lower_case rest)
  end.

(** Whether a segment of a path matches a segment of a route: a literal
    whatever the case of the letters, a parameter when the segment is not
    empty. *)
Definition segment_matches (p : segment) (x : string) : bool :=
  match p with
  | Literal l => String.eqb (lower_case l) (lower_case x)
  | Capture _ => negb (String.eqb x "")
  end.

(** The values of the parameters when the path matches the pattern. *)
Fixpoint match_path (pattern : list segment) (path : list string)
    : option (list string) :=
  match pattern, path with
  | [], [] => Some []
  | p :: pattern', x :: path' =>
      if segment_matches p x then
        match p with
        | Literal _ => match_path pattern' path'
        | Capture _ => cons x <$> match_path pattern' path'
        end
      else None
  | _, _ => None
  end.

Fixpoint find_route (rs : list route) (m : method) (path : list string)
    : option (handler * list string) :=
  match rs with
  | [] => None
  | r :: rs' =>
      if bool_decide (route_method r = m) then
        match match_path (route_path r) path with
        | Some params => Some (route_handler r, params)
        | None => find_route rs' m path
        end
      else find_route rs' m path
  end.

Record request := mkRequest {
  req_method : method;
  req_path : list string;
  req_query : gmap string string;
  req_body : gmap string js_value
}.

(** What the handling of one request reads from outside the registry:
    whether the static middleware finds a file for a path, the readings
    of the submit handler, [process.uptime()] and the clock. *)
Record readings := mkReadings {
  served : list string → bool;
  submit_readings : submit_env;
  process_uptime : Q;
  clock : Z
}.

Inductive response :=
| StaticFile (path : list string)
| HealthAnswer (timestamp : Z)
| SubmitAnswer (r : reply Job)
| GetAnswer (r : reply Job)
| ListAnswer (b : list_body)
| DeleteAnswer (r : reply delete_body)
| StatsAnswer (b : stats_body)
| MainPageFile
| EndpointNotFound.

(** [req.params.jobId] *)
Definition jobId_param (params : list string) : string :=
  default "" (head params).

Definition handle (e : readings) (s : server) (req : request)
    : server * response :=
  if bool_decide (req_method req = GET) && served e (req_path req)
  then (s, StaticFile (req_path req))
  else
    match find_route routes (req_method req) (req_path req) with
    | Some (HealthCheck, _) => (s, HealthAnswer (clock e))
    | Some (SubmitJob, _) =>
        let '(s', r) := submit s (req_body req) (submit_readings e) in
        (s', SubmitAnswer r)
    | Some (GetJob, params) => (s, GetAnswer (get_job s (jobId_param params)))
    | Some (ListJobs, _) => (s, ListAnswer (list_jobs s (req_query req)))
    | Some (DeleteJob, params) =>
        let '(s', r) := delete_job s (jobId_param params) in
        (s', DeleteAnswer r)
    | Some (StatsReport, _) =>
        (s, StatsAnswer (stats s (process_uptime e) (clock e)))
    | Some (MainPage, _) => (s, MainPageFile)
    | None => (s, EndpointNotFound)
    end.

(** The path of the list endpoint, and a sample of the readings with no
    static file. *)
Definition list_path : list string := ["api"; "v1"; "jobs"; "list"].

Definition sample_readings : readings :=
  {| served := λ _, false; submit_readings := sample_env;
     process_uptime := 12; clock := 1700000009000 |}.

Definition list_request (query : gmap string string) : request :=
  mkRequest GET list_path query ∅.

(** ** What a response shows of the results *)


(** ** Sample runs with a shared id and with an inherited name as toolkit *)

(** Two submissions with the same id; the first is started and then
    cancelled. *)
Definition twin_started : server :=
  run initial [EvSubmit sample_body sample_env; EvSubmit sample_body sample_env;
               EvTimeout 0 1700000002000].

(** What follows the cancellation: the start timer of the second
    submission fires, then the periodic timer it registered. *)
Definition twin_restart : list event :=
  [EvTimeout 1 1700000002001; EvInterval 3 (1 # 2) 1700000003001].




(** A job whose toolkit has no property key, ticked until its progress
    reaches 100. *)
Definition throwing_body : gmap string js_value :=
  {[ "toolkit" := JObj [("toString", JNum 1)]; "config" := JObj [] ]}.

Definition throwing_run : list event :=
  [EvSubmit throwing_body sample_env; EvTimeout 0 1700000002000;
   EvInterval 1 (9 # 10) 1700000003000; EvInterval 1 (9 # 10) 1700000004000;
   EvInterval 1 (9 # 10) 1700000005000; EvInterval 1 (9 # 10) 1700000006000;
   EvInterval 1 (9 # 10) 1700000007000; EvInterval 1 (9 # 10) 1700000008000].

(** * Properties *)

(** Case analysis of a step into the handler that runs. *)
Ltac step_cases :=
  unfold transition, delete_job, fire_timeout, start_callback, fire_interval,
    progress_callback in *;
  repeat case_match; simpl in *.

(** A step of a live process is the transition of its event; an ended
    process stays as it is. *)
Ltac step_alive s :=
  unfold step; destruct (alive s) eqn:?; [|try done].

(** ** The embedding on concrete inputs *)

Example make_jobId_sample :
  make_jobId 1700000000000 "0.4fzyo82mvyr" = "job_1700000000000_4fzyo82mv" ∧
  make_jobId 1700000000500 "0.i" = "job_1700000000500_i" ∧
  make_jobId 1700000000500 "0" = "job_1700000000500_".
Proof. by vm_compute. Qed.

Example parseInt_samples :
  parseInt "50" = Some 50%Z ∧ parseInt "  12px" = Some 12%Z ∧
  parseInt "-3" = Some (-3)%Z ∧ parseInt "0x1F" = Some 31%Z ∧
  parseInt "abc" = None ∧ parseInt "" = None ∧ parseInt "-" = None.
Proof. by vm_compute. Qed.

Example slice_samples :
  slice [1; 2; 3]%nat (Some 2%Z) = [1; 2]%nat ∧
  slice [1; 2; 3]%nat (Some 7%Z) = [1; 2; 3]%nat ∧
  slice [1; 2; 3]%nat (Some (-1)%Z) = [1; 2]%nat ∧
  slice [1; 2; 3]%nat None = [].
Proof. by vm_compute. Qed.

Example toFixed_samples :
  toFixed 2 (1 / 3 * 100) = "33.33" ∧ toFixed 2 (2 / 3 * 100) = "66.67" ∧
  toFixed 2 100 = "100.00" ∧ toFixed 2 0 = "0.00" ∧
  toFixed 2 (1 / 32 * 100) = "3.13" ∧ toFixed 0 (5 # 2) = "3".
Proof. by vm_compute. Qed.

Example lifecycle_sample :
  status <$> jobs (run initial [EvSubmit sample_body sample_env])
    = ["queued"] ∧
  status <$> jobs one_running = ["running"] ∧
  status <$> jobs (run initial completed_run) = ["completed"] ∧
  results <$> jobs (run initial completed_run)
    = [Some (ToolkitPayload "structure_prediction")] ∧
  queue_position <$> jobs two_jobs = [1; 2]%nat.
Proof. by vm_compute. Qed.

Example stats_one_of_three :
  total_jobs (stats one_of_three 9 1700000009000) = 3%nat ∧
  completed (stats one_of_three 9 1700000009000) = 1%nat ∧
  queued (stats one_of_three 9 1700000009000) = 2%nat ∧
  success_rate (stats one_of_three 9 1700000009000) = JStr "33.33" ∧
  success_rate (stats initial 0 1700000000000) = JNum 100.
Proof. by vm_compute. Qed.

(** ** Submission *)

Lemma submit_rejected s body e :
  truthy (field body "toolkit") = false ∨ truthy (field body "config") = false →
  submit s body e = (s, Err 400 validation_error).
Proof.
  intros H. unfold submit.
  destruct H as [-> | ->]; simpl; [done|].
  by rewrite orb_true_r.
Qed.

Lemma submit_accepted s body e :
  accepted body = true →
  submit s body e =
    (setTimeout (with_jobs s (jobs s ++ [new_job (jobs s) body e]))
       (mkClosure (make_jobId (now_id e) (random36 e)) (field body "toolkit")),
     Ok 201 (new_job (jobs s) body e)).
Proof.
  unfold accepted, submit. intros [-> ->]%andb_true_iff. done.
Qed.

Lemma submit_cases s body e :
  (accepted body = false ∧ submit s body e = (s, Err 400 validation_error)) ∨
  (accepted body = true ∧
   submit s body e =
     (setTimeout (with_jobs s (jobs s ++ [new_job (jobs s) body e]))
        (mkClosure (make_jobId (now_id e) (random36 e)) (field body "toolkit")),
      Ok 201 (new_job (jobs s) body e))).
Proof.
  destruct (accepted body) eqn:Hacc.
  - right. split; [done|]. by apply submit_accepted.
  - left. split; [done|]. apply submit_rejected.
    unfold accepted in Hacc. apply andb_false_iff in Hacc. done.
Qed.

Lemma field_absent (body : gmap string js_value) k :
  body !! k = None → truthy (field body k) = false.
Proof. unfold field. by intros ->. Qed.

(** C8. A submission in which [toolkit] or [config] is absent is answered
    with status 400 and an error message that mentions the missing field,
    and leaves the whole server state (registry and timers) as it was; a
    submission that is answered with a job appends exactly that job, so the
    registry grows by one. *)
Theorem submit_missing_field_rejected
    (s : server) (body : gmap string js_value) (e : submit_env) :
  (body !! "toolkit" = None ∨ body !! "config" = None →
   ∃ msg, submit s body e = (s, Err 400 msg) ∧
     (body !! "toolkit" = None → mentions msg "toolkit") ∧
     (body !! "config" = None → mentions msg "config")) ∧
  (∀ s' code j, submit s body e = (s', Ok code j) →
     jobs s' = (jobs s ++ [j])%list ∧ length (jobs s') = S (length (jobs s))).
Proof.
  split.
  - intros Habsent. exists validation_error. split.
    + apply submit_rejected.
      destruct Habsent as [H|H]; [left|right]; by apply field_absent.
    + split; intros _.
      * by exists "Missing required fields: ", " and config".
      * by exists "Missing required fields: toolkit and ", "".
  - intros s' code j Hsub.
    destruct (submit_cases s body e) as [[_ Heq]|[_ Heq]];
      rewrite Heq in Hsub; [done|].
    injection Hsub as <- <- <-. simpl. split; [done|].
    rewrite length_app. simpl. lia.
Qed.

Lemma submit_missing_field_rejected_witness :
  ∃ msg, submit one_running {[ "config" := JObj [] ]} sample_env
           = (one_running, Err 400 msg) ∧
     (({[ "config" := JObj [] ]} : gmap string js_value) !! "toolkit" = None
        → mentions msg "toolkit") ∧
     (({[ "config" := JObj [] ]} : gmap string js_value) !! "config" = None
        → mentions msg "config").
Proof.
  apply (proj1 (submit_missing_field_rejected one_running
                  {[ "config" := JObj [] ]} sample_env)).
  left. reflexivity.
Defined.

(** ** Runs *)

Lemma run_snoc s tr ev : run s (tr ++ [ev])%list = step (run s tr) ev.
Proof. unfold run. by rewrite foldl_app. Qed.

Lemma run_app s tr1 tr2 : run s (tr1 ++ tr2)%list = run (run s tr1) tr2.
Proof. unfold run. by rewrite foldl_app. Qed.

(** A property of the initial state that every step preserves holds after
    every run whose random draws are in range. *)
Lemma run_invariant (P : server → Prop) :
  P initial →
  (∀ s ev, P s → random_ok ev → P (step s ev)) →
  ∀ tr, Forall random_ok tr → P (run initial tr).
Proof.
  intros Hinit Hstep tr. induction tr as [|ev tr IH] using rev_ind; [done|].
  intros [Htr Hev]%Forall_app.
  rewrite run_snoc. apply Hstep; [by apply IH|by inversion Hev].
Qed.

Lemma find_job_Some l jobId i j :
  find_job l jobId = Some (i, j) → l !! i = Some j ∧ id j = jobId.
Proof. unfold find_job. intros (? & ? & _)%list_find_Some. done. Qed.

Lemma step_required_fields s ev :
  Forall required_fields_truthy (jobs s) →
  Forall required_fields_truthy (jobs (step s ev)).
Proof.
  intros Hall. step_alive s.
  destruct ev as [body e|jobId|h now|h rnd now].
  - simpl. destruct (submit_cases s body e) as [[_ ->]|[Hacc ->]]; [done|].
    simpl. apply Forall_app. split; [done|]. apply Forall_singleton.
    unfold accepted in Hacc. apply andb_true_iff in Hacc. done.
  - step_cases; try done.
    + apply Forall_insert; [done|].
      match goal with H : find_job _ _ = Some _ |- _ =>
        apply find_job_Some in H as [H _];
        apply (Forall_lookup_1 _ _ _ _ Hall H) end.
    + by apply Forall_delete.
  - step_cases; try done.
    apply Forall_insert; [done|].
    match goal with H : find_job _ _ = Some _ |- _ =>
      apply find_job_Some in H as [H _];
      apply (Forall_lookup_1 _ _ _ _ Hall H) end.
  - step_cases; try done;
      (apply Forall_insert; [done|]);
      match goal with H : find_job _ _ = Some _ |- _ =>
        apply find_job_Some in H as [H _];
        apply (Forall_lookup_1 _ _ _ _ Hall H) end.
Qed.

Lemma run_required_fields tr :
  Forall required_fields_truthy (jobs (run initial tr)).
Proof.
  induction tr as [|ev tr IH] using rev_ind; [by constructor|].
  rewrite run_snoc. by apply step_required_fields.
Qed.

(** C10. The empty string, zero, [false] and [null] are falsy; a submission
    whose [toolkit] or [config] is falsy, although present, gets the same
    400 answer as one where the field is absent and changes nothing; and no
    run of the server ever holds a job whose [toolkit] or [config] is
    falsy. *)
Theorem falsy_fields_rejected :
  Forall (λ v, truthy v = false) falsy_literals ∧
  (∀ s body e,
     truthy (field body "toolkit") = false ∨
     truthy (field body "config") = false →
     submit s body e = (s, Err 400 validation_error) ∧
     submit s body e = submit s ∅ e) ∧
  (∀ tr j, j ∈ jobs (run initial tr) →
     truthy (toolkit j) = true ∧ truthy (config j) = true).
Proof.
  split; [|split].
  - by repeat constructor.
  - intros s body e H. rewrite (submit_rejected s body e H).
    split; [done|]. symmetry. apply submit_rejected. by left.
  - intros tr j Hj.
    apply (proj1 (Forall_forall _ _) (run_required_fields tr) j Hj).
Qed.

Lemma falsy_fields_rejected_witness :
  submit one_running {[ "toolkit" := JStr ""; "config" := JObj [] ]} sample_env
    = (one_running, Err 400 validation_error) ∧
  submit one_running {[ "toolkit" := JStr "x"; "config" := JNum 0 ]} sample_env
    = (one_running, Err 400 validation_error).
Proof.
  destruct falsy_fields_rejected as (_ & Hreject & _).
  split; apply Hreject; [left|right]; reflexivity.
Defined.

(** ** Listing *)

Lemma slice_nonneg {A} (l : list A) (n : Z) :
  (0 ≤ n)%Z → slice l (Some n) = take (Z.to_nat n) l.
Proof.
  intros Hn. unfold slice. simpl.
  destruct (Z.ltb_spec n 0) as [?|_]; [lia|].
  destruct (Z.le_ge_cases n (Z.of_nat (length l))) as [Hle|Hge].
  - by rewrite Z.min_l.
  - rewrite Z.min_r by done. rewrite Nat2Z.id.
    rewrite !take_ge; [done|lia|lia].
Qed.

Lemma slice_NaN {A} (l : list A) : slice l None = [].
Proof. unfold slice. simpl. by destruct l. Qed.

(** ** Stats *)

Lemma nearest_scaled_two_bounds (x : Q) :
  (inject_Z (nearest_scaled 2 x) <= x * 100 + (1 # 2) ∧
   x * 100 + (1 # 2) < inject_Z (nearest_scaled 2 x) + 1)%Q.
Proof.
  unfold nearest_scaled.
  change (inject_Z (10 ^ Z.of_nat 2)) with (100 : Q).
  split; [apply Qfloor_le|].
  pose proof (Qlt_floor (x * 100 + (1 # 2))) as H.
  rewrite inject_Z_plus in H. exact H.
Qed.

Lemma fixed_digits_two_decimals (n : Z) :
  (0 ≤ n ≤ 10000)%Z → fixed_digits 2 n = two_decimals n.
Proof.
  intros Hn.
  assert (Hall : forallb (λ k, String.eqb (fixed_digits 2 (Z.of_nat k))
                                 (two_decimals (Z.of_nat k)))
                   (seq 0 (Z.to_nat 10001)) = true) by (vm_compute; reflexivity).
  rewrite forallb_forall in Hall.
  specialize (Hall (Z.to_nat n)). rewrite Z2Nat.id in Hall by lia.
  apply String.eqb_eq, Hall, in_seq. lia.
Qed.

(** The binary64 operations of this file next to the reference: the
    quotient and the percentage of all counts up to 40, and the case of 23
    completed jobs of 160, where the exact percentage 14.375 is a tie and
    the double lies below it. *)
Example round64_agrees_with_binary64 :
  forallb (λ t,
    forallb (λ c,
      Qeq_bool (round64 (inject_Z c / inject_Z t))
               (ieee_value (ieee_div (ieee_of_Z c) (ieee_of_Z t)))
      && Qeq_bool (round64 (round64 (inject_Z c / inject_Z t) * 100))
                  (ieee_value (ieee_mul (ieee_div (ieee_of_Z c) (ieee_of_Z t))
                                 (ieee_of_Z 100))))
      (Z.of_nat <$> seq 0 (S (Z.to_nat t))))
    (Z.of_nat <$> seq 1 40) = true ∧
  (round64 (round64 (23 / 160) * 100)
   == ieee_value (ieee_mul (ieee_div (ieee_of_Z 23) (ieee_of_Z 160))
                    (ieee_of_Z 100)))%Q ∧
  toFixed 2 (round64 (round64 (23 / 160) * 100)) = "14.37" ∧
  toFixed 2 (23 / 160 * 100) = "14.38".
Proof. by vm_compute. Qed.

(** ** Binary64 rounding *)

Lemma pow2_pos e : (0 < pow2 e)%Q.
Proof. by apply Qpower_0_lt. Qed.

Lemma pow2_add a b : (pow2 (a + b) == pow2 a * pow2 b)%Q.
Proof. by apply Qpower_plus. Qed.

Lemma pow2_le a b : (a ≤ b)%Z → (pow2 a <= pow2 b)%Q.
Proof. intros H. by apply Qpower_le_compat_l. Qed.

Lemma pow2_lt_inv a b : (pow2 a < pow2 b)%Q → (a < b)%Z.
Proof. intros H. by apply (Qpower_lt_compat_l_inv 2). Qed.

Lemma pow2_inject n : (0 ≤ n)%Z → (pow2 n == inject_Z (2 ^ n))%Q.
Proof. intros H. unfold pow2. by rewrite Zpower_Qpower. Qed.

Lemma pow2_sub a b : (pow2 (a - b) == pow2 a / pow2 b)%Q.
Proof.
  unfold pow2. rewrite Qpower_minus; [reflexivity|done].
Qed.

(** The exponent of a positive fraction lies between the difference of the
    bit lengths of its numerator and denominator and one less. *)
Lemma log2_difference_bounds (n : Z) (d : positive) :
  (0 < n)%Z →
  (pow2 (Z.log2 n - Z.log2 (Z.pos d) - 1) < n # d)%Q ∧
  (n # d < pow2 (Z.log2 n - Z.log2 (Z.pos d) + 1))%Q.
Proof.
  intros Hn.
  destruct (Z.log2_spec n Hn) as [Ha1 Ha2].
  destruct (Z.log2_spec (Z.pos d) ltac:(lia)) as [Hb1 Hb2].
  pose proof (Z.log2_nonneg n) as Ha0.
  pose proof (Z.log2_nonneg (Z.pos d)) as Hb0.
  set (a := Z.log2 n) in *. set (b := Z.log2 (Z.pos d)) in *.
  assert (HA : (0 < 2 ^ a)%Z) by lia.
  assert (HB : (0 < 2 ^ b)%Z) by lia.
  rewrite Z.pow_succ_r in Ha2, Hb2 by done.
  replace (a - b - 1)%Z with (a - (b + 1))%Z by lia.
  replace (a - b + 1)%Z with (a + 1 - b)%Z by lia.
  rewrite !pow2_sub, !pow2_inject by lia.
  rewrite !Z.pow_add_r, Z.pow_1_r by lia.
  rewrite <- (Z2Pos.id (2 ^ b * 2)), <- (Z2Pos.id (2 ^ b)) by lia.
  rewrite <- !Qmake_Qdiv. unfold Qlt. cbn [Qnum Qden].
  rewrite !Z2Pos.id by lia. split; nia.
Qed.

Lemma floor_log2_spec (x : Q) :
  (0 < x)%Q →
  (pow2 (floor_log2 x) <= x)%Q ∧ (x < pow2 (floor_log2 x + 1))%Q.
Proof.
  intros Hx. destruct x as [n d].
  assert (Hn : (0 < n)%Z).
  { unfold Qlt in Hx. simpl in Hx. lia. }
  destruct (log2_difference_bounds n d Hn) as [Hlo Hhi].
  unfold floor_log2. cbn [Qnum Qden].
  destruct (Qle_bool (pow2 (Z.log2 n - Z.log2 (Z.pos d))) (n # d)) eqn:Hle.
  - split; [by apply Qle_bool_iff|done].
  - split; [by apply Qlt_le_weak|].
    replace (Z.log2 n - Z.log2 (Z.pos d) - 1 + 1)%Z
      with (Z.log2 n - Z.log2 (Z.pos d))%Z by lia.
    apply Qnot_le_lt. intros H%Qle_bool_iff. congruence.
Qed.

Lemma floor_log2_unique (x : Q) (e : Z) :
  (pow2 e <= x)%Q → (x < pow2 (e + 1))%Q → floor_log2 x = e.
Proof.
  intros Hlo Hhi.
  assert (Hx : (0 < x)%Q) by (eapply Qlt_le_trans; [apply pow2_pos|done]).
  destruct (floor_log2_spec x Hx) as [Hlo' Hhi'].
  assert (floor_log2 x < e + 1)%Z.
  { apply pow2_lt_inv. eapply Qle_lt_trans; done. }
  assert (e < floor_log2 x + 1)%Z.
  { apply pow2_lt_inv. eapply Qle_lt_trans; done. }
  lia.
Qed.

Lemma floor_log2_compat (x y : Q) :
  (0 < x)%Q → (x == y)%Q → floor_log2 x = floor_log2 y.
Proof.
  intros Hx Hxy. destruct (floor_log2_spec x Hx) as [Hlo Hhi].
  symmetry. apply floor_log2_unique.
  - eapply Qle_trans; [exact Hlo|]. rewrite Hxy. apply Qle_refl.
  - eapply Qle_lt_trans; [|exact Hhi]. rewrite Hxy. apply Qle_refl.
Qed.

Lemma nearest_even_compat (m m' : Q) :
  (m == m')%Q → nearest_even m = nearest_even m'.
Proof.
  intros H. unfold nearest_even. rewrite <- (Qfloor_comp _ _ H).
  assert (Hc : (m - inject_Z (Qfloor m) ?= 1 # 2)%Q
               = (m' - inject_Z (Qfloor m) ?= 1 # 2)%Q).
  { apply Qcompare_comp; [|reflexivity].
    apply Qplus_comp; [done|reflexivity]. }
  by rewrite Hc.
Qed.

Lemma nearest_even_spec (m : Q) :
  (Qabs (inject_Z (nearest_even m) - m) <= 1 # 2)%Q.
Proof.
  pose proof (Qfloor_le m) as Hlo. pose proof (Qlt_floor m) as Hhi.
  rewrite inject_Z_plus in Hhi. change (inject_Z 1) with 1%Q in Hhi.
  unfold nearest_even.
  destruct (Qcompare_spec (m - inject_Z (Qfloor m)) (1 # 2)) as [He|Hl|Hg].
  - destruct (Z.even (Qfloor m));
      rewrite ?inject_Z_plus; change (inject_Z 1) with 1%Q;
      apply Qabs_Qle_condition; split; lra.
  - apply Qabs_Qle_condition; split; lra.
  - rewrite inject_Z_plus. change (inject_Z 1) with 1%Q.
    apply Qabs_Qle_condition; split; lra.
Qed.

Lemma nearest_even_nonneg (m : Q) : (0 <= m)%Q → (0 ≤ nearest_even m)%Z.
Proof.
  intros Hm.
  assert (0 ≤ Qfloor m)%Z.
  { change 0%Z with (Qfloor 0). by apply Qfloor_resp_le. }
  unfold nearest_even.
  destruct (_ ?= _)%Q; [destruct (Z.even _)|..]; lia.
Qed.

Lemma round64_pos_compat (x y : Q) :
  (0 < x)%Q → (x == y)%Q → (round64_pos x == round64_pos y)%Q.
Proof.
  intros Hx Hxy. unfold round64_pos.
  rewrite <- (floor_log2_compat x y Hx Hxy).
  set (P := pow2 (Z.max (floor_log2 x) (-1022) - 52)).
  rewrite (nearest_even_compat (x / P) (y / P)); [reflexivity|].
  apply Qmult_comp; [done|reflexivity].
Qed.

Lemma round64_compat (x y : Q) : (x == y)%Q → (round64 x == round64 y)%Q.
Proof.
  intros Hxy. unfold round64.
  assert (Hc : (x ?= 0)%Q = (y ?= 0)%Q)
    by (apply Qcompare_comp; [done|reflexivity]).
  rewrite <- Hc.
  destruct (Qcompare_spec x 0) as [He|Hl|Hg].
  - reflexivity.
  - apply Qopp_comp. apply round64_pos_compat; [lra|by apply Qopp_comp].
  - by apply round64_pos_compat.
Qed.

(** The rounding error of a positive number in the normal range is at most
    half a unit in the last place. *)
Lemma round64_error (x : Q) :
  (pow2 (-1022) <= x)%Q →
  (Qabs (round64 x - x) <= x * pow2 (-53))%Q.
Proof.
  intros Hnormal.
  assert (Hx : (0 < x)%Q) by (eapply Qlt_le_trans; [apply pow2_pos|done]).
  unfold round64.
  destruct (Qcompare_spec x 0) as [He|Hl|_]; [lra..|].
  destruct (floor_log2_spec x Hx) as [Hlo Hhi].
  assert (He : (-1022 < floor_log2 x + 1)%Z).
  { apply pow2_lt_inv. eapply Qle_lt_trans; done. }
  unfold round64_pos. rewrite Z.max_l by lia.
  set (e := floor_log2 x) in *.
  pose proof (pow2_pos (e - 52)) as HP.
  pose proof (nearest_even_spec (x / pow2 (e - 52))) as Hnear.
  set (k := inject_Z (nearest_even (x / pow2 (e - 52)))) in *.
  assert (Hsplit : (pow2 e == pow2 (e - 52) * pow2 52)%Q).
  { rewrite <- pow2_add. by replace (e - 52 + 52)%Z with e by lia. }
  change (pow2 52) with (inject_Z (2 ^ 52)) in Hsplit.
  change (pow2 (-53)) with (1 # 9007199254740992)%Q.
  set (P := pow2 (e - 52)) in *.
  assert (Hm : (x == x / P * P)%Q) by (field; lra).
  apply Qabs_Qle_condition in Hnear as [Hn1 Hn2].
  set (m := (x / P)%Q) in *.
  assert (Hmlo : (inject_Z (2 ^ 52) <= m)%Q).
  { unfold m. apply Qle_shift_div_l; [done|].
    rewrite Qmult_comm, <- Hsplit. done. }
  change (inject_Z (2 ^ 52)) with 4503599627370496%Q in Hmlo.
  apply Qabs_Qle_condition. rewrite Hm. split.
  - apply Qle_minus_iff.
    setoid_replace (k * P - m * P + - - (m * P * (1 # 9007199254740992)))%Q
      with ((k - m + m * (1 # 9007199254740992)) * P)%Q
      using relation Qeq by ring.
    apply Qmult_le_0_compat; lra.
  - apply Qle_minus_iff.
    setoid_replace (m * P * (1 # 9007199254740992) + - (k * P - m * P))%Q
      with ((m * (1 # 9007199254740992) - (k - m)) * P)%Q
      using relation Qeq by ring.
    apply Qmult_le_0_compat; lra.
Qed.

Lemma round64_nonneg (x : Q) : (0 <= x)%Q → (0 <= round64 x)%Q.
Proof.
  intros Hx. unfold round64.
  destruct (Qcompare_spec x 0) as [He|Hl|Hg]; [lra..|].
  unfold round64_pos. apply Qmult_le_0_compat.
  - change 0%Q with (inject_Z 0). rewrite <- Zle_Qle.
    apply nearest_even_nonneg. apply Qle_shift_div_l; [apply pow2_pos|lra].
  - apply Qlt_le_weak, pow2_pos.
Qed.

(** In general the error is at most half a unit in the last place of a
    normal number or half the smallest subnormal one. *)
Lemma round64_error_any (x : Q) :
  (0 <= x)%Q →
  (Qabs (round64 x - x) <= x * pow2 (-53) + pow2 (-1075))%Q.
Proof.
  intros Hx0.
  pose proof (pow2_pos (-1075)) as Hv. pose proof (pow2_pos (-53)) as Hu.
  destruct (Qlt_le_dec 0 x) as [Hx|Hx]; cycle 1.
  { assert (Hz : (x == 0)%Q) by lra.
    rewrite (round64_compat x 0 Hz), Hz. change (round64 0) with 0%Q.
    apply Qabs_Qle_condition. split; lra. }
  destruct (Z.le_gt_cases (-1022) (floor_log2 x)) as [Hnormal|Hsub].
  { destruct (floor_log2_spec x Hx) as [Hlo _].
    pose proof (pow2_le _ _ Hnormal) as Hle.
    pose proof (round64_error x ltac:(lra)) as [H1 H2]%Qabs_Qle_condition.
    apply Qabs_Qle_condition. split; lra. }
  unfold round64.
  destruct (Qcompare_spec x 0) as [He|Hl|_]; [lra..|].
  unfold round64_pos. rewrite Z.max_r by lia.
  change (-1022 - 52)%Z with (-1074)%Z.
  pose proof (pow2_pos (-1074)) as HP.
  pose proof (nearest_even_spec (x / pow2 (-1074))) as Hnear.
  set (k := inject_Z (nearest_even (x / pow2 (-1074)))) in *.
  assert (Hhalf : (pow2 (-1075) == pow2 (-1074) * (1 # 2))%Q).
  { change (-1075)%Z with (-1074 + -1)%Z. by rewrite pow2_add. }
  set (P := pow2 (-1074)) in *. set (v := pow2 (-1075)) in *.
  set (u := pow2 (-53)) in *.
  assert (Hm : (x == x / P * P)%Q) by (field; lra).
  apply Qabs_Qle_condition in Hnear as [Hn1 Hn2].
  set (m := (x / P)%Q) in *.
  assert (Hmu : (0 <= m * P * u)%Q).
  { rewrite <- Hm. apply Qmult_le_0_compat; lra. }
  apply Qabs_Qle_condition. rewrite Hm, Hhalf.
  clearbody k m P u v. split; nra.
Qed.

(** ** The success rate *)

(** A hundredth [n / 100] that is within half a hundredth, and a little
    more, of a ratio of two integers whose denominator is below 2^32, is
    within half a hundredth of it: the multiples of [1 / t] are too far
    apart for anything between. *)
Lemma hundredths_gap (n c t : Z) (rho : Q) :
  (0 < t < 2 ^ 32)%Z →
  (rho * inject_Z t == inject_Z c)%Q →
  (Qabs (inject_Z n - 10000 * rho) <= (1 # 2) + (1 # 2 ^ 34))%Q →
  (Qabs (inject_Z n - 10000 * rho) <= 1 # 2)%Q.
Proof.
  intros [Ht0 Ht1] Hrho [Hlo Hhi]%Qabs_Qle_condition.
  assert (HT0 : (0 < inject_Z t)%Q) by (by rewrite <- (Zlt_Qlt 0)).
  assert (HT1 : (inject_Z t < inject_Z (2 ^ 32))%Q) by (by rewrite <- Zlt_Qlt).
  change (inject_Z (2 ^ 32)) with 4294967296%Q in HT1.
  change (1 # 2 ^ 34)%Q with (1 # 17179869184)%Q in *.
  assert (HM : (inject_Z (2 * (n * t - 10000 * c))
                == 2 * ((inject_Z n - 10000 * rho) * inject_Z t))%Q).
  { unfold Z.sub.
    rewrite !inject_Z_mult, inject_Z_plus, inject_Z_opp, !inject_Z_mult,
      <- Hrho.
    change (inject_Z 2) with 2%Q. change (inject_Z 10000) with 10000%Q.
    ring. }
  set (T := inject_Z t) in *. set (D := (inject_Z n - 10000 * rho)%Q) in *.
  assert (Hup : (2 * (n * t - 10000 * c) < t + 1)%Z).
  { rewrite Zlt_Qlt, HM, inject_Z_plus. fold T.
    change (inject_Z 1) with 1%Q. clearbody T D. nra. }
  assert (Hdown : (- (t + 1) < 2 * (n * t - 10000 * c))%Z).
  { rewrite Zlt_Qlt, HM, inject_Z_opp, inject_Z_plus. fold T.
    change (inject_Z 1) with 1%Q. clearbody T D. nra. }
  assert (Hup' : (inject_Z (2 * (n * t - 10000 * c)) <= T)%Q).
  { unfold T. rewrite <- Zle_Qle. lia. }
  assert (Hdown' : (- T <= inject_Z (2 * (n * t - 10000 * c)))%Q).
  { unfold T. rewrite <- inject_Z_opp, <- Zle_Qle. lia. }
  rewrite HM in Hup', Hdown'.
  apply Qabs_Qle_condition. clearbody T D. split; nra.
Qed.

(** The binary64 quotient of two counts, times 100 in binary64, shown with
    two decimals, is within half a hundredth, and 2^-40, of the exact
    percentage; when the denominator is below 2^32 it is a hundredth
    nearest to it. *)
Lemma binary64_rate (c t : nat) :
  (0 < t)%nat → (c ≤ t)%nat →
  (0 <= round64 (round64 (Q_of_nat c / Q_of_nat t) * 100))%Q ∧
  (0 ≤ nearest_scaled 2 (round64 (round64 (Q_of_nat c / Q_of_nat t) * 100))
     ≤ 10000)%Z ∧
  (Qabs (inject_Z (nearest_scaled 2
                     (round64 (round64 (Q_of_nat c / Q_of_nat t) * 100)))
           / 100
         - Q_of_nat c / Q_of_nat t * 100) <= (1 # 200) + (1 # 2 ^ 40))%Q ∧
  ((Z.of_nat t < 2 ^ 32)%Z →
   (Qabs (inject_Z (nearest_scaled 2
                      (round64 (round64 (Q_of_nat c / Q_of_nat t) * 100)))
            / 100
          - Q_of_nat c / Q_of_nat t * 100) <= 1 # 200)%Q).
Proof.
  intros Ht Hct.
  assert (HT0 : (0 < Q_of_nat t)%Q).
  { unfold Q_of_nat. rewrite <- (Zlt_Qlt 0). lia. }
  assert (HC0 : (0 <= Q_of_nat c)%Q).
  { unfold Q_of_nat. rewrite <- (Zle_Qle 0). lia. }
  assert (HCT : (Q_of_nat c <= Q_of_nat t)%Q).
  { unfold Q_of_nat. rewrite <- Zle_Qle. lia. }
  set (rho := (Q_of_nat c / Q_of_nat t)%Q).
  assert (Hrho : (rho * Q_of_nat t == Q_of_nat c)%Q).
  { unfold rho. field. lra. }
  assert (Hrho0 : (0 <= rho)%Q).
  { unfold rho. apply Qle_shift_div_l; [done|]. lra. }
  assert (Hrho1 : (rho <= 1)%Q).
  { unfold rho. apply Qle_shift_div_r; [done|]. lra. }
  set (y := round64 rho). set (r := round64 (y * 100)).
  pose proof (round64_nonneg rho Hrho0) as Hy0. fold y in Hy0.
  assert (Hr0 : (0 <= r)%Q) by (apply round64_nonneg; lra).
  (* the error of the two operations *)
  assert (Herr : (Qabs (r - 100 * rho) <= 1 # 2 ^ 42)%Q).
  { pose proof (pow2_pos (-1075)) as Hv0.
    pose proof (pow2_le (-1075) (-60) ltac:(lia)) as Hv1.
    change (pow2 (-60)) with (1 # 1152921504606846976)%Q in Hv1.
    pose proof (round64_error_any rho Hrho0) as Hy. fold y in Hy.
    pose proof (round64_error_any (y * 100) ltac:(lra)) as Hr. fold r in Hr.
    change (pow2 (-53)) with (1 # 9007199254740992)%Q in Hy, Hr.
    apply Qabs_Qle_condition in Hy as [Hy1 Hy2].
    apply Qabs_Qle_condition in Hr as [Hr1 Hr2].
    change (1 # 2 ^ 42)%Q with (1 # 4398046511104)%Q.
    set (v := pow2 (-1075)) in *.
    apply Qabs_Qle_condition. clearbody y r rho v. split; lra. }
  change (1 # 2 ^ 42)%Q with (1 # 4398046511104)%Q in Herr.
  apply Qabs_Qle_condition in Herr as [He1 He2].
  destruct (nearest_scaled_two_bounds r) as [Hn1 Hn2].
  set (n := nearest_scaled 2 r) in *.
  split; [done|]. split; [|split].
  - split.
    + cut (-1 < n)%Z; [lia|]. rewrite Zlt_Qlt.
      change (inject_Z (-1)) with (-1)%Q. clearbody n r rho. lra.
    + cut (n < 10001)%Z; [lia|]. rewrite Zlt_Qlt.
      change (inject_Z 10001) with 10001%Q. clearbody n r rho. lra.
  - change (1 # 2 ^ 40)%Q with (1 # 1099511627776)%Q.
    apply Qabs_Qle_condition. unfold Qdiv.
    change (/ 100)%Q with (1 # 100)%Q. clearbody n r rho. split; lra.
  - intros Hsmall.
    assert (Hnear : (Qabs (inject_Z n - 10000 * rho) <= 1 # 2)%Q).
    { apply (hundredths_gap n (Z.of_nat c) (Z.of_nat t)); [lia|done|].
      change (1 # 2 ^ 34)%Q with (1 # 17179869184)%Q.
      apply Qabs_Qle_condition. clearbody n r rho. split; lra. }
    apply Qabs_Qle_condition in Hnear as [Hnear1 Hnear2].
    apply Qabs_Qle_condition. unfold Qdiv.
    change (/ 100)%Q with (1 # 100)%Q. clearbody n r rho. split; lra.
Qed.

(** C9. Stats reports the registry size as [total_jobs] and the number of
    completed jobs as [completed]: the registry splits into jobs that are
    all completed and jobs none of which is, and [completed] counts the
    first.  On an empty registry it reports 0 jobs and the number 100 as
    success rate.  On a non-empty one the success rate is the two-decimal
    notation of a hundredth [n / 100]; quotient and product are rounded to
    binary64 first, and still [n / 100] is within half a hundredth, and
    2^-40, of completed / total * 100, and when the registry has fewer than
    2^32 jobs, which is as many as an array holds, it is a hundredth
    nearest to that percentage. *)
Theorem stats_success_rate (s : server) (up : Q) (now : Z) :
  total_jobs (stats s up now) = length (jobs s) ∧
  ∃ finished others,
    jobs s ≡ₚ finished ++ others ∧
    Forall (λ j, status j = "completed") finished ∧
    Forall (λ j, status j ≠ "completed") others ∧
    completed (stats s up now) = length finished ∧
    (jobs s = [] →
       total_jobs (stats s up now) = 0 ∧
       success_rate (stats s up now) = JNum 100) ∧
    (jobs s ≠ [] →
       ∃ n : Z,
         success_rate (stats s up now) = JStr (two_decimals n) ∧
         (0 ≤ n ≤ 10000)%Z ∧
         (Qabs (inject_Z n / 100
                - Q_of_nat (length finished) / Q_of_nat (length (jobs s)) * 100)
            <= (1 # 200) + (1 # 2 ^ 40))%Q ∧
         ((Z.of_nat (length (jobs s)) < 2 ^ 32)%Z →
          (Qabs (inject_Z n / 100
                 - Q_of_nat (length finished) / Q_of_nat (length (jobs s))
                   * 100)
             <= 1 # 200)%Q)).
Proof.
  split; [done|].
  exists (filter (λ j, status j = "completed") (jobs s)),
         (filter (λ j, ¬ status j = "completed") (jobs s)).
  split_and!.
  - symmetry. apply filter_app_complement.
  - apply Forall_forall. by intros j [? _]%list_elem_of_filter.
  - apply Forall_forall. by intros j [? _]%list_elem_of_filter.
  - done.
  - intros Hempty. unfold stats. rewrite Hempty. done.
  - intros Hne.
    assert (Hlen : (0 < length (jobs s))%nat).
    { destruct (jobs s); [done|simpl; lia]. }
    fold (count_status (jobs s) "completed").
    change (success_rate (stats s up now))
      with (if (0 <? length (jobs s))%nat
            then JStr (toFixed 2
                   (round64
                      (round64 (Q_of_nat (count_status (jobs s) "completed")
                                / Q_of_nat (length (jobs s)))
                       * 100)))
            else JNum 100).
    destruct (Nat.ltb_spec 0 (length (jobs s))) as [_|?]; [|lia].
    set (c := count_status (jobs s) "completed").
    set (t := length (jobs s)) in *.
    assert (Hct : (c ≤ t)%nat) by apply length_filter.
    destruct (binary64_rate c t Hlen Hct) as (Hsign & Hrange & Hnear & Hexact).
    exists (nearest_scaled 2
              (round64 (round64 (Q_of_nat c / Q_of_nat t) * 100))).
    split_and!; [|lia|lia|done|done].
    unfold toFixed. apply Qle_bool_iff in Hsign. rewrite Hsign.
    by rewrite fixed_digits_two_decimals.
Qed.

Lemma stats_success_rate_witness :
  ∃ n : Z,
    success_rate (stats one_of_three 9 1700000009000)
      = JStr (two_decimals n) ∧
    (0 ≤ n ≤ 10000)%Z ∧
    (Qabs (inject_Z n / 100 - Q_of_nat 1 / Q_of_nat 3 * 100) <= 1 # 200)%Q.
Proof.
  destruct (stats_success_rate one_of_three 9 1700000009000)
    as (_ & finished & others & Hperm & Hfin & Hoth & Hcount & _ & Hrate).
  assert (Hone : length finished = 1%nat) by (by rewrite <- Hcount).
  rewrite Hone in Hrate.
  destruct Hrate as (n & Htext & Hrange & _ & Hexact).
  { vm_compute. discriminate. }
  exists n. split_and!; [done|lia|lia|].
  apply Hexact. vm_compute. reflexivity.
Defined.

(** ** The progress tick *)

(** What one firing of a periodic timer does to the registry: nothing, or
    one write to the running job its closure finds. *)
Lemma fire_interval_jobs s h rnd now :
  jobs (fire_interval s h rnd now) = jobs s ∨
  ∃ c i0 j0 j1,
    intervals s !! h = Some c ∧
    find_job (jobs s) (c_jobId c) = Some (i0, j0) ∧
    status j0 = "running" ∧
    jobs (fire_interval s h rnd now) = <[i0 := j1]> (jobs s) ∧
    id j1 = id j0 ∧ toolkit j1 = toolkit j0 ∧ config j1 = config j0 ∧
    progress j1 = Qmin (progress j0 + rnd * 20) 100 ∧
    ((status j1 = "running" ∧ results j1 = results j0 ∧
      Qle_bool 100 (progress j1) = false) ∨
     (status j1 = "completed" ∧
      results j1 = Some (generateMockResults (c_toolkit c)) ∧
      Qle_bool 100 (progress j1) = true)).
Proof.
  unfold fire_interval.
  destruct (intervals s !! h) as [c|] eqn:Hc; [|by left].
  unfold progress_callback.
  destruct (find_job (jobs s) (c_jobId c)) as [[i0 j0]|] eqn:Hfind; [|by left].
  destruct (String.eqb (status j0) "running") eqn:Hst; [|by left].
  apply String.eqb_eq in Hst.
  destruct (Qle_bool 100 (Qmin (progress j0 + rnd * 20) 100)) eqn:Hdone.
  - destruct (generateMockResults (c_toolkit c)) eqn:Hgen; [idtac..|by left];
      right; eexists c, i0, j0, _; split_and!; try done;
      right; by rewrite Hgen.
  - right. eexists c, i0, j0, _. split_and!; try done. by left.
Qed.

Lemma tick_progress_step (p rnd : Q) :
  (p <= 100)%Q → (0 <= rnd)%Q → (rnd < 1)%Q →
  (p <= Qmin (p + rnd * 20) 100)%Q ∧
  (Qmin (p + rnd * 20) 100 <= p + 20)%Q ∧
  (Qmin (p + rnd * 20) 100 <= 100)%Q.
Proof.
  intros Hp H0 H1.
  destruct (Q.min_spec (p + rnd * 20) 100) as [[Hlt Heq]|[Hle Heq]];
    rewrite Heq; split_and!; lra.
Qed.

Lemma step_progress_in_range s ev :
  Forall progress_in_range (jobs s) → random_ok ev →
  Forall progress_in_range (jobs (step s ev)).
Proof.
  intros Hall Hrnd. step_alive s.
  destruct ev as [body e|jobId|h now|h rnd now].
  - simpl. destruct (submit_cases s body e) as [[_ ->]|[_ ->]]; [done|].
    simpl. apply Forall_app. split; [done|]. apply Forall_singleton.
    split; simpl; lra.
  - step_cases; try done.
    + apply Forall_insert; [done|].
      match goal with H : find_job _ _ = Some _ |- _ =>
        apply find_job_Some in H as [H _];
        apply (Forall_lookup_1 _ _ _ _ Hall H) end.
    + by apply Forall_delete.
  - step_cases; try done.
    apply Forall_insert; [done|].
    match goal with H : find_job _ _ = Some _ |- _ =>
      apply find_job_Some in H as [H _];
      apply (Forall_lookup_1 _ _ _ _ Hall H) end.
  - simpl in *. destruct Hrnd as [H0 H1].
    destruct (fire_interval_jobs s h rnd now)
      as [->|(c & i0 & j0 & j1 & _ & Hfind & _ & -> & _ & _ & _ & Hp & _)];
      [done|].
    apply Forall_insert; [done|].
    apply find_job_Some in Hfind as [Hfind _].
    destruct (Forall_lookup_1 _ _ _ _ Hall Hfind) as [Hlo Hhi].
    destruct (tick_progress_step (progress j0) rnd Hhi H0 H1) as (? & ? & ?).
    split; rewrite Hp; lra.
Qed.

Lemma run_progress_in_range tr :
  Forall random_ok tr → Forall progress_in_range (jobs (run initial tr)).
Proof.
  apply (run_invariant (λ s, Forall progress_in_range (jobs s))).
  - by constructor.
  - apply step_progress_in_range.
Qed.

(** C6. In a state the server can reach, a tick leaves every job in its
    place in the registry, and for each of them the progress after the tick
    is at least the progress before it, at most 20 more, and at most 100. *)
Theorem tick_progress_monotone_bounded
    (tr : list event) (h : nat) (rnd : Q) (now : Z) (i : nat) (j : Job) :
  Forall random_ok tr →
  (0 <= rnd)%Q → (rnd < 1)%Q →
  jobs (run initial tr) !! i = Some j →
  ∃ j', jobs (fire_interval (run initial tr) h rnd now) !! i = Some j' ∧
        id j' = id j ∧
        (progress j <= progress j')%Q ∧
        (progress j' <= progress j + 20)%Q ∧
        (progress j' <= 100)%Q.
Proof.
  intros Htr H0 H1 Hi.
  pose proof (run_progress_in_range tr Htr) as Hall.
  destruct (Forall_lookup_1 _ _ _ _ Hall Hi) as [Hlo Hhi].
  destruct (fire_interval_jobs (run initial tr) h rnd now)
    as [->|(c & i0 & j0 & j1 & _ & Hfind & _ & -> & Hid & _ & _ & Hp & _)].
  { exists j. split_and!; [done|done|lra..]. }
  apply find_job_Some in Hfind as [Hfind _].
  destruct (decide (i = i0)) as [->|Hne].
  - assert (j0 = j) as -> by congruence.
    exists j1. rewrite list_lookup_insert_eq by eauto using lookup_lt_Some.
    destruct (tick_progress_step (progress j) rnd Hhi H0 H1) as (? & ? & ?).
    split_and!; [done|done|rewrite Hp; lra..].
  - exists j. rewrite list_lookup_insert_ne by done.
    split_and!; [done|done|lra..].
Qed.

Lemma tick_progress_monotone_bounded_witness :
  ∃ j', jobs (fire_interval one_running 1 (3 # 4) 1700000003000) !! 0%nat
          = Some j' ∧
        id j' = sample_jobId ∧
        (0 <= progress j')%Q ∧ (progress j' <= 0 + 20)%Q ∧
        (progress j' <= 100)%Q.
Proof.
  apply (tick_progress_monotone_bounded
           [EvSubmit sample_body sample_env; EvTimeout 0 1700000002000]
           1 (3 # 4) 1700000003000 0
           (set_started_at
              (set_status (new_job [] sample_body sample_env) "running")
              1700000002000)).
  - repeat constructor.
  - lra.
  - lra.
  - reflexivity.
Defined.

(** ** The lifecycle invariant *)

Lemma find_job_insert_same_id (l : list Job) (i0 : nat) j0 j1 jobId :
  l !! i0 = Some j0 → id j1 = id j0 →
  find_job (<[i0 := j1]> l) jobId
    = (λ p, (p.1, if decide (p.1 = i0) then j1 else p.2)) <$> find_job l jobId.
Proof.
  unfold find_job. revert i0.
  induction l as [|a l IH]; intros i0 Hi0 Hid; [done|].
  destruct i0 as [|i0]; simpl in *.
  - injection Hi0 as ->. rewrite Hid.
    destruct (decide (id j0 = jobId)); simpl; [done|].
    destruct (list_find _ l) as [[k y]|]; simpl; [|done].
    by destruct (decide (S k = 0)).
  - destruct (decide (id a = jobId)); simpl; [done|].
    rewrite (IH i0 Hi0 Hid).
    destruct (list_find _ l) as [[k y]|]; simpl; [|done].
    destruct (decide (k = i0)), (decide (S k = S i0)); try done; lia.
Qed.

Lemma nodup_ids_insert (l : list Job) (i0 : nat) j0 j1 :
  l !! i0 = Some j0 → id j1 = id j0 →
  id <$> <[i0 := j1]> l = id <$> l.
Proof.
  intros Hi0 Hid. rewrite list_fmap_insert, Hid.
  apply list_insert_id. by rewrite list_lookup_fmap, Hi0.
Qed.

Lemma nodup_ids_delete (l : list Job) (i0 : nat) :
  NoDup (id <$> l) → NoDup (id <$> delete i0 l).
Proof.
  intros Hnd. rewrite list_fmap_delete.
  eapply sublist_NoDup; [done|apply sublist_delete].
Qed.



Lemma job_phase_started T j :
  job_phase T j → status j = "running" →
  results j = None ∧ no_pending_start T (id j).
Proof.
  intros [[Hst _]|[[_ ?]|[Hst _]]] Hrun; [|done|]; rewrite Hrun in Hst; done.
Qed.


Lemma job_phase_timeouts_mono T T' j :
  (no_pending_start T (id j) → no_pending_start T' (id j)) →
  job_phase T j → job_phase T' j.
Proof.
  intros Hmono [?|[(? & ? & ?)|(? & ? & ?)]]; [by left|right; left|right; right];
    split_and!; auto.
Qed.

Lemma lifecycle_inv_initial : lifecycle_inv [] initial.
Proof. split; simpl; try done; constructor. Qed.

Lemma lifecycle_inv_weaken ids ids' s :
  ids ⊆ ids' → lifecycle_inv ids s → lifecycle_inv ids' s.
Proof.
  intros Hsub [H1 H2 H3 H4 H5]. split; try done.
  - eapply Forall_impl; [exact H1|]. intros j Hj. simpl in *. set_solver.
  - intros h c Hc. specialize (H2 h c Hc). set_solver.
Qed.
Lemma fire_interval_timeouts s h rnd now :
  timeouts (fire_interval s h rnd now) = timeouts s.
Proof. step_cases; done. Qed.

(** Each handler and each callback preserves the invariant. *)
Section lifecycle_steps.
Context (ids : list string) (s : server).
Hypothesis Hinv : lifecycle_inv ids s.

Lemma submit_lifecycle body e :
  accepted body = true →
  make_jobId (now_id e) (random36 e) ∉ ids →
  lifecycle_inv (ids ++ [make_jobId (now_id e) (random36 e)])
    (submit s body e).1.
Proof.
  pose proof Hinv as [H1 H2 H3 H4 H5]. intros Hacc Hfresh.
  rewrite (submit_accepted s body e Hacc). simpl.
  set (x := make_jobId (now_id e) (random36 e)) in *.
  assert (Hold : ∀ j, j ∈ jobs s → id j ≠ x).
  { intros j Hj Heq. apply Hfresh. rewrite <- Heq.
    by apply (proj1 (Forall_forall _ _) H1). }
  split; simpl.
  - apply Forall_app. split.
    + eapply Forall_impl; [exact H1|]. intros j Hj. simpl in *. set_solver.
    + apply Forall_singleton. simpl. set_solver.
  - intros h c. rewrite lookup_insert. case_decide.
    + intros [= <-]. simpl. set_solver.
    + intros Hc. specialize (H2 h c Hc). set_solver.
  - rewrite fmap_app. apply NoDup_app. split_and!; [done| |].
    + intros y (j & -> & Hj)%list_elem_of_fmap. simpl.
      intros Heq%list_elem_of_singleton. by apply (Hold j).
    + simpl. apply NoDup_singleton.
  - intros h1 h2 c1 c2. rewrite !lookup_insert.
    repeat case_decide; try congruence.
    + intros [= <-] Hc2 Heq. simpl in Heq. destruct Hfresh.
      rewrite Heq. by eapply H2.
    + intros Hc1 [= <-] Heq. simpl in Heq. destruct Hfresh.
      rewrite <- Heq. by eapply H2.
    + apply H4.
  - apply Forall_app. split.
    + apply Forall_forall. intros j Hj.
      apply (job_phase_timeouts_mono (timeouts s));
        [|by apply (proj1 (Forall_forall _ _) H5)].
      intros Hno h c. rewrite lookup_insert. case_decide.
      * intros [= <-]. simpl. intros Heq. by apply (Hold j).
      * apply Hno.
    + apply Forall_singleton. by left.
Qed.

Lemma delete_lifecycle jobId : lifecycle_inv ids (delete_job s jobId).1.
Proof.
  pose proof Hinv as [H1 H2 H3 H4 H5]. unfold delete_job.
  destruct (find_job (jobs s) jobId) as [[i j]|] eqn:Hfind; [|done].
  apply find_job_Some in Hfind as [Hi _].
  destruct (String.eqb (status j) "running") eqn:Hst; simpl.
  - apply String.eqb_eq in Hst. split; simpl; try done.
    + apply Forall_insert; [done|]. apply (Forall_lookup_1 _ _ _ _ H1 Hi).
    + by rewrite (nodup_ids_insert _ _ j).
    + apply Forall_insert; [done|].
      destruct (job_phase_started _ _ (Forall_lookup_1 _ _ _ _ H5 Hi) Hst).
      right; left. simpl. auto.
  - split; simpl; try done.
    + by apply Forall_delete.
    + by apply nodup_ids_delete.
    + by apply Forall_delete.
Qed.

Lemma timeout_lifecycle h now : lifecycle_inv ids (fire_timeout s h now).
Proof.
  pose proof Hinv as [H1 H2 H3 H4 H5]. unfold fire_timeout.
  destruct (timeouts s !! h) as [c|] eqn:Hc; [|done].
  assert (Hmono : ∀ x, no_pending_start (timeouts s) x →
                       no_pending_start (delete h (timeouts s)) x).
  { intros x Hno h' c' [_ Hc']%lookup_delete_Some. by eapply Hno. }
  assert (Hspent : no_pending_start (delete h (timeouts s)) (c_jobId c)).
  { intros h' c' [Hne Hc']%lookup_delete_Some Heq.
    apply Hne. by eapply H4. }
  unfold start_callback. simpl.
  destruct (find_job (jobs s) (c_jobId c)) as [[i j]|] eqn:Hfind.
  - apply find_job_Some in Hfind as [Hi Hid].
    pose proof (Forall_lookup_1 _ _ _ _ H5 Hi) as Hphase.
    assert (Hq : results j = None).
    { destruct Hphase as [[_ ?]|[(_ & _ & Hno)|(_ & _ & Hno)]]; [done|..];
        destruct (Hno h c Hc); done. }
    split; simpl.
    + apply Forall_insert; [done|]. apply (Forall_lookup_1 _ _ _ _ H1 Hi).
    + intros h' c' [_ Hc']%lookup_delete_Some. by eapply H2.
    + by rewrite (nodup_ids_insert _ _ j).
    + intros h1 h2 c1 c2 [_ ?]%lookup_delete_Some [_ ?]%lookup_delete_Some.
      by eapply H4.
    + apply Forall_insert.
      * eapply Forall_impl; [exact H5|]. intros j'.
        apply job_phase_timeouts_mono, Hmono.
      * right; left. simpl. rewrite Hid. auto.
  - split; simpl; try done.
    + intros h' c' [_ Hc']%lookup_delete_Some. by eapply H2.
    + intros h1 h2 c1 c2 [_ ?]%lookup_delete_Some [_ ?]%lookup_delete_Some.
      by eapply H4.
    + eapply Forall_impl; [exact H5|]. intros j'.
      apply job_phase_timeouts_mono, Hmono.
Qed.

Lemma interval_lifecycle h rnd now :
  lifecycle_inv ids (fire_interval s h rnd now).
Proof.
  pose proof Hinv as [H1 H2 H3 H4 H5].
  pose proof (fire_interval_timeouts s h rnd now) as HT.
  destruct (fire_interval_jobs s h rnd now)
    as [HJ|(c & i0 & j0 & j1 & _ & Hfind & Hrun & HJ & Hid & _ & _ & _ & Hres)].
  { split; rewrite ?HT, ?HJ; done. }
  apply find_job_Some in Hfind as [Hi _].
  destruct (job_phase_started _ _ (Forall_lookup_1 _ _ _ _ H5 Hi) Hrun)
    as [Hnone Hno].
  split; rewrite ?HT, ?HJ; try done.
  - apply Forall_insert; [done|]. rewrite Hid.
    apply (Forall_lookup_1 _ _ _ _ H1 Hi).
  - by rewrite (nodup_ids_insert _ _ j0).
  - apply Forall_insert; [done|].
    destruct Hres as [(Hst & Hr & _)|(Hst & Hr & _)].
    + right; left. rewrite Hid, Hr. auto.
    + right; right. rewrite Hid, Hr. split_and!; [done|by eexists|done].
Qed.

Lemma step_lifecycle ev :
  (∀ x, issued_id ev = Some x → x ∉ ids) →
  lifecycle_inv (ids ++ issued [ev]) (step s ev).
Proof.
  intros Hfresh. unfold step. destruct (alive s).
  2: { apply (lifecycle_inv_weaken ids); [|done].
       intros x Hx. apply elem_of_app. by left. }
  destruct ev as [body e|jobId|h now|h rnd now];
    unfold issued; simpl.
  - destruct (accepted body) eqn:Hacc; simpl.
    + apply submit_lifecycle; [done|]. apply Hfresh. simpl. by rewrite Hacc.
    + destruct (submit_cases s body e) as [[_ ->]|[? _]]; [|congruence].
      by rewrite app_nil_r.
  - rewrite app_nil_r. apply delete_lifecycle.
  - rewrite app_nil_r. apply timeout_lifecycle.
  - rewrite app_nil_r. apply interval_lifecycle.
Qed.

End lifecycle_steps.

Lemma issued_cons ev tr : issued (ev :: tr) = (issued [ev] ++ issued tr)%list.
Proof. unfold issued. simpl. by destruct (issued_id ev). Qed.

Lemma run_lifecycle_from ids s tr :
  lifecycle_inv ids s → NoDup (ids ++ issued tr) →
  lifecycle_inv (ids ++ issued tr) (run s tr).
Proof.
  revert ids s. induction tr as [|ev tr IH]; intros ids s Hinv Hnd.
  - unfold issued. simpl. by rewrite app_nil_r.
  - rewrite issued_cons in *. rewrite (assoc_L (++)) in *.
    change (run s (ev :: tr)) with (run (step s ev) tr).
    apply IH; [|done]. apply step_lifecycle; [done|].
    intros x Hx Hin.
    apply NoDup_app in Hnd as [Hnd _]. apply NoDup_app in Hnd as (_ & Hnd & _).
    apply (Hnd x Hin). unfold issued. simpl. rewrite Hx. set_solver.
Qed.

Lemma run_lifecycle tr :
  NoDup (issued tr) → lifecycle_inv (issued tr) (run initial tr).
Proof.
  intros Hnd. apply (run_lifecycle_from [] initial tr); [|done].
  apply lifecycle_inv_initial.
Qed.

(** ** Job ids *)

Lemma uint_underscore_free d :
  underscore_free (NilEmpty.string_of_uint d) = true.
Proof. induction d; simpl; auto. Qed.

Lemma decimal_underscore_free z : underscore_free (decimal z) = true.
Proof.
  unfold decimal, NilZero.string_of_int, NilZero.string_of_uint.
  destruct (Z.to_int z) as [d|d]; destruct d; simpl;
    auto using uint_underscore_free.
Qed.

Lemma decimal_inj z1 z2 : decimal z1 = decimal z2 → z1 = z2.
Proof.
  unfold decimal. intros Heq. apply DecimalZ.to_int_inj.
  assert (Hok : ∀ z, NilZero.int_of_string (NilZero.string_of_int (Z.to_int z))
                     = Some (Z.to_int z)).
  { intros z. apply NilZero.isi; destruct z; simpl; try discriminate;
      intros [= H]; by apply DecimalPos.Unsigned.to_uint_nonnil in H. }
  pose proof (Hok z1) as H1. rewrite Heq, Hok in H1. congruence.
Qed.

Lemma append_nil_l (t : string) : "" ++ t = t.
Proof. reflexivity. Qed.

Lemma append_cons a (s t : string) : String a s ++ t = String a (s ++ t).
Proof. reflexivity. Qed.

Lemma underscore_split d1 d2 s1 s2 :
  underscore_free d1 = true → underscore_free d2 = true →
  d1 ++ "_" ++ s1 = d2 ++ "_" ++ s2 → d1 = d2 ∧ s1 = s2.
Proof.
  revert d2. induction d1 as [|a d1 IH]; intros [|b d2] H1 H2 Heq;
    cbn in H1, H2;
    repeat (rewrite append_nil_l in Heq || rewrite append_cons in Heq).
  - by injection Heq as ->.
  - injection Heq as <- _. by rewrite Ascii.eqb_refl in H2.
  - injection Heq as -> _. by rewrite Ascii.eqb_refl in H1.
  - injection Heq as -> Htail.
    apply andb_true_iff in H1 as [_ H1]. apply andb_true_iff in H2 as [_ H2].
    destruct (IH d2 H1 H2) as [-> ->]; [|done].
    by repeat (rewrite append_nil_l || rewrite append_cons).
Qed.

Lemma make_jobId_inj t1 r1 t2 r2 :
  make_jobId t1 r1 = make_jobId t2 r2 ↔
  t1 = t2 ∧ String.substring 2 9 r1 = String.substring 2 9 r2.
Proof.
  unfold make_jobId. split.
  - intros [= Heq].
    apply underscore_split in Heq as [Hd ->];
      auto using decimal_underscore_free.
    split; [by apply decimal_inj|done].
  - by intros [-> ->].
Qed.

(** C5, as the code has it.  The id of a job is determined by the clock
    reading and by the characters 2 to 10 of the random string, and by
    nothing else: two accepted submissions get the same id exactly when they
    agree on both.  So ids differ whenever the millisecond or the random
    suffix differs. *)
Theorem submitted_ids_distinct_iff
    (s1 s2 s1' s2' : server) (b1 b2 : gmap string js_value)
    (e1 e2 : submit_env) (c1 c2 : nat) (j1 j2 : Job) :
  submit s1 b1 e1 = (s1', Ok c1 j1) →
  submit s2 b2 e2 = (s2', Ok c2 j2) →
  (id j1 = id j2 ↔
   now_id e1 = now_id e2 ∧
   String.substring 2 9 (random36 e1) = String.substring 2 9 (random36 e2)).
Proof.
  intros H1 H2.
  destruct (submit_cases s1 b1 e1) as [[_ Heq]|[_ Heq]];
    rewrite Heq in H1; [done|]. injection H1 as _ _ <-.
  destruct (submit_cases s2 b2 e2) as [[_ Heq']|[_ Heq']];
    rewrite Heq' in H2; [done|]. injection H2 as _ _ <-.
  simpl. apply make_jobId_inj.
Qed.

Lemma submitted_ids_distinct_iff_witness :
  id (new_job [] sample_body sample_env)
    = id (new_job (jobs (submit initial sample_body sample_env).1)
            sample_body later_env) ↔
  now_id sample_env = now_id later_env ∧
  String.substring 2 9 (random36 sample_env)
    = String.substring 2 9 (random36 later_env).
Proof.
  apply (submitted_ids_distinct_iff initial
           (submit initial sample_body sample_env).1
           (submit initial sample_body sample_env).1
           (submit (submit initial sample_body sample_env).1
              sample_body later_env).1
           sample_body sample_body sample_env later_env 201 201);
    vm_compute; reflexivity.
Defined.

(** C5, as the specification states it, fails: the second of two
    submissions that arrive in the same millisecond and draw the same
    random string is accepted under the id of the first. *)
Lemma twin_submissions_share_id :
  ∃ s1 j1 s2 j2,
    submit initial sample_body sample_env = (s1, Ok 201 j1) ∧
    submit s1 sample_body sample_env = (s2, Ok 201 j2) ∧
    jobs s2 = [j1; j2] ∧
    queue_position j1 ≠ queue_position j2 ∧
    id j1 = id j2.
Proof.
  exists (submit initial sample_body sample_env).1,
    (new_job [] sample_body sample_env),
    twin_submissions,
    (new_job (jobs (submit initial sample_body sample_env).1)
       sample_body sample_env).
  split_and!; by vm_compute.
Qed.
(** ** Delete *)

Lemma find_job_unique (l : list Job) (j : Job) :
  NoDup (id <$> l) → j ∈ l → ∃ i, find_job l (id j) = Some (i, j).
Proof.
  intros Hnd Hj.
  destruct (list_find_elem_of (λ x, id x = id j) l j Hj eq_refl)
    as [[k y] Hfind].
  exists k. unfold find_job. rewrite Hfind. do 2 f_equal.
  apply list_find_Some in Hfind as (Hk & Hid & _).
  apply list_elem_of_lookup_1 in Hj as [i Hi].
  assert (i = k) as ->; [|congruence].
  apply (NoDup_lookup (id <$> l) i k (id j)); [done|..];
    rewrite list_lookup_fmap; [by rewrite Hi|by rewrite Hk, <- Hid].
Qed.

Lemma find_job_absent (l : list Job) (jobId : string) :
  (∀ j, j ∈ l → id j ≠ jobId) → find_job l jobId = None.
Proof.
  intros Hall. apply list_find_None, Forall_forall. exact Hall.
Qed.

Lemma find_job_deleted (l : list Job) (i : nat) (j : Job) :
  NoDup (id <$> l) → l !! i = Some j → find_job (delete i l) (id j) = None.
Proof.
  intros Hnd Hi. apply find_job_absent.
  intros y [k Hk]%list_elem_of_lookup_1 Heq.
  rewrite list_lookup_delete in Hk.
  assert (Hfm : ∀ n x, l !! n = Some x → (id <$> l) !! n = Some (id x)).
  { intros n x Hn. by rewrite list_lookup_fmap, Hn. }
  case_decide.
  - assert (k = i); [|lia].
    apply (NoDup_lookup (id <$> l) k i (id j)); auto.
    rewrite <- Heq. auto.
  - assert (S k = i); [|lia].
    apply (NoDup_lookup (id <$> l) (S k) i (id j)); auto.
    rewrite <- Heq. auto.
Qed.

(** C4, as the code has it.  In a registry whose ids are pairwise distinct,
    delete of the id of a running job answers "Job cancelled" with the
    record whose status is now cancelled, writes that record in place of the
    old one, and get then returns it; delete of the id of a job in any other
    status answers "Job deleted", removes the record, and get then answers
    404; delete of an id that no job has answers 404 and leaves the state as
    it was.  The timers are untouched in all cases. *)
Theorem delete_by_status (s : server) (jobId : string) :
  NoDup (id <$> jobs s) →
  (∀ j, j ∈ jobs s → id j = jobId → status j = "running" →
     ∃ i,
       jobs s !! i = Some j ∧
       delete_job s jobId
         = (with_jobs s (<[i := set_status j "cancelled"]> (jobs s)),
            Ok 200 (mkDeleteBody "Job cancelled"
                      (Some (set_status j "cancelled")))) ∧
       get_job (delete_job s jobId).1 jobId
         = Ok 200 (set_status j "cancelled") ∧
       length (jobs (delete_job s jobId).1) = length (jobs s)) ∧
  (∀ j, j ∈ jobs s → id j = jobId → status j ≠ "running" →
     ∃ i,
       jobs s !! i = Some j ∧
       delete_job s jobId
         = (with_jobs s (delete i (jobs s)),
            Ok 200 (mkDeleteBody "Job deleted" None)) ∧
       get_job (delete_job s jobId).1 jobId = Err 404 not_found ∧
       S (length (jobs (delete_job s jobId).1)) = length (jobs s)) ∧
  ((∀ j, j ∈ jobs s → id j ≠ jobId) →
     delete_job s jobId = (s, Err 404 not_found)).
Proof.
  intros Hnd. split_and!.
  - intros j Hj <- Hrun.
    destruct (find_job_unique _ _ Hnd Hj) as [i Hfind].
    pose proof (find_job_Some _ _ _ _ Hfind) as [Hi _].
    exists i. unfold delete_job, get_job. rewrite Hfind, Hrun. simpl.
    split_and!; [done|done| |by rewrite length_insert].
    rewrite (find_job_insert_same_id _ _ j) by done.
    rewrite Hfind. simpl. by rewrite decide_True.
  - intros j Hj <- Hrun.
    destruct (find_job_unique _ _ Hnd Hj) as [i Hfind].
    pose proof (find_job_Some _ _ _ _ Hfind) as [Hi _].
    exists i. unfold delete_job, get_job. rewrite Hfind.
    destruct (String.eqb_spec (status j) "running") as [?|_]; [done|]. simpl.
    split_and!; [done|done|by rewrite find_job_deleted|].
    rewrite length_delete by eauto. apply lookup_lt_Some in Hi. lia.
  - intros Hnone. unfold delete_job. by rewrite find_job_absent.
Qed.

Lemma delete_by_status_witness :
  ∃ i,
    jobs one_running !! i
      = Some (set_started_at
                (set_status (new_job [] sample_body sample_env) "running")
                1700000002000) ∧
    delete_job one_running sample_jobId
      = (with_jobs one_running
           (<[i := set_status
                     (set_started_at
                        (set_status (new_job [] sample_body sample_env)
                           "running") 1700000002000) "cancelled"]>
              (jobs one_running)),
         Ok 200 (mkDeleteBody "Job cancelled"
                   (Some (set_status
                            (set_started_at
                               (set_status (new_job [] sample_body sample_env)
                                  "running") 1700000002000) "cancelled")))) ∧
    get_job (delete_job one_running sample_jobId).1
        sample_jobId
      = Ok 200 (set_status
                  (set_started_at
                     (set_status (new_job [] sample_body sample_env) "running")
                     1700000002000) "cancelled") ∧
    length (jobs (delete_job one_running sample_jobId).1)
      = length (jobs one_running).
Proof.
  apply (proj1 (delete_by_status one_running sample_jobId
                  ltac:(vm_compute; apply NoDup_singleton))).
  - apply list_elem_of_lookup_2 with 0%nat. vm_compute. reflexivity.
  - vm_compute. reflexivity.
  - vm_compute. reflexivity.
Defined.

(** C4, as the specification states it, fails in two places.  The messages
    of the two answers are "Job cancelled" and "Job deleted", not
    "cancelled" and "deleted".  And where two records share an id, delete
    removes the first of them and get on that id then returns the second
    instead of failing. *)
Lemma delete_messages_and_shared_id :
  (∃ s' b, delete_job one_running sample_jobId
             = (s', Ok 200 b) ∧
           message b = "Job cancelled" ∧ message b ≠ "cancelled") ∧
  (∃ s' b, delete_job two_jobs sample_jobId
             = (s', Ok 200 b) ∧
           message b = "Job deleted" ∧ message b ≠ "deleted") ∧
  (∃ s' b j, delete_job twin_submissions sample_jobId
             = (s', Ok 200 b) ∧
           message b = "Job deleted" ∧
           get_job s' sample_jobId = Ok 200 j).
Proof.
  split_and!.
  - exists (delete_job one_running sample_jobId).1,
      (mkDeleteBody "Job cancelled"
         (Some (set_status
                  (set_started_at
                     (set_status (new_job [] sample_body sample_env) "running")
                     1700000002000) "cancelled"))).
    split_and!; by vm_compute.
  - exists (delete_job two_jobs sample_jobId).1,
      (mkDeleteBody "Job deleted" None).
    split_and!; by vm_compute.
  - exists (delete_job twin_submissions sample_jobId).1,
      (mkDeleteBody "Job deleted" None),
      (new_job (jobs (submit initial sample_body sample_env).1)
         sample_body sample_env).
    split_and!; by vm_compute.
Qed.

(** ** Cancellation and the tick *)

Lemma fire_interval_guard s h c rnd now :
  intervals s !! h = Some c →
  (∀ i j, find_job (jobs s) (c_jobId c) = Some (i, j) → status j ≠ "running") →
  fire_interval s h rnd now = clearInterval s h.
Proof.
  intros Hc Hguard. unfold fire_interval, progress_callback. rewrite Hc.
  destruct (find_job (jobs s) (c_jobId c)) as [[i j]|] eqn:Hfind; [|done].
  destruct (String.eqb_spec (status j) "running") as [Hrun|_]; [|done].
  by destruct (Hguard i j).
Qed.

Lemma find_job_insert_other (l : list Job) (k i : nat) y y' j jobId :
  l !! k = Some y → id y' = id y → id y ≠ jobId →
  find_job l jobId = Some (i, j) →
  find_job (<[k := y']> l) jobId = Some (i, j).
Proof.
  intros Hk Hid Hne Hfind.
  rewrite (find_job_insert_same_id _ _ y) by done. rewrite Hfind. simpl.
  apply find_job_Some in Hfind as [Hi Hj].
  case_decide; [|done]. subst k. congruence.
Qed.

Lemma tick_keeps_stopped_job s h rnd now jobId i j :
  find_job (jobs s) jobId = Some (i, j) → status j ≠ "running" →
  find_job (jobs (fire_interval s h rnd now)) jobId = Some (i, j).
Proof.
  intros Hfind Hst.
  destruct (fire_interval_jobs s h rnd now)
    as [->|(c & i0 & j0 & j1 & _ & Hfind0 & Hrun & -> & Hid & _)]; [done|].
  apply find_job_Some in Hfind0 as [Hi0 Hid0].
  rewrite (find_job_insert_same_id _ _ j0) by done. rewrite Hfind. simpl.
  apply find_job_Some in Hfind as [Hi _].
  case_decide; [|done]. subst i0. congruence.
Qed.

Lemma ticks_keep_stopped_job s ticks jobId i j :
  Forall is_tick ticks →
  find_job (jobs s) jobId = Some (i, j) → status j ≠ "running" →
  find_job (jobs (run s ticks)) jobId = Some (i, j).
Proof.
  intros Hticks. revert s.
  induction Hticks as [|ev ticks Hev _ IH]; intros s Hfind Hst; [done|].
  change (run s (ev :: ticks)) with (run (step s ev) ticks).
  apply IH; [|done]. step_alive s. destruct ev; try done. simpl.
  by apply tick_keeps_stopped_job.
Qed.

Lemma delete_job_cancelled s jobId s' j' :
  delete_job s jobId = (s', Ok 200 (mkDeleteBody "Job cancelled" (Some j'))) →
  ∃ i j, find_job (jobs s) jobId = Some (i, j) ∧ status j = "running" ∧
         j' = set_status j "cancelled" ∧
         s' = with_jobs s (<[i := j']> (jobs s)) ∧
         find_job (jobs s') jobId = Some (i, j').
Proof.
  unfold delete_job.
  destruct (find_job (jobs s) jobId) as [[i j]|] eqn:Hfind; [|done].
  destruct (String.eqb_spec (status j) "running") as [Hrun|_]; [|done].
  intros [= <- <-]. exists i, j. split_and!; try done. simpl.
  pose proof (find_job_Some _ _ _ _ Hfind) as [Hi _].
  rewrite (find_job_insert_same_id _ _ j) by done.
  rewrite Hfind. simpl. by rewrite decide_True.
Qed.
Lemma find_job_delete_other (l : list Job) (k i : nat) y j jobId :
  l !! k = Some y → id y ≠ jobId →
  find_job l jobId = Some (i, j) →
  ∃ i', find_job (delete k l) jobId = Some (i', j).
Proof.
  unfold find_job. revert k i.
  induction l as [|a l IH]; intros k i Hk Hne Hfind; [done|].
  destruct k as [|k]; simpl in *.
  - injection Hk as ->. rewrite decide_False in Hfind by done.
    destruct (list_find _ l) as [[m z]|]; simplify_eq/=. by eexists.
  - destruct (decide (id a = jobId)) as [Ha|Ha]; simplify_eq/=; [by eexists|].
    destruct (list_find _ l) as [[m z]|] eqn:Hl; simplify_eq/=.
    destruct (IH k m Hk Hne eq_refl) as [i' ->]. by eexists.
Qed.

(** The record [j] of a cancelled job, looked up under [jobId]. *)
Section cancelled_job.
Context (jobId : string) (j : Job).
Hypothesis Hst : status j = "cancelled".

(** A step that is not a second delete of the same id leaves the record as
    it is, wherever the registry now holds it. *)
Lemma step_keeps_cancelled ids s ev :
  lifecycle_inv ids s →
  ev ≠ EvDelete jobId →
  (∃ i, find_job (jobs s) jobId = Some (i, j)) →
  ∃ i, find_job (jobs (step s ev)) jobId = Some (i, j).
Proof.
  intros Hinv Hev [i Hfind].
  pose proof (find_job_Some _ _ _ _ Hfind) as [Hi Hid].
  unfold step. destruct (alive s); [|by eexists].
  destruct ev as [body e|jobId'|h now|h rnd now]; simpl.
  - destruct (submit_cases s body e) as [[_ ->]|[_ ->]]; simpl; [by eexists|].
    exists i. by apply list_find_app_l.
  - unfold delete_job.
    destruct (find_job (jobs s) jobId') as [[k y]|] eqn:Hfind'; [|by eexists].
    apply find_job_Some in Hfind' as [Hk Hidk].
    assert (id y ≠ jobId) by congruence.
    destruct (String.eqb (status y) "running"); simpl.
    + exists i. by apply (find_job_insert_other _ _ _ y).
    + by apply (find_job_delete_other _ _ i y).
  - unfold fire_timeout.
    destruct (timeouts s !! h) as [c|] eqn:Hc; [|by eexists].
    unfold start_callback. simpl.
    destruct (find_job (jobs s) (c_jobId c)) as [[k y]|] eqn:Hfind';
      simpl; [|by eexists].
    apply find_job_Some in Hfind' as [Hk Hidk].
    exists i. apply (find_job_insert_other _ _ _ y); try done.
    rewrite Hidk, <- Hid.
    pose proof (Forall_lookup_1 _ _ _ _ (inv_phase _ _ Hinv) Hi) as Hphase.
    destruct Hphase as [[Hq _]|[(_ & _ & Hno)|(Hq & _)]];
      [congruence|by apply (Hno h c)|congruence].
  - exists i. apply tick_keeps_stopped_job; [done|]. by rewrite Hst.
Qed.

Lemma run_keeps_cancelled ids s tr :
  lifecycle_inv ids s → NoDup (ids ++ issued tr) →
  EvDelete jobId ∉ tr →
  (∃ i, find_job (jobs s) jobId = Some (i, j)) →
  ∃ i, find_job (jobs (run s tr)) jobId = Some (i, j).
Proof.
  revert ids s. induction tr as [|ev tr IH]; intros ids s Hinv Hnd Hdel Hfind;
    [done|].
  change (run s (ev :: tr)) with (run (step s ev) tr).
  rewrite issued_cons, (assoc_L (++)) in Hnd.
  apply not_elem_of_cons in Hdel as [Hev Hdel].
  apply (IH (ids ++ issued [ev])%list); try done.
  - apply step_lifecycle; [done|]. intros x Hx Hin.
    apply NoDup_app in Hnd as [Hnd _]. apply NoDup_app in Hnd as (_ & Hnd & _).
    apply (Hnd x Hin). unfold issued. simpl. rewrite Hx.
    by apply list_elem_of_singleton.
  - eapply step_keeps_cancelled; [done| |done]. congruence.
Qed.

End cancelled_job.

(** C2, as the code has it.  A tick re-reads the job its closure names;
    when the job is gone or its status is not running the tick writes
    nothing and removes its own registration, and a tick that does change
    the registry found its job with status running.  Hence, once delete has
    answered "Job cancelled", the record it returned is what get returns
    after any number of later ticks, of this job's timer or of any other;
    and in a run whose submissions have pairwise distinct ids it is what get
    returns after any later events at all, as long as the job is not
    deleted a second time.  (The start callback does not look at the
    status, so the condition on the ids is needed.) *)
Theorem cancelled_job_frozen :
  (∀ s h c rnd now,
     intervals s !! h = Some c →
     (∀ i j, find_job (jobs s) (c_jobId c) = Some (i, j) →
             status j ≠ "running") →
     fire_interval s h rnd now = clearInterval s h ∧
     jobs (fire_interval s h rnd now) = jobs s ∧
     intervals (fire_interval s h rnd now) !! h = None) ∧
  (∀ s h rnd now,
     jobs (fire_interval s h rnd now) ≠ jobs s →
     ∃ c i j, intervals s !! h = Some c ∧
              find_job (jobs s) (c_jobId c) = Some (i, j) ∧
              status j = "running") ∧
  (∀ s jobId s' j' ticks,
     delete_job s jobId
       = (s', Ok 200 (mkDeleteBody "Job cancelled" (Some j'))) →
     Forall is_tick ticks →
     status j' = "cancelled" ∧
     (∃ i j, jobs s !! i = Some j ∧ id j = jobId ∧
             progress j' = progress j ∧
             jobs (run s' ticks) !! i = Some j') ∧
     get_job (run s' ticks) jobId = Ok 200 j') ∧
  (∀ before jobId s' j' after,
     delete_job (run initial before) jobId
       = (s', Ok 200 (mkDeleteBody "Job cancelled" (Some j'))) →
     NoDup (issued (before ++ after)) →
     EvDelete jobId ∉ after →
     get_job (run s' after) jobId = Ok 200 j').
Proof.
  split_and!.
  - intros s h c rnd now Hc Hguard.
    rewrite (fire_interval_guard s h c rnd now Hc Hguard).
    split_and!; [done|done|]. simpl. apply lookup_delete_eq.
  - intros s h rnd now Hchanged.
    destruct (fire_interval_jobs s h rnd now)
      as [?|(c & i & j & _ & ? & ? & ? & _)]; [done|]. by exists c, i, j.
  - intros s jobId s' j' ticks Hdel Hticks.
    destruct (delete_job_cancelled _ _ _ _ Hdel)
      as (i & j & Hfind & Hrun & -> & -> & Hfind').
    assert (Hstop : status (set_status j "cancelled") ≠ "running") by done.
    pose proof (ticks_keep_stopped_job _ ticks _ _ _ Hticks Hfind' Hstop)
      as Hlater.
    split_and!; [done| |].
    + exists i, j. apply find_job_Some in Hfind as [? ?].
      apply find_job_Some in Hlater as [? _]. done.
    + unfold get_job. by rewrite Hlater.
  - intros before jobId s' j' after Hdel Hnd Hnot.
    destruct (delete_job_cancelled _ _ _ _ Hdel)
      as (i & j & Hfind & Hrun & -> & Hs' & Hfind').
    unfold issued in Hnd. rewrite omap_app in Hnd.
    pose proof (proj1 (NoDup_app _ _) Hnd) as [Hnd1 _].
    assert (Hinv : lifecycle_inv (issued before) s').
    { replace s' with (delete_job (run initial before) jobId).1
        by (by rewrite Hdel).
      apply delete_lifecycle. by apply run_lifecycle. }
    destruct (run_keeps_cancelled jobId (set_status j "cancelled") eq_refl
                (issued before) s' after Hinv Hnd Hnot)
      as [i' Hlater]; [by eexists|].
    unfold get_job. by rewrite Hlater.
Qed.

Lemma cancelled_job_frozen_witness :
  (fire_interval (delete_job before_cancel sample_jobId).1 1 (1 # 2)
       1700000004000
     = clearInterval (delete_job before_cancel sample_jobId).1 1) ∧
  (status cancelled_sample = "cancelled" ∧
   get_job (run (delete_job before_cancel sample_jobId).1 after_cancel_ticks)
       sample_jobId
     = Ok 200 cancelled_sample) ∧
  get_job (run (delete_job before_cancel sample_jobId).1
             [EvSubmit sample_body later_env; EvTimeout 2 1700000002250;
              EvInterval 1 (1 # 2) 1700000004000])
      sample_jobId
    = Ok 200 cancelled_sample.
Proof.
  destruct cancelled_job_frozen as (Hguard & _ & Hticks & Hrun).
  split_and!.
  - apply (Hguard (delete_job before_cancel sample_jobId).1 1
             (mkClosure sample_jobId (JStr "structure_prediction"))).
    + vm_compute. reflexivity.
    + intros i j Hfind. vm_compute in Hfind. by injection Hfind as _ <-.
  - apply (Hticks before_cancel sample_jobId
             (delete_job before_cancel sample_jobId).1 cancelled_sample
             after_cancel_ticks).
    + vm_compute. reflexivity.
    + repeat constructor.
  - apply (Hticks before_cancel sample_jobId
             (delete_job before_cancel sample_jobId).1 cancelled_sample
             after_cancel_ticks).
    + vm_compute. reflexivity.
    + repeat constructor.
  - apply (Hrun [EvSubmit sample_body sample_env; EvTimeout 0 1700000002000;
                 EvInterval 1 (1 # 2) 1700000003000]
             sample_jobId (delete_job before_cancel sample_jobId).1
             cancelled_sample).
    + vm_compute. reflexivity.
    + vm_compute. apply NoDup_cons. split; [|apply NoDup_singleton].
      intros Hin%list_elem_of_singleton. discriminate.
    + rewrite !not_elem_of_cons.
      split_and!; try discriminate. apply not_elem_of_nil.
Defined.

(** The claim C2 as it is stated fails when two submissions received the
    same id.  The first job is started and cancelled; then the start timer
    of the second submission fires, looks its job up by id, finds the
    cancelled record first and sets it running, without a look at its
    status; the tick that follows moves its progress. *)
Lemma cancelled_job_restarted_by_twin :
  ∃ s' j' j'',
    delete_job twin_started sample_jobId
      = (s', Ok 200 (mkDeleteBody "Job cancelled" (Some j'))) ∧
    status j' = "cancelled" ∧ (progress j' == 0)%Q ∧
    get_job (run s' twin_restart) sample_jobId = Ok 200 j'' ∧
    status j'' = "running" ∧ (progress j'' == 10)%Q.
Proof.
  eexists _, _, _. split; [by vm_compute|].
  split; [reflexivity|]. split; [reflexivity|].
  split; [by vm_compute|]. split; by vm_compute.
Qed.

(** * Further properties of the handlers and callbacks *)

(** ** What a step does to the registry *)

Lemma elem_of_insert_inv {A} (l : list A) (i : nat) (x y : A) :
  y ∈ <[i := x]> l → y = x ∨ y ∈ l.
Proof.
  intros [k Hk]%list_elem_of_lookup_1.
  apply list_lookup_insert_Some in Hk as [(_ & -> & _)|[_ Hk]]; [by left|].
  right. by eapply list_elem_of_lookup_2.
Qed.

Lemma find_job_self (l : list Job) jobId i j :
  find_job l jobId = Some (i, j) → find_job l (id j) = Some (i, j).
Proof. intros H. by destruct (find_job_Some _ _ _ _ H) as [_ ->]. Qed.

Lemma find_job_elem (l : list Job) jobId i j :
  find_job l jobId = Some (i, j) → j ∈ l.
Proof.
  intros [H _]%find_job_Some. by eapply list_elem_of_lookup_2.
Qed.

(** A step leaves the registry alone, appends the job of an accepted
    submission, overwrites one record in place, or removes one record. *)
Lemma step_jobs_cases s ev :
  jobs (step s ev) = jobs s ∨
  (∃ body e, ev = EvSubmit body e ∧ accepted body = true ∧
     jobs (step s ev) = (jobs s ++ [new_job (jobs s) body e])%list) ∨
  (∃ i j j', find_job (jobs s) (id j) = Some (i, j) ∧ job_write s ev j j' ∧
     jobs (step s ev) = <[i := j']> (jobs s)) ∨
  (∃ i j, find_job (jobs s) (id j) = Some (i, j) ∧ ev = EvDelete (id j) ∧
     status j ≠ "running" ∧ jobs (step s ev) = delete i (jobs s)).
Proof.
  unfold step. destruct (alive s); [|by left].
  destruct ev as [body e|jobId|h now|h rnd now]; simpl.
  - destruct (submit_cases s body e) as [[_ ->]|[Hacc ->]]; [by left|].
    right; left. by exists body, e.
  - unfold delete_job.
    destruct (find_job (jobs s) jobId) as [[i j]|] eqn:Hfind; [|by left].
    pose proof (find_job_Some _ _ _ _ Hfind) as [_ <-].
    destruct (String.eqb_spec (status j) "running") as [Hrun|Hrun]; simpl.
    + right; right; left. exists i, j, (set_status j "cancelled").
      split_and!; [done| |done]. by constructor.
    + right; right; right. by exists i, j.
  - unfold fire_timeout.
    destruct (timeouts s !! h) as [c|] eqn:Hc; [|by left].
    unfold start_callback. simpl.
    destruct (find_job (jobs s) (c_jobId c)) as [[i j]|] eqn:Hfind;
      [|by left].
    pose proof (find_job_Some _ _ _ _ Hfind) as [_ Hid].
    pose proof (find_job_self _ _ _ _ Hfind) as Hself.
    right; right; left. eexists i, j, _.
    split_and!; [done| |done]. by econstructor.
  - unfold fire_interval.
    destruct (intervals s !! h) as [c|] eqn:Hc; [|by left].
    unfold progress_callback.
    destruct (find_job (jobs s) (c_jobId c)) as [[i j]|] eqn:Hfind;
      [|by left].
    pose proof (find_job_Some _ _ _ _ Hfind) as [_ Hid].
    pose proof (find_job_self _ _ _ _ Hfind) as Hself.
    destruct (String.eqb_spec (status j) "running") as [Hrun|Hrun];
      [|by left].
    fold (ticked_progress j rnd).
    destruct (Qle_bool 100 (ticked_progress j rnd)) eqn:Hdone; simpl.
    + destruct (generateMockResults (c_toolkit c)) eqn:Hgen;
        [idtac..|by left];
        right; right; left; eexists i, j, _;
        (split_and!; [done| |done]);
        rewrite <- Hgen; eapply write_complete; try done;
        rewrite Hgen; discriminate.
    + right; right; left. eexists i, j, _.
      split_and!; [done| |done]. by eapply write_progress.
Qed.

Lemma job_write_id s ev j j' : job_write s ev j j' → id j' = id j.
Proof. by destruct 1. Qed.

(** The ids of the registry after a step are ids it held before, or the id
    the step issued. *)
Lemma step_job_ids s ev j' :
  j' ∈ jobs (step s ev) →
  (∃ j, j ∈ jobs s ∧ id j = id j') ∨ issued_id ev = Some (id j').
Proof.
  destruct (step_jobs_cases s ev)
    as [->|[(body & e & -> & Hacc & ->)
          |[(i & j & j1 & Hfind & Hw & ->)|(i & j & Hfind & _ & _ & ->)]]];
    intros Hin.
  - left. by exists j'.
  - apply elem_of_app in Hin as [Hin|Hin%list_elem_of_singleton].
    + left. by exists j'.
    + right. subst j'. simpl. by rewrite Hacc.
  - left. apply elem_of_insert_inv in Hin as [->|Hin]; [|by exists j'].
    exists j. split; [by eapply find_job_elem|].
    symmetry. by eapply job_write_id.
  - left. exists j'. split; [|done]. by eapply list_elem_of_delete_inv.
Qed.

(** ** The history of a job *)

Lemma nodup_ids_same_job (l : list Job) (j j' : Job) :
  NoDup (id <$> l) → j ∈ l → j' ∈ l → id j = id j' → j = j'.
Proof.
  intros Hnd [i Hi]%list_elem_of_lookup_1 [k Hk]%list_elem_of_lookup_1 Hid.
  assert (i = k) as ->; [|congruence].
  apply (NoDup_lookup (id <$> l) i k (id j)); [done|..];
    rewrite list_lookup_fmap; [by rewrite Hi|by rewrite Hk, Hid].
Qed.

Lemma status_le_refl a : status_le a a.
Proof. by left. Qed.

Lemma status_le_trans a b c : status_le a b → status_le b c → status_le a c.
Proof. unfold status_le. intuition congruence. Qed.

Lemma status_le_not_queued a b : status_le a b → a ≠ "queued" → b ≠ "queued".
Proof. unfold status_le. intuition congruence. Qed.

Lemma later_refl j : later j j.
Proof. split; try done; [apply status_le_refl|apply Qle_refl]. Qed.

Lemma later_trans j1 j2 j3 : later j1 j2 → later j2 j3 → later j1 j3.
Proof.
  intros [A1 A2 A3 A4 A5 A6 A7 A8 A9 A10 A11 A12]
         [B1 B2 B3 B4 B5 B6 B7 B8 B9 B10 B11 B12].
  split; try congruence.
  - by eapply status_le_trans.
  - by eapply Qle_trans.
  - intros Hq. rewrite B11, A11; [done..|]. by eapply status_le_not_queued.
  - intros Hterm. rewrite (A12 Hterm) in *. auto.
Qed.

(** The start callback of a run with distinct ids finds its job queued. *)
Lemma start_finds_queued ids s h c j :
  lifecycle_inv ids s → timeouts s !! h = Some c → j ∈ jobs s →
  c_jobId c = id j → status j = "queued" ∧ results j = None.
Proof.
  intros Hinv Hc Hj Hid.
  pose proof (proj1 (Forall_forall _ _) (inv_phase _ _ Hinv) j Hj) as Hph.
  destruct Hph as [[? ?]|[(_ & _ & Hno)|(_ & _ & Hno)]]; [done|..];
    by destruct (Hno h c Hc).
Qed.

Lemma job_write_later ids s ev j j' :
  lifecycle_inv ids s → progress_in_range j → random_ok ev → j ∈ jobs s →
  job_write s ev j j' → later j j'.
Proof.
  intros Hinv [Hlo Hhi] Hrnd Hj Hw.
  destruct Hw as [j Hrun|h now c j Hc Hid|h rnd now c j Hc Hid Hrun Hp
                 |h rnd now c j Hc Hid Hrun Hp].
  - split; simpl; try done; try (intros [?|?]; congruence).
    + right; right. auto.
    + lra.
  - destruct (start_finds_queued _ _ _ _ _ Hinv Hc Hj Hid) as [Hq _].
    split; simpl; try done; try (intros [?|?]; congruence); try congruence.
    + right; left. auto.
    + lra.
  - destruct Hrnd as [H0 H1].
    destruct (tick_progress_step (progress j) rnd Hhi H0 H1) as (? & _ & _).
    split; simpl; try done; try (intros [?|?]; congruence).
    apply status_le_refl.
  - destruct Hrnd as [H0 H1].
    destruct (tick_progress_step (progress j) rnd Hhi H0 H1) as (? & _ & _).
    split; simpl; try done; try (intros [?|?]; congruence).
    right; right. auto.
Qed.

(** A job of the registry after a step is a later state of a job of
    the registry before it, or the job of the submission just accepted. *)
Lemma step_later ids s ev j' :
  lifecycle_inv ids s → Forall progress_in_range (jobs s) → random_ok ev →
  j' ∈ jobs (step s ev) →
  (∃ j, j ∈ jobs s ∧ later j j') ∨ issued_id ev = Some (id j').
Proof.
  intros Hinv Hrange Hrnd.
  destruct (step_jobs_cases s ev)
    as [->|[(body & e & -> & Hacc & ->)
          |[(i & j & j1 & Hfind & Hw & ->)|(i & j & Hfind & _ & _ & ->)]]];
    intros Hin.
  - left. exists j'. split; [done|apply later_refl].
  - apply elem_of_app in Hin as [Hin|Hin%list_elem_of_singleton].
    + left. exists j'. split; [done|apply later_refl].
    + right. subst j'. simpl. by rewrite Hacc.
  - left. apply elem_of_insert_inv in Hin as [->|Hin].
    + exists j. pose proof (find_job_elem _ _ _ _ Hfind) as Hj.
      split; [done|]. eapply job_write_later; try done.
      by apply (proj1 (Forall_forall _ _) Hrange).
    + exists j'. split; [done|apply later_refl].
  - left. exists j'. split; [by eapply list_elem_of_delete_inv|].
    apply later_refl.
Qed.

Lemma issued_app tr1 tr2 : issued (tr1 ++ tr2) = (issued tr1 ++ issued tr2)%list.
Proof. unfold issued. apply omap_app. Qed.

Lemma run_later tr1 tr2 j j' :
  NoDup (issued (tr1 ++ tr2)) → Forall random_ok (tr1 ++ tr2) →
  j ∈ jobs (run initial tr1) → j' ∈ jobs (run initial (tr1 ++ tr2)) →
  id j = id j' → later j j'.
Proof.
  revert j'. induction tr2 as [|ev tr2 IH] using rev_ind;
    intros j' Hnd Hrnd Hj Hj' Hid.
  - rewrite app_nil_r in *.
    pose proof (inv_ids_nodup _ _ (run_lifecycle tr1 Hnd)) as Hids.
    rewrite (nodup_ids_same_job _ j j' Hids Hj Hj' Hid). apply later_refl.
  - rewrite (assoc_L (++)) in *. rewrite run_snoc in Hj'.
    apply Forall_app in Hrnd as [Hrnd Hev].
    rewrite issued_app in Hnd.
    pose proof (proj1 (NoDup_app _ _) Hnd) as (Hnd' & Hfresh & _).
    pose proof (run_lifecycle _ Hnd') as Hinv.
    destruct (step_later _ _ ev j' Hinv (run_progress_in_range _ Hrnd)
                ltac:(by inversion Hev) Hj') as [(j1 & Hj1 & Hl)|Hnew].
    + eapply later_trans; [|done]. apply IH; try done.
      rewrite Hid. apply (later_id _ _ Hl).
    + destruct (Hfresh (id j')).
      * rewrite issued_app. apply elem_of_app. left. rewrite <- Hid.
        assert (Hnd1 : NoDup (issued tr1)).
        { rewrite issued_app in Hnd'. by apply NoDup_app in Hnd' as [? _]. }
        apply (proj1 (Forall_forall _ _)
                 (inv_jobs_issued _ _ (run_lifecycle tr1 Hnd1)) j Hj).
      * unfold issued. simpl. rewrite Hnew. by apply list_elem_of_singleton.
Qed.

(** Closes the side conditions of a concrete run. *)
Ltac solve_random_ok :=
  match goal with
  | |- Forall random_ok ?tr =>
      let tr' := eval vm_compute in tr in change (Forall random_ok tr')
  end;
  repeat (apply Forall_cons; split;
          [first [exact I | split; [discriminate|reflexivity]]|]);
  constructor.

(** X6. Along a run whose submissions have distinct ids and whose random
    draws are in range, a job keeps the fields it was given at submission
    (toolkit, config, input files, priority, creation time, queue position,
    estimated completion), its status only moves forward (queued, running,
    then completed or cancelled), its progress never decreases under any
    event, and [started_at] keeps its value once the job has left the
    queue. *)
Theorem job_history_monotone (tr1 tr2 : list event) (j j' : Job) :
  NoDup (issued (tr1 ++ tr2)) → Forall random_ok (tr1 ++ tr2) →
  j ∈ jobs (run initial tr1) → j' ∈ jobs (run initial (tr1 ++ tr2)) →
  id j = id j' →
  (toolkit j' = toolkit j ∧ config j' = config j ∧
   input_files j' = input_files j ∧ priority j' = priority j ∧
   created_at j' = created_at j ∧ queue_position j' = queue_position j ∧
   estimated_completion j' = estimated_completion j) ∧
  status_le (status j) (status j') ∧
  (progress j <= progress j')%Q ∧
  (status j ≠ "queued" → started_at j' = started_at j).
Proof.
  intros Hnd Hrnd Hj Hj' Hid.
  destruct (run_later tr1 tr2 j j' Hnd Hrnd Hj Hj' Hid). done.
Qed.

Lemma job_history_monotone_witness :
  (toolkit job_ticked_more = toolkit job_ticked_once ∧
   config job_ticked_more = config job_ticked_once ∧
   input_files job_ticked_more = input_files job_ticked_once ∧
   priority job_ticked_more = priority job_ticked_once ∧
   created_at job_ticked_more = created_at job_ticked_once ∧
   queue_position job_ticked_more = queue_position job_ticked_once ∧
   estimated_completion job_ticked_more
     = estimated_completion job_ticked_once) ∧
  status_le (status job_ticked_once) (status job_ticked_more) ∧
  (progress job_ticked_once <= progress job_ticked_more)%Q ∧
  (status job_ticked_once ≠ "queued" →
   started_at job_ticked_more = started_at job_ticked_once).
Proof.
  apply (job_history_monotone ticked_once three_more_ticks
           job_ticked_once job_ticked_more).
  - vm_compute. apply NoDup_singleton.
  - solve_random_ok.
  - apply list_elem_of_lookup_2 with 0%nat. vm_compute. reflexivity.
  - apply list_elem_of_lookup_2 with 0%nat. vm_compute. reflexivity.
  - vm_compute. reflexivity.
Defined.

(** X7. Along such a run a job that is completed or cancelled is never
    written again: as long as the registry holds a job under its id, it is
    the very same record. *)
Theorem terminal_job_never_changes (tr1 tr2 : list event) (j j' : Job) :
  NoDup (issued (tr1 ++ tr2)) → Forall random_ok (tr1 ++ tr2) →
  j ∈ jobs (run initial tr1) → j' ∈ jobs (run initial (tr1 ++ tr2)) →
  id j = id j' →
  status j = "completed" ∨ status j = "cancelled" →
  j' = j.
Proof.
  intros Hnd Hrnd Hj Hj' Hid.
  apply (later_terminal _ _ (run_later tr1 tr2 j j' Hnd Hrnd Hj Hj' Hid)).
Qed.

Lemma terminal_job_never_changes_witness :
  default completed_job
    (jobs (run initial (completed_run ++
                        [EvInterval 1 (9 # 10) 1700000009000;
                         EvSubmit sample_body later_env;
                         EvTimeout 0 1700000009500])) !! 0%nat)
    = completed_job.
Proof.
  apply (terminal_job_never_changes completed_run
           [EvInterval 1 (9 # 10) 1700000009000;
            EvSubmit sample_body later_env; EvTimeout 0 1700000009500]
           completed_job).
  - vm_compute. apply NoDup_cons. split; [|apply NoDup_singleton].
    intros Hin%list_elem_of_singleton. discriminate.
  - solve_random_ok.
  - apply list_elem_of_lookup_2 with 0%nat. vm_compute. reflexivity.
  - apply list_elem_of_lookup_2 with 0%nat. vm_compute. reflexivity.
  - vm_compute. reflexivity.
  - left. vm_compute. reflexivity.
Defined.

(** ** The shape of a job in each status *)

(** A property of jobs that the new job of a submission has and that every
    write preserves holds of the whole registry after a step. *)
Lemma step_Forall (P : Job → Prop) s ev :
  (∀ body e, ev = EvSubmit body e → accepted body = true →
             P (new_job (jobs s) body e)) →
  (∀ j j', j ∈ jobs s → P j → job_write s ev j j' → P j') →
  Forall P (jobs s) → Forall P (jobs (step s ev)).
Proof.
  intros Hnew Hwrite Hall.
  destruct (step_jobs_cases s ev)
    as [->|[(body & e & -> & Hacc & ->)
          |[(i & j & j1 & Hfind & Hw & ->)|(i & j & Hfind & _ & _ & ->)]]].
  - done.
  - apply Forall_app. split; [done|]. apply Forall_singleton. by eapply Hnew.
  - apply Forall_insert; [done|].
    pose proof (find_job_elem _ _ _ _ Hfind) as Hj.
    eapply Hwrite; [done| |done]. by apply (proj1 (Forall_forall _ _) Hall).
  - by apply Forall_delete.
Qed.

Lemma job_write_shape ids s ev j j' :
  lifecycle_inv ids s → j ∈ jobs s → job_shape j →
  job_write s ev j j' → job_shape j'.
Proof.
  intros Hinv Hj Hshape Hw.
  destruct Hw as [j Hrun|h now c j Hc Hid|h rnd now c j Hc Hid Hrun Hp
                 |h rnd now c j Hc Hid Hrun Hp].
  - destruct Hshape as [(Hq & _)|[(_ & ? & ? & ?)|(Hq & _)]];
      [congruence| |congruence].
    right; left. simpl. auto.
  - destruct (start_finds_queued _ _ _ _ _ Hinv Hc Hj Hid) as [Hq _].
    destruct Hshape as [(_ & Hp & _ & Hcomp)|[([?|?] & _)|(? & _)]];
      [|congruence..].
    right; left. simpl. rewrite Hp. split_and!; [by left|done|by eexists|done].
  - destruct Hshape as [(Hq & _)|[(_ & ? & ? & ?)|(Hq & _)]];
      [congruence| |congruence].
    right; left. simpl. split_and!; [by left| |done..].
    apply Qnot_le_lt. intros Hle%Qle_bool_iff. congruence.
  - destruct Hshape as [(Hq & _)|[(_ & ? & ? & ?)|(Hq & _)]];
      [congruence| |congruence].
    right; right. simpl. split_and!; [done| |done|by eexists].
    apply Qle_antisym; [apply Q.le_min_r|by apply Qle_bool_iff].
Qed.

Lemma run_shape tr :
  NoDup (issued tr) → Forall job_shape (jobs (run initial tr)).
Proof.
  induction tr as [|ev tr IH] using rev_ind; intros Hnd; [by constructor|].
  rewrite issued_app in Hnd. apply NoDup_app in Hnd as (Hnd & _ & _).
  rewrite run_snoc. apply step_Forall; [| |by apply IH].
  - intros body e _ _. by left.
  - intros j j' Hj Hshape Hw.
    eapply job_write_shape; [by apply run_lifecycle|done..].
Qed.

(** X8. In a run whose submissions have distinct ids, a queued job has
    progress 0, a running or cancelled job has progress below 100, and a
    completed job has progress 100. *)
Theorem progress_by_status (tr : list event) (j : Job) :
  NoDup (issued tr) → j ∈ jobs (run initial tr) →
  (status j = "queued" → progress j = 0%Q) ∧
  (status j = "running" ∨ status j = "cancelled" → (progress j < 100)%Q) ∧
  (status j = "completed" → (progress j == 100)%Q).
Proof.
  intros Hnd Hj.
  pose proof (proj1 (Forall_forall _ _) (run_shape tr Hnd) j Hj) as Hshape.
  destruct Hshape as [(Hq & ? & _)|[(Hs & ? & _)|(Hc & ? & _)]].
  - split_and!; [done|intros [?|?]; congruence|congruence].
  - split_and!; [destruct Hs; congruence|done|destruct Hs; congruence].
  - split_and!; [congruence|intros [?|?]; congruence|done].
Qed.

Lemma progress_by_status_witness :
  (status completed_job = "queued" → progress completed_job = 0%Q) ∧
  (status completed_job = "running" ∨ status completed_job = "cancelled" →
   (progress completed_job < 100)%Q) ∧
  (status completed_job = "completed" → (progress completed_job == 100)%Q).
Proof.
  apply (progress_by_status completed_run completed_job).
  - vm_compute. apply NoDup_singleton.
  - apply list_elem_of_lookup_2 with 0%nat. vm_compute. reflexivity.
Defined.

(** X9. In such a run [started_at] is set exactly on the jobs that have
    left the queue, and [completed_at] exactly on the completed jobs; a
    cancelled job keeps [completed_at] unset. *)
Theorem timestamps_by_status (tr : list event) (j : Job) :
  NoDup (issued tr) → j ∈ jobs (run initial tr) →
  (is_Some (started_at j) ↔ status j ≠ "queued") ∧
  (is_Some (completed_at j) ↔ status j = "completed").
Proof.
  intros Hnd Hj.
  pose proof (proj1 (Forall_forall _ _) (run_shape tr Hnd) j Hj) as Hshape.
  destruct Hshape as [(Hq & _ & Hs & Hc)|[(Hst & _ & Hs & Hc)|(Hst & _ & Hs & Hc)]].
  - rewrite Hq, Hs, Hc. split; split; try done; by intros [? ?].
  - rewrite Hc. split; split;
      first [done | by intros [? ?] | intros; destruct Hst; congruence].
  - rewrite Hst. split; split; done.
Qed.

Lemma timestamps_by_status_witness :
  (is_Some (started_at cancelled_sample) ↔ status cancelled_sample ≠ "queued") ∧
  (is_Some (completed_at cancelled_sample)
   ↔ status cancelled_sample = "completed").
Proof.
  apply (timestamps_by_status (ticked_once ++ [EvDelete sample_jobId])
           cancelled_sample).
  - vm_compute. apply NoDup_singleton.
  - apply list_elem_of_lookup_2 with 0%nat. vm_compute. reflexivity.
Defined.

(** ** The pending timers *)

Lemma closure_matches_insert (l : list Job) (i : nat) j0 y c :
  l !! i = Some j0 → id y = id j0 → toolkit y = toolkit j0 →
  closure_matches l c → closure_matches (<[i := y]> l) c.
Proof.
  intros Hi Hid Htk Hm j Hj Hc.
  apply elem_of_insert_inv in Hj as [->|Hj]; [|by apply Hm].
  rewrite Htk. apply Hm; [exact (list_elem_of_lookup_2 _ _ _ Hi)|congruence].
Qed.

Lemma closure_matches_delete (l : list Job) (i : nat) c :
  closure_matches l c → closure_matches (delete i l) c.
Proof. intros Hm j Hj%list_elem_of_delete_inv. by apply Hm. Qed.

Lemma timers_inv_initial : timers_inv [] initial.
Proof.
  split; simpl; try done.
  intros j Hj. by apply not_elem_of_nil in Hj.
Qed.

Section timers_steps.
Context (ids : list string) (s : server).
Hypothesis Hinv : lifecycle_inv ids s.
Hypothesis Htim : timers_inv ids s.

Lemma submit_timers body e :
  accepted body = true →
  make_jobId (now_id e) (random36 e) ∉ ids →
  timers_inv (ids ++ [make_jobId (now_id e) (random36 e)])
    (submit s body e).1.
Proof.
  pose proof Hinv as [H1 H2 H3 H4 H5].
  pose proof Htim as [T1 T2 T3 T4 T5 T6 T7]. intros Hacc Hfresh.
  rewrite (submit_accepted s body e Hacc). simpl.
  set (x := make_jobId (now_id e) (random36 e)) in *.
  assert (Hold : ∀ j, j ∈ jobs s → id j ≠ x).
  { intros j Hj Heq. apply Hfresh. rewrite <- Heq.
    by apply (proj1 (Forall_forall _ _) H1). }
  assert (Hnew : ∀ c, c_jobId c ∈ ids → closure_matches (jobs s) c →
            closure_matches (jobs s ++ [new_job (jobs s) body e]) c).
  { intros c Hc Hm j [Hj|Hj%list_elem_of_singleton]%elem_of_app Hid;
      [by apply Hm|].
    subst j. change (x = c_jobId c) in Hid. destruct Hfresh. by rewrite Hid. }
  split; simpl.
  - intros h c Hc. apply elem_of_app. left. by eapply T1.
  - intros h c. rewrite lookup_insert. case_decide.
    + intros [= <-] j [Hj|Hj%list_elem_of_singleton]%elem_of_app Hid.
      * by destruct (Hold j Hj).
      * by subst j.
    + intros Hc. apply Hnew; [by eapply H2|by eapply T2].
  - intros h c Hc. apply Hnew; [by eapply T1|by eapply T3].
  - intros h c. rewrite lookup_insert. case_decide.
    + intros _. lia.
    + intros Hc. specialize (T4 h c Hc). lia.
  - intros h c Hc. specialize (T5 h c Hc). lia.
  - intros j [Hj|Hj%list_elem_of_singleton]%elem_of_app Hrun.
    + by apply T6.
    + by subst j.
  - apply Forall_app. split; [done|]. by apply Forall_singleton.
Qed.

Lemma delete_timers jobId : timers_inv ids (delete_job s jobId).1.
Proof.
  pose proof Htim as [T1 T2 T3 T4 T5 T6 T7]. unfold delete_job.
  destruct (find_job (jobs s) jobId) as [[i j]|] eqn:Hfind; [|done].
  apply find_job_Some in Hfind as [Hi _].
  destruct (String.eqb (status j) "running") eqn:Hst; simpl.
  - split; simpl; try done.
    + intros h c Hc. apply (closure_matches_insert _ _ j); try done.
      by eapply T2.
    + intros h c Hc. apply (closure_matches_insert _ _ j); try done.
      by eapply T3.
    + intros j' Hj' Hrun.
      apply elem_of_insert_inv in Hj' as [->|Hj']; [done|by apply T6].
    + by apply Forall_insert.
  - split; simpl; try done.
    + intros h c Hc. apply closure_matches_delete. by eapply T2.
    + intros h c Hc. apply closure_matches_delete. by eapply T3.
    + intros j' Hj'%list_elem_of_delete_inv. by apply T6.
    + by apply Forall_delete.
Qed.

Lemma timeout_timers h now : timers_inv ids (fire_timeout s h now).
Proof.
  pose proof Hinv as [H1 H2 H3 H4 H5].
  pose proof Htim as [T1 T2 T3 T4 T5 T6 T7]. unfold fire_timeout.
  destruct (timeouts s !! h) as [c|] eqn:Hc; [|done].
  unfold start_callback. simpl.
  destruct (find_job (jobs s) (c_jobId c)) as [[i j]|] eqn:Hfind.
  - apply find_job_Some in Hfind as [Hi Hid].
    split; simpl.
    + intros h' c'. rewrite lookup_insert. case_decide.
      * intros [= <-]. by eapply H2.
      * apply T1.
    + intros h' c' [_ Hc']%lookup_delete_Some.
      apply (closure_matches_insert _ _ j); try done. by eapply T2.
    + intros h' c'. rewrite lookup_insert. case_decide.
      * intros [= <-]. apply (closure_matches_insert _ _ j); try done.
        by eapply T2.
      * intros Hc'. apply (closure_matches_insert _ _ j); try done.
        by eapply T3.
    + intros h' c' [_ Hc']%lookup_delete_Some. specialize (T4 h' c' Hc'). lia.
    + intros h' c'. rewrite lookup_insert. case_decide.
      * intros _. lia.
      * intros Hc'. specialize (T5 h' c' Hc'). lia.
    + intros j' Hj' Hrun. apply elem_of_insert_inv in Hj' as [->|Hj'].
      * exists (next_timer s), c. by rewrite lookup_insert_eq.
      * destruct (T6 j' Hj' Hrun) as (h' & c' & Hc' & Hid').
        exists h', c'. split; [|done].
        rewrite lookup_insert_ne; [done|]. specialize (T5 h' c' Hc'). lia.
    + by apply Forall_insert.
  - split; simpl; try done.
    + intros h' c' [_ Hc']%lookup_delete_Some. by eapply T2.
    + intros h' c' [_ Hc']%lookup_delete_Some. by eapply T4.
Qed.

Lemma interval_timers h rnd now : timers_inv ids (fire_interval s h rnd now).
Proof.
  pose proof Hinv as [H1 H2 H3 H4 H5].
  pose proof Htim as [T1 T2 T3 T4 T5 T6 T7]. unfold fire_interval.
  destruct (intervals s !! h) as [c|] eqn:Hc; [|done].
  assert (Hcleared : ∀ h' c', delete h (intervals s) !! h' = Some c' →
                              intervals s !! h' = Some c').
  { by intros h' c' [_ ?]%lookup_delete_Some. }
  assert (Hstopped :
    (∀ j, j ∈ jobs s → id j = c_jobId c → status j ≠ "running") →
    timers_inv ids (clearInterval s h)).
  { intros Hnot. split; simpl; try done; eauto.
    intros j Hj Hrun. destruct (T6 j Hj Hrun) as (h' & c' & Hc' & Hid').
    exists h', c'. split; [|done]. apply lookup_delete_Some. split; [|done].
    intros <-. apply (Hnot j Hj); [congruence|done]. }
  unfold progress_callback.
  destruct (find_job (jobs s) (c_jobId c)) as [[i j]|] eqn:Hfind.
  - pose proof (find_job_elem _ _ _ _ Hfind) as Hj.
    apply find_job_Some in Hfind as [Hi Hid].
    assert (Honly : ∀ j', j' ∈ jobs s → id j' = c_jobId c → j' = j).
    { intros j' Hj' Hid'. apply (nodup_ids_same_job (jobs s)); try done.
      congruence. }
    destruct (String.eqb_spec (status j) "running") as [Hrun|Hrun].
    + destruct (Qle_bool 100 _) eqn:Hdone.
      * (* completed *)
        assert (Hcompleted : timers_inv ids
                  (clearInterval
                     (with_jobs s
                        (<[i := set_results
                                  (set_completed_at
                                     (set_status
                                        (set_progress j
                                           (Qmin (progress j + rnd * 20) 100))
                                        "completed") now)
                                  (generateMockResults (c_toolkit c))]>
                           (jobs s))) h));
          [|destruct (generateMockResults (c_toolkit c)) eqn:Hgen;
            [exact Hcompleted..|by split]].
        split; simpl; eauto.
        -- intros h' c' Hc'.
           apply (closure_matches_insert _ _ j); try done. by eapply T2.
        -- intros h' c' Hc'%Hcleared.
           apply (closure_matches_insert _ _ j); try done. by eapply T3.
        -- intros j' Hin Hrun'.
           pose proof Hin as Hj'.
           apply elem_of_insert_inv in Hj' as [->|Hj']; [done|].
           destruct (T6 j' Hj' Hrun') as (h' & c' & Hc' & Hid').
           exists h', c'. split; [|done].
           apply lookup_delete_Some. split; [|done]. intros <-.
           assert (c' = c) as -> by congruence.
           rewrite (Honly j' Hj' (eq_sym Hid')) in *.
           assert (Hnd : NoDup (id <$> <[i := set_results
                     (set_completed_at
                        (set_status
                           (set_progress j
                              (Qmin (progress j + rnd * 20) 100))
                           "completed") now)
                     (generateMockResults (c_toolkit c))]> (jobs s))).
           { by rewrite (nodup_ids_insert _ _ j). }
           assert (Hin4 : set_results
                     (set_completed_at
                        (set_status
                           (set_progress j
                              (Qmin (progress j + rnd * 20) 100))
                           "completed") now)
                     (generateMockResults (c_toolkit c))
                   ∈ <[i := set_results
                     (set_completed_at
                        (set_status
                           (set_progress j
                              (Qmin (progress j + rnd * 20) 100))
                           "completed") now)
                     (generateMockResults (c_toolkit c))]> (jobs s)).
           { apply list_elem_of_insert. by eapply lookup_lt_Some. }
           pose proof (nodup_ids_same_job _ _ _ Hnd Hin Hin4 eq_refl) as Heq.
           rewrite Heq in Hrun'. done.
        -- apply Forall_insert; [done|]. simpl. intros _.
           f_equal. f_equal. symmetry. by eapply T3; [done..|].
      * (* still running *)
        split; simpl; eauto.
        -- intros h' c' Hc'.
           apply (closure_matches_insert _ _ j); try done. by eapply T2.
        -- intros h' c' Hc'.
           apply (closure_matches_insert _ _ j); try done. by eapply T3.
        -- intros j' Hj' Hrun'.
           apply elem_of_insert_inv in Hj' as [->|Hj']; [|by apply T6].
           by exists h, c.
        -- apply Forall_insert; [done|]. simpl. intros ?. congruence.
    + apply Hstopped. intros j' Hj' Hid'. by rewrite (Honly j' Hj' Hid').
  - apply Hstopped. intros j' Hj' Hid'.
    apply list_find_None in Hfind.
    by destruct (proj1 (Forall_forall _ _) Hfind j' Hj').
Qed.

Lemma step_timers ev :
  (∀ x, issued_id ev = Some x → x ∉ ids) →
  timers_inv (ids ++ issued [ev]) (step s ev).
Proof.
  intros Hfresh. unfold step. destruct (alive s).
  2: { pose proof Htim as [T1 T2 T3 T4 T5 T6 T7]. split; try done.
       intros h c Hc. apply elem_of_app. left. by eapply T1. }
  destruct ev as [body e|jobId|h now|h rnd now];
    unfold issued; simpl.
  - destruct (accepted body) eqn:Hacc; simpl.
    + apply submit_timers; [done|]. apply Hfresh. simpl. by rewrite Hacc.
    + destruct (submit_cases s body e) as [[_ ->]|[? _]]; [|congruence].
      by rewrite app_nil_r.
  - rewrite app_nil_r. apply delete_timers.
  - rewrite app_nil_r. apply timeout_timers.
  - rewrite app_nil_r. apply interval_timers.
Qed.

End timers_steps.

Lemma run_timers tr :
  NoDup (issued tr) → timers_inv (issued tr) (run initial tr).
Proof.
  induction tr as [|ev tr IH] using rev_ind; intros Hnd.
  - apply timers_inv_initial.
  - rewrite issued_app in *. rewrite run_snoc.
    pose proof (proj1 (NoDup_app _ _) Hnd) as (Hnd' & Hfresh & _).
    apply step_timers; [by apply run_lifecycle|by apply IH|].
    intros x Hx Hin. apply (Hfresh x Hin).
    unfold issued. simpl. rewrite Hx. by apply list_elem_of_singleton.
Qed.

(** X10. In a run whose submissions have distinct ids, the results of a
    completed job are the ones [generateMockResults] yields for the job's
    own toolkit. *)
Theorem completed_results_for_own_toolkit (tr : list event) (j : Job) :
  NoDup (issued tr) → j ∈ jobs (run initial tr) →
  status j = "completed" →
  results j = Some (generateMockResults (toolkit j)).
Proof.
  intros Hnd Hj.
  apply (proj1 (Forall_forall _ _) (ti_results _ _ (run_timers tr Hnd)) j Hj).
Qed.

Lemma completed_results_for_own_toolkit_witness :
  results completed_job = Some (generateMockResults (toolkit completed_job)).
Proof.
  apply (completed_results_for_own_toolkit completed_run completed_job).
  - vm_compute. apply NoDup_singleton.
  - apply list_elem_of_lookup_2 with 0%nat. vm_compute. reflexivity.
  - vm_compute. reflexivity.
Defined.

(** X11. In such a run every running job has a periodic timer registered
    whose callback looks up this job and carries its toolkit: no job is left
    running without ticks. *)
Theorem running_job_has_interval (tr : list event) (j : Job) :
  NoDup (issued tr) → j ∈ jobs (run initial tr) →
  status j = "running" →
  ∃ h c, intervals (run initial tr) !! h = Some c ∧
         c_jobId c = id j ∧ c_toolkit c = toolkit j.
Proof.
  intros Hnd Hj Hrun.
  pose proof (run_timers tr Hnd) as Htim.
  destruct (ti_running_ticks _ _ Htim j Hj Hrun) as (h & c & Hc & Hid).
  exists h, c. split_and!; [done..|].
  symmetry. by eapply (ti_intervals_match _ _ Htim).
Qed.

Lemma running_job_has_interval_witness :
  ∃ h c, intervals (run initial ticked_once) !! h = Some c ∧
         c_jobId c = id job_ticked_once ∧
         c_toolkit c = toolkit job_ticked_once.
Proof.
  apply (running_job_has_interval ticked_once job_ticked_once).
  - vm_compute. apply NoDup_singleton.
  - apply list_elem_of_lookup_2 with 0%nat. vm_compute. reflexivity.
  - vm_compute. reflexivity.
Defined.

(** ** How long a job takes *)

Lemma count_ticks_app tr1 tr2 :
  count_ticks (tr1 ++ tr2) = count_ticks tr1 + count_ticks tr2.
Proof.
  induction tr1 as [|[] tr1 IH]; simpl; auto.
Qed.

Lemma Q_of_nat_S n : (Q_of_nat (S n) == Q_of_nat n + 1)%Q.
Proof.
  unfold Q_of_nat. rewrite Nat2Z.inj_succ, <- Z.add_1_r.
  by rewrite inject_Z_plus.
Qed.

Lemma Q_of_nat_nonneg n : (0 <= Q_of_nat n)%Q.
Proof.
  unfold Q_of_nat. change 0%Q with (inject_Z 0). rewrite <- Zle_Qle. lia.
Qed.

Lemma progress_within_S n j : progress_within n j → progress_within (S n) j.
Proof.
  intros [[H|H] Hc]; (split; [|done]); [by left|right].
  pose proof (Q_of_nat_S n). lra.
Qed.

(** The two-predicate form of [step_Forall]: the jobs a step leaves alone
    pass from [P] to [Q], the job it writes passes from [P] to [Q], and the
    job it appends has [Q]. *)
Lemma step_Forall_impl (P Q : Job → Prop) s ev :
  (∀ j, P j → Q j) →
  (∀ body e, ev = EvSubmit body e → accepted body = true →
             Q (new_job (jobs s) body e)) →
  (∀ j j', j ∈ jobs s → P j → job_write s ev j j' → Q j') →
  Forall P (jobs s) → Forall Q (jobs (step s ev)).
Proof.
  intros Himpl Hnew Hwrite Hall.
  assert (HallQ : Forall Q (jobs s)) by (eapply Forall_impl; eauto).
  destruct (step_jobs_cases s ev)
    as [->|[(body & e & -> & Hacc & ->)
          |[(i & j & j1 & Hfind & Hw & ->)|(i & j & Hfind & _ & _ & ->)]]].
  - done.
  - apply Forall_app. split; [done|]. apply Forall_singleton. by eapply Hnew.
  - apply Forall_insert; [done|].
    pose proof (find_job_elem _ _ _ _ Hfind) as Hj.
    eapply Hwrite; [done| |done]. by apply (proj1 (Forall_forall _ _) Hall).
  - by apply Forall_delete.
Qed.

Lemma step_progress_within n s ev :
  random_ok ev → Forall (progress_within n) (jobs s) →
  Forall (progress_within (n + count_ticks [ev])) (jobs (step s ev)).
Proof.
  intros Hrnd. apply step_Forall_impl.
  - intros j Hj. destruct ev; simpl; rewrite ?Nat.add_0_r, ?Nat.add_1_r;
      auto using progress_within_S.
  - intros body e -> _. simpl. rewrite Nat.add_0_r.
    split; [by left|done].
  - intros j j' _ [Hp Hc] Hw.
    destruct Hw as [j Hrun|h now c j Hc' Hid|h rnd now c j Hc' Hid Hrun Hdone
                   |h rnd now c j Hc' Hid Hrun Hdone];
      simpl; rewrite ?Nat.add_0_r, ?Nat.add_1_r.
    + split; [done|]. simpl. congruence.
    + split; [done|]. simpl. congruence.
    + destruct Hrnd as [_ H1]. split; simpl; [|congruence]. right.
      pose proof (Q.le_min_l (progress j + rnd * 20) 100).
      pose proof (Q_of_nat_S n). pose proof (Q_of_nat_nonneg n).
      unfold ticked_progress. destruct Hp; lra.
    + destruct Hrnd as [_ H1]. split; simpl; [|by intros _; apply Qle_bool_iff].
      right.
      pose proof (Q.le_min_l (progress j + rnd * 20) 100).
      pose proof (Q_of_nat_S n). pose proof (Q_of_nat_nonneg n).
      unfold ticked_progress. destruct Hp; lra.
Qed.

Lemma run_progress_within tr :
  Forall random_ok tr →
  Forall (progress_within (count_ticks tr)) (jobs (run initial tr)).
Proof.
  induction tr as [|ev tr IH] using rev_ind; intros Hrnd; [by constructor|].
  apply Forall_app in Hrnd as [Hrnd Hev].
  rewrite run_snoc, count_ticks_app.
  apply step_progress_within; [by inversion Hev|by apply IH].
Qed.

(** X13. Each tick adds less than 20 to the progress, so a job is never
    completed before the periodic timers have fired at least six times. *)
Theorem completion_needs_six_ticks (tr : list event) (j : Job) :
  Forall random_ok tr → j ∈ jobs (run initial tr) →
  status j = "completed" → (6 ≤ count_ticks tr)%nat.
Proof.
  intros Hrnd Hj Hdone.
  destruct (proj1 (Forall_forall _ _) (run_progress_within tr Hrnd) j Hj)
    as [Hp Hc].
  specialize (Hc Hdone).
  destruct Hp as [Hp|Hp]; [lra|].
  assert (Hlt : (inject_Z 5 < inject_Z (Z.of_nat (count_ticks tr)))%Q).
  { change (inject_Z 5) with 5%Q. fold (Q_of_nat (count_ticks tr)). lra. }
  rewrite <- Zlt_Qlt in Hlt. lia.
Qed.

Lemma completion_needs_six_ticks_witness : (6 ≤ count_ticks completed_run)%nat.
Proof.
  apply (completion_needs_six_ticks completed_run completed_job).
  - solve_random_ok.
  - apply list_elem_of_lookup_2 with 0%nat. vm_compute. reflexivity.
  - vm_compute. reflexivity.
Defined.

(** ** Get, submit and delete together *)

(** X1. Get answers 200 with the first job of the registry that has the
    requested id, and answers 404 "Job not found" exactly when no job has
    it. *)
Theorem get_job_first_match (s : server) (jobId : string) :
  (∀ code j, get_job s jobId = Ok code j →
     code = 200%nat ∧ id j = jobId ∧
     ∃ i, jobs s !! i = Some j ∧
          ∀ k y, jobs s !! k = Some y → k < i → id y ≠ jobId) ∧
  (get_job s jobId = Err 404 not_found ↔ ∀ j, j ∈ jobs s → id j ≠ jobId) ∧
  (∀ code msg, get_job s jobId = Err code msg →
     code = 404%nat ∧ msg = not_found).
Proof.
  unfold get_job, find_job. split_and!.
  - intros code j.
    destruct (list_find _ (jobs s)) as [[i y]|] eqn:Hfind; [|done].
    intros [= <- <-]. apply list_find_Some in Hfind as (Hi & Hid & Hfirst).
    split_and!; [done..|]. by exists i.
  - destruct (list_find _ (jobs s)) as [[i y]|] eqn:Hfind.
    + apply list_find_Some in Hfind as (Hi & Hid & _).
      split; [done|]. intros Hnone.
      by destruct (Hnone y (list_elem_of_lookup_2 _ _ _ Hi)).
    + split; [|done]. intros _.
      apply list_find_None in Hfind. by apply Forall_forall.
  - intros code msg.
    destruct (list_find _ (jobs s)) as [[i y]|]; [done|].
    by intros [= <- <-].
Qed.

Lemma get_job_first_match_witness :
  get_job two_jobs "list" = Err 404 not_found.
Proof.
  apply (proj1 (proj2 (get_job_first_match two_jobs "list"))).
  intros j Hj. vm_compute in Hj.
  apply elem_of_cons in Hj as [->|Hj]; [discriminate|].
  apply elem_of_cons in Hj as [->|Hj]; [discriminate|].
  by apply not_elem_of_nil in Hj.
Defined.

(** X2. After an accepted submission, get on the new id returns exactly
    the job of the response, provided no older job has that id; and get on
    every id that already had a job answers as before. *)
Theorem submit_then_get
    (s s' : server) (body : gmap string js_value) (e : submit_env)
    (code : nat) (j : Job) :
  submit s body e = (s', Ok code j) →
  ((∀ old, old ∈ jobs s → id old ≠ id j) → get_job s' (id j) = Ok 200 j) ∧
  (∀ x old, old ∈ jobs s → id old = x → get_job s' x = get_job s x).
Proof.
  intros Hsub.
  destruct (submit_cases s body e) as [[_ Heq]|[_ Heq]];
    rewrite Heq in Hsub; [done|]. injection Hsub as <- _ <-.
  unfold get_job. simpl. split.
  - intros Hfresh. unfold find_job.
    rewrite list_find_app_r by (by apply find_job_absent).
    simpl. by rewrite decide_True.
  - intros x old Hold Hid.
    destruct (list_find_elem_of (λ y, id y = x) (jobs s) old Hold Hid)
      as [[i y] Hfind].
    unfold find_job. by rewrite (list_find_app_l _ _ _ _ _ Hfind), Hfind.
Qed.

Lemma submit_then_get_witness :
  get_job two_jobs (id (new_job (jobs (submit initial sample_body sample_env).1)
                          sample_body later_env))
    = Ok 200 (new_job (jobs (submit initial sample_body sample_env).1)
                sample_body later_env).
Proof.
  apply (proj1 (submit_then_get (submit initial sample_body sample_env).1
                  two_jobs sample_body later_env 201 _
                  ltac:(vm_compute; reflexivity))).
  intros old Hold. vm_compute in Hold.
  apply elem_of_cons in Hold as [->|Hold]; [discriminate|].
  by apply not_elem_of_nil in Hold.
Defined.

Lemma get_job_absent s jobId :
  (∀ j, j ∈ jobs s → id j ≠ jobId) → get_job s jobId = Err 404 not_found.
Proof. intros Hnone. unfold get_job. by rewrite find_job_absent. Qed.

Lemma find_job_delete_none (l : list Job) (k : nat) jobId :
  find_job l jobId = None → find_job (delete k l) jobId = None.
Proof.
  intros Hnone. apply find_job_absent. intros y Hy%list_elem_of_delete_inv.
  apply list_find_None in Hnone.
  apply (proj1 (Forall_forall _ _) Hnone y Hy).
Qed.

(** X3. Delete touches one id only: for every other id, get answers after
    the delete what it answered before. *)
Theorem delete_leaves_other_ids (s : server) (jobId other : string) :
  other ≠ jobId →
  get_job (delete_job s jobId).1 other = get_job s other.
Proof.
  intros Hne. unfold delete_job, get_job.
  destruct (find_job (jobs s) jobId) as [[i j]|] eqn:Hfind; [|done].
  pose proof (find_job_Some _ _ _ _ Hfind) as [Hi Hid].
  assert (Hidne : id j ≠ other) by congruence.
  destruct (String.eqb (status j) "running"); simpl.
  - destruct (find_job (jobs s) other) as [[k y]|] eqn:Hother.
    + by rewrite (find_job_insert_other _ _ _ j (set_status j "cancelled")
                    _ _ Hi eq_refl Hidne Hother).
    + rewrite (find_job_insert_same_id _ _ j) by done. by rewrite Hother.
  - destruct (find_job (jobs s) other) as [[k y]|] eqn:Hother.
    + by destruct (find_job_delete_other _ _ _ _ _ _ Hi Hidne Hother) as [? ->].
    + by rewrite find_job_delete_none.
Qed.

Lemma delete_leaves_other_ids_witness :
  get_job (delete_job two_jobs sample_jobId).1 "job_1700000000250_k3x9q0a7c"
    = get_job two_jobs "job_1700000000250_k3x9q0a7c".
Proof.
  apply (delete_leaves_other_ids two_jobs sample_jobId). discriminate.
Defined.

(** X4. In a registry with distinct ids, deleting a running job twice
    first cancels it and then removes it: the second delete answers "Job
    deleted", the registry is one record shorter, and get answers 404. *)
Theorem delete_twice_removes (s : server) (j : Job) :
  NoDup (id <$> jobs s) → j ∈ jobs s → status j = "running" →
  (delete_job s (id j)).2
    = Ok 200 (mkDeleteBody "Job cancelled" (Some (set_status j "cancelled"))) ∧
  (delete_job (delete_job s (id j)).1 (id j)).2
    = Ok 200 (mkDeleteBody "Job deleted" None) ∧
  S (length (jobs (delete_job (delete_job s (id j)).1 (id j)).1))
    = length (jobs s) ∧
  get_job (delete_job (delete_job s (id j)).1 (id j)).1 (id j)
    = Err 404 not_found.
Proof.
  intros Hnd Hj Hrun.
  destruct (find_job_unique _ _ Hnd Hj) as [i Hfind].
  pose proof (find_job_Some _ _ _ _ Hfind) as [Hi _].
  assert (Hfirst : delete_job s (id j)
            = (with_jobs s (<[i := set_status j "cancelled"]> (jobs s)),
               Ok 200 (mkDeleteBody "Job cancelled"
                         (Some (set_status j "cancelled"))))).
  { unfold delete_job. by rewrite Hfind, Hrun. }
  rewrite Hfirst. simpl.
  assert (Hfind' : find_job (<[i := set_status j "cancelled"]> (jobs s)) (id j)
            = Some (i, set_status j "cancelled")).
  { rewrite (find_job_insert_same_id _ _ j) by done.
    rewrite Hfind. simpl. by rewrite decide_True. }
  unfold delete_job, get_job. simpl. rewrite Hfind'. simpl.
  split_and!; [done|done| |].
  - rewrite length_delete, length_insert.
    + apply lookup_lt_Some in Hi. lia.
    + rewrite list_lookup_insert_eq; [by eexists|by eapply lookup_lt_Some].
  - change (id j) with (id (set_status j "cancelled")).
    rewrite find_job_deleted; [done| |].
    + by rewrite (nodup_ids_insert _ _ j).
    + apply list_lookup_insert_eq. by eapply lookup_lt_Some.
Qed.

Lemma delete_twice_removes_witness :
  (delete_job one_running (id job_started)).2
    = Ok 200 (mkDeleteBody "Job cancelled"
                (Some (set_status job_started "cancelled"))) ∧
  (delete_job (delete_job one_running (id job_started)).1 (id job_started)).2
    = Ok 200 (mkDeleteBody "Job deleted" None) ∧
  S (length (jobs (delete_job (delete_job one_running (id job_started)).1
                     (id job_started)).1))
    = length (jobs one_running) ∧
  get_job (delete_job (delete_job one_running (id job_started)).1
             (id job_started)).1 (id job_started)
    = Err 404 not_found.
Proof.
  apply (delete_twice_removes one_running job_started).
  - vm_compute. apply NoDup_singleton.
  - apply list_elem_of_lookup_2 with 0%nat. vm_compute. reflexivity.
  - reflexivity.
Defined.

(** X5. In a run whose submissions have distinct ids, a job that delete
    has removed does not come back: whatever happens afterwards (its start
    timer firing, ticks, other submissions), get on its id answers 404. *)
Theorem deleted_job_never_returns
    (before after : list event) (jobId : string) (s' : server) :
  NoDup (issued (before ++ after)) →
  delete_job (run initial before) jobId
    = (s', Ok 200 (mkDeleteBody "Job deleted" None)) →
  get_job (run s' after) jobId = Err 404 not_found.
Proof.
  intros Hnd Hdel. rewrite issued_app in Hnd.
  pose proof (proj1 (NoDup_app _ _) Hnd) as (Hnd1 & Hfresh & _).
  pose proof (run_lifecycle before Hnd1) as Hinv.
  unfold delete_job in Hdel.
  destruct (find_job (jobs (run initial before)) jobId) as [[i j]|] eqn:Hfind;
    [|done].
  pose proof (find_job_Some _ _ _ _ Hfind) as [Hi Hid].
  destruct (String.eqb (status j) "running"); [done|].
  injection Hdel as <-.
  assert (Hissued : jobId ∈ issued before).
  { rewrite <- Hid.
    apply (proj1 (Forall_forall _ _) (inv_jobs_issued _ _ Hinv) j).
    by eapply list_elem_of_lookup_2. }
  assert (Hgone : ∀ y, y ∈ jobs (with_jobs (run initial before)
                                  (delete i (jobs (run initial before)))) →
                       id y ≠ jobId).
  { intros y Hy Hy'. simpl in Hy.
    pose proof (find_job_deleted _ _ _ (inv_ids_nodup _ _ Hinv) Hi) as Hnone.
    apply list_find_None in Hnone.
    apply (proj1 (Forall_forall _ _) Hnone y Hy). congruence. }
  clear Hfind Hi Hnd. revert Hgone Hfresh.
  generalize (with_jobs (run initial before)
                (delete i (jobs (run initial before)))).
  induction after as [|ev after IH]; intros s Hgone Hfresh.
  - by apply get_job_absent.
  - change (run s (ev :: after)) with (run (step s ev) after).
    apply IH.
    + intros y Hy Hy'.
      destruct (step_job_ids s ev y Hy) as [(y0 & Hy0 & Heq)|Hnew].
      * apply (Hgone y0 Hy0). congruence.
      * apply (Hfresh jobId Hissued). rewrite issued_cons.
        apply elem_of_app. left. unfold issued. simpl. rewrite Hnew, Hy'.
        by apply list_elem_of_singleton.
    + intros x Hx Hin. apply (Hfresh x Hx).
      rewrite issued_cons. apply elem_of_app. by right.
Qed.

Lemma deleted_job_never_returns_witness :
  get_job (run (delete_job (run initial [EvSubmit sample_body sample_env])
                  sample_jobId).1
             [EvTimeout 0 1700000002000; EvSubmit sample_body later_env;
              EvTimeout 1 1700000002250; EvInterval 2 (1 # 2) 1700000003250])
      sample_jobId
    = Err 404 not_found.
Proof.
  apply (deleted_job_never_returns [EvSubmit sample_body sample_env]).
  - vm_compute. apply NoDup_cons. split; [|apply NoDup_singleton].
    intros Hin%list_elem_of_singleton. discriminate.
  - vm_compute. reflexivity.
Defined.

(** ** Defaults and statuses *)

Lemma run_Forall (P : Job → Prop) :
  (∀ l body e, accepted body = true → P (new_job l body e)) →
  (∀ s ev j j', P j → job_write s ev j j' → P j') →
  ∀ tr, Forall P (jobs (run initial tr)).
Proof.
  intros Hnew Hwrite tr.
  induction tr as [|ev tr IH] using rev_ind; [by constructor|].
  rewrite run_snoc. apply step_Forall; [| |done].
  - intros body e _. apply Hnew.
  - intros j j' _. apply Hwrite.
Qed.

(** X19. Every job of every run has its optional fields filled in:
    [input_files] is truthy (the empty array stands in for an absent or
    falsy one) and [priority] is never undefined. *)
Theorem optional_fields_defaulted (tr : list event) (j : Job) :
  j ∈ jobs (run initial tr) →
  truthy (input_files j) = true ∧ priority j ≠ JUndefined.
Proof.
  intros Hj.
  assert (Hall : Forall defaults_applied (jobs (run initial tr))).
  { apply run_Forall.
    - intros l body e _. split; simpl.
      + by destruct (truthy (field body "input_files")) eqn:Htruthy.
      + by destruct (field body "priority").
    - intros s ev y y' Hy Hw. by destruct Hw. }
  apply (proj1 (Forall_forall _ _) Hall j Hj).
Qed.

Lemma optional_fields_defaulted_witness :
  truthy (input_files completed_job) = true ∧
  priority completed_job ≠ JUndefined.
Proof.
  apply (optional_fields_defaulted completed_run completed_job).
  apply list_elem_of_lookup_2 with 0%nat. vm_compute. reflexivity.
Defined.

(** ** Listing, continued *)

Lemma strict_eq_string_true v t : strict_eq_string v t = true ↔ v = JStr t.
Proof.
  destruct v; simpl; try (split; [discriminate|by intros [=]]).
  rewrite String.eqb_eq. split; [by intros ->|by intros [= ->]].
Qed.

Lemma matching_elem s (query : gmap string string) j :
  j ∈ matching s query ↔
  j ∈ jobs s ∧ status_matches (query !! "status") j ∧
  toolkit_matches (query !! "toolkit") j.
Proof.
  unfold matching, filter_status, filter_toolkit, status_matches,
    toolkit_matches.
  destruct (given (query !! "toolkit")) as [t|],
    (given (query !! "status")) as [st|];
    rewrite ?list_elem_of_filter, ?strict_eq_string_true; tauto.
Qed.

Lemma matching_sublist s (query : gmap string string) :
  matching s query `sublist_of` jobs s.
Proof.
  unfold matching, filter_status, filter_toolkit.
  destruct (given (query !! "toolkit")), (given (query !! "status"));
    try done; repeat (etrans; [apply sublist_filter|]); done.
Qed.

(** X14. The page of a list answer is a prefix of the matches, the matches
    are a sublist of the registry (so jobs are listed in creation order,
    none twice), and a job is a match exactly when it is in the registry
    and equals each filter that is given and non-empty: the status filter
    by status, the toolkit filter by a toolkit that is that very string. *)
Theorem list_page_sound (s : server) (query : gmap string string) :
  listed (list_jobs s query) `prefix_of` matching s query ∧
  matching s query `sublist_of` jobs s ∧
  (∀ j, j ∈ matching s query ↔
        j ∈ jobs s ∧ status_matches (query !! "status") j ∧
        toolkit_matches (query !! "toolkit") j) ∧
  (∀ j, j ∈ listed (list_jobs s query) →
        j ∈ jobs s ∧ status_matches (query !! "status") j ∧
        toolkit_matches (query !! "toolkit") j).
Proof.
  assert (Hprefix : listed (list_jobs s query) `prefix_of` matching s query).
  { unfold list_jobs, slice. simpl. apply prefix_take. }
  split_and!; [done|apply matching_sublist|apply matching_elem|].
  intros j Hj. apply matching_elem.
  destruct Hprefix as [rest ->]. apply elem_of_app. by left.
Qed.

(** X15. When the limit reads as a number that is at least the number of
    matches (for an absent limit, when there are at most 50), the page is
    the whole list of matches and [total] is their number. *)
Theorem list_returns_all_matches
    (s : server) (query : gmap string string) (n : Z) :
  parseInt (default default_limit (query !! "limit")) = Some n →
  (Z.of_nat (length (matching s query)) ≤ n)%Z →
  listed (list_jobs s query) = matching s query ∧
  total (list_jobs s query) = length (matching s query).
Proof.
  intros Hparse Hn. unfold list_jobs. simpl. rewrite Hparse.
  rewrite slice_nonneg by lia. rewrite take_ge by lia. done.
Qed.

Lemma list_returns_all_matches_witness :
  listed (list_jobs two_jobs {[ "status" := "queued" ]})
    = matching two_jobs {[ "status" := "queued" ]} ∧
  total (list_jobs two_jobs {[ "status" := "queued" ]})
    = length (matching two_jobs {[ "status" := "queued" ]}).
Proof.
  apply (list_returns_all_matches two_jobs {[ "status" := "queued" ]} 50).
  - vm_compute. reflexivity.
  - vm_compute. discriminate.
Defined.

(** X16. A negative limit counts back from the end: limit [-k] lists all
    matches but the last [k] (none when there are at most [k]), and [total]
    is the number listed; limit 0 lists nothing. *)
Theorem list_negative_limit
    (s : server) (query : gmap string string) (n : Z) :
  parseInt (default default_limit (query !! "limit")) = Some n →
  ((n < 0)%Z →
   listed (list_jobs s query)
     = take (length (matching s query) - Z.to_nat (- n)) (matching s query) ∧
   total (list_jobs s query) = length (matching s query) - Z.to_nat (- n)) ∧
  (n = 0%Z →
   listed (list_jobs s query) = [] ∧ total (list_jobs s query) = 0).
Proof.
  intros Hparse. unfold list_jobs, slice. simpl. rewrite Hparse. simpl.
  split.
  - intros Hn. destruct (Z.ltb_spec n 0) as [_|?]; [|lia].
    replace (Z.to_nat (Z.max (Z.of_nat (length (matching s query)) + n) 0))
      with (length (matching s query) - Z.to_nat (- n)) by lia.
    split; [done|]. rewrite length_take. lia.
  - intros ->. simpl. by destruct (matching s query).
Qed.

Lemma list_negative_limit_witness :
  listed (list_jobs two_jobs {[ "limit" := "-1" ]})
    = take (length (matching two_jobs {[ "limit" := "-1" ]}) - Z.to_nat (- -1))
        (matching two_jobs {[ "limit" := "-1" ]}) ∧
  total (list_jobs two_jobs {[ "limit" := "-1" ]})
    = length (matching two_jobs {[ "limit" := "-1" ]}) - Z.to_nat (- -1).
Proof.
  assert (Hparse : parseInt (default default_limit
                     (({[ "limit" := "-1" ]} : gmap string string) !! "limit"))
                   = Some (-1)%Z) by (vm_compute; reflexivity).
  destruct (list_negative_limit two_jobs {[ "limit" := "-1" ]} (-1) Hparse)
    as [Hneg _].
  apply Hneg. lia.
Defined.

(** ** Stats, continued *)

Lemma filter_all {A} (P : A → Prop) `{!∀ x, Decision (P x)} (l : list A) :
  Forall P l → filter P l = l.
Proof.
  induction 1 as [|x l Hx _ IH]; [done|].
  by rewrite filter_cons_True, IH.
Qed.

Lemma filter_none {A} (P : A → Prop) `{!∀ x, Decision (P x)} (l : list A) :
  Forall (λ x, ¬ P x) l → filter P l = [].
Proof.
  induction 1 as [|x l Hx _ IH]; [done|].
  by rewrite filter_cons_False.
Qed.

Lemma count_by_status (l : list Job) :
  Forall assigned_status l →
  length l = count_status l "completed" + count_status l "running"
             + count_status l "queued" + count_status l "cancelled" ∧
  count_status l "failed" = 0.
Proof.
  unfold count_status.
  induction 1 as [|j l Hj _ [IH1 IH2]]; [done|].
  rewrite !filter_cons.
  destruct Hj as [Hs|[Hs|[Hs|Hs]]]; rewrite Hs; simpl; split; lia.
Qed.

Lemma run_assigned_status tr : Forall assigned_status (jobs (run initial tr)).
Proof.
  apply run_Forall.
  - intros l body e _. by left.
  - intros s ev j j' _ Hw. unfold assigned_status. destruct Hw; simpl; auto.
Qed.

(** X17. In every state the server reaches, stats counts every job in
    exactly one of completed, running, queued or (uncounted in the answer)
    cancelled, and [failed] is 0: the code never assigns that status. So
    [total_jobs] exceeds [completed + running + queued] by the number of
    cancelled jobs. *)
Theorem stats_counts_partition (tr : list event) (up : Q) (now : Z) :
  failed (stats (run initial tr) up now) = 0 ∧
  total_jobs (stats (run initial tr) up now)
    = completed (stats (run initial tr) up now)
      + running (stats (run initial tr) up now)
      + queued (stats (run initial tr) up now)
      + count_status (jobs (run initial tr)) "cancelled".
Proof.
  destruct (count_by_status _ (run_assigned_status tr)) as [Hsum Hfailed].
  done.
Qed.

Lemma toFixed_compat f x y : (x == y)%Q → toFixed f x = toFixed f y.
Proof.
  intros Heq. unfold toFixed, nearest_scaled.
  assert (Hsign : Qle_bool 0 x = Qle_bool 0 y).
  { apply eq_true_iff_eq. rewrite !Qle_bool_iff. by rewrite Heq. }
  rewrite Hsign.
  assert (H1 : Qfloor (x * inject_Z (10 ^ Z.of_nat f) + (1 # 2))
             = Qfloor (y * inject_Z (10 ^ Z.of_nat f) + (1 # 2)))
    by (by rewrite Heq).
  assert (H2 : Qfloor (- x * inject_Z (10 ^ Z.of_nat f) + (1 # 2))
             = Qfloor (- y * inject_Z (10 ^ Z.of_nat f) + (1 # 2)))
    by (by rewrite Heq).
  by rewrite H1, H2.
Qed.

(** X18. On a non-empty registry the success rate is a string, never a
    number: it is "100.00" when every job is completed and "0.00" when none
    is, whereas the empty registry gets the number 100. *)
Theorem success_rate_extremes (s : server) (up : Q) (now : Z) :
  jobs s ≠ [] →
  (∃ text, success_rate (stats s up now) = JStr text) ∧
  (Forall (λ j, status j = "completed") (jobs s) →
   success_rate (stats s up now) = JStr "100.00") ∧
  (Forall (λ j, status j ≠ "completed") (jobs s) →
   success_rate (stats s up now) = JStr "0.00").
Proof.
  intros Hne.
  assert (Hlen : (0 < length (jobs s))%nat).
  { destruct (jobs s); [done|simpl; lia]. }
  assert (Hrate : success_rate (stats s up now)
            = JStr (toFixed 2
                      (round64
                         (round64
                            (Q_of_nat (count_status (jobs s) "completed")
                             / Q_of_nat (length (jobs s)))
                          * 100)))).
  { unfold stats. simpl.
    by destruct (Nat.ltb_spec 0 (length (jobs s))) as [_|?]; [|lia]. }
  assert (Hpos : ¬ (Q_of_nat (length (jobs s)) == 0)%Q).
  { unfold Q_of_nat. change 0%Q with (inject_Z 0). rewrite inject_Z_injective.
    lia. }
  rewrite Hrate. split_and!.
  - by eexists.
  - intros Hall. unfold count_status. rewrite filter_all by done.
    f_equal. rewrite (toFixed_compat 2 _ 100); [by vm_compute|].
    rewrite (round64_compat _ (round64 1 * 100)); [by vm_compute|].
    apply Qmult_comp; [|reflexivity]. apply round64_compat.
    unfold Qdiv. by rewrite Qmult_inv_r.
  - intros Hnone. unfold count_status. rewrite filter_none by done.
    reflexivity.
Qed.

Lemma success_rate_extremes_witness :
  (∃ text, success_rate (stats (run initial completed_run) 9 1700000009000)
           = JStr text) ∧
  (Forall (λ j, status j = "completed") (jobs (run initial completed_run)) →
   success_rate (stats (run initial completed_run) 9 1700000009000)
     = JStr "100.00") ∧
  (Forall (λ j, status j ≠ "completed") (jobs (run initial completed_run)) →
   success_rate (stats (run initial completed_run) 9 1700000009000)
     = JStr "0.00").
Proof.
  apply (success_rate_extremes (run initial completed_run) 9 1700000009000).
  vm_compute. discriminate.
Defined.

(** ** The mock results in full *)

Example generateRetrosynthesisPathways_sample :
  (λ p, (Pathway.id p, Pathway.score p, Pathway.steps p))
    <$> (generateRetrosynthesisPathways sample_stream 0).1
  = [(5, "99.7", 4%Z); (1, "99.4", 3%Z); (4, "98.7", 4%Z); (3, "97.6", 5%Z);
     (2, "85.5", 4%Z)].
Proof. by vm_compute. Qed.

Lemma floor_scaled_range (r : Q) (n : Z) :
  (0 <= r)%Q → (r < 1)%Q → (0 < n)%Z →
  (0 ≤ Qfloor (r * inject_Z n) < n)%Z.
Proof.
  intros H0 H1 Hn.
  assert (Hnq : (0 < inject_Z n)%Q).
  { change 0%Q with (inject_Z 0). by rewrite <- Zlt_Qlt. }
  split.
  - change 0%Z with (Qfloor 0). apply Qfloor_resp_le.
    apply Qmult_le_0_compat; [done|]. by apply Qlt_le_weak.
  - rewrite Zlt_Qlt. eapply Qle_lt_trans; [apply Qfloor_le|].
    rewrite <- (Qmult_1_l (inject_Z n)) at 2.
    by apply Qmult_lt_compat_r.
Qed.

Lemma random_int_spec rnd n base k :
  in_unit_interval rnd → (0 < n)%Z →
  (random_int n base rnd k).2 = S k ∧
  (random_int n base rnd k).1 = (Qfloor (rnd k * inject_Z n) + base)%Z ∧
  (base ≤ (random_int n base rnd k).1 < base + n)%Z.
Proof.
  intros Hrnd Hn. destruct (Hrnd k) as [H0 H1].
  pose proof (floor_scaled_range (rnd k) n H0 H1 Hn).
  unfold random_int, mbind, rand_bind, mret, rand_ret, random.
  cbn [fst snd]. split_and!; [done|done|lia..].
Qed.

Section generator.
Context (rnd : nat → Q).
Hypothesis Hrnd : in_unit_interval rnd.

Lemma generate_reactions_S count j k :
  generate_reactions (S count) j rnd k
  = let '(rest, k') := generate_reactions count (S j) rnd (S (S k)) in
    (Reaction.mk (j + 1)
       (at_index reactionTypes (Qfloor (rnd k * inject_Z 10)))
       (toFixed 0 (rnd (S k) * 30 + 70) ++ "%")
       ["Reagent A"; "Reagent B"] "RT, 2h" :: rest, k').
Proof. reflexivity. Qed.

Lemma generate_reactions_spec count j k :
  (generate_reactions count j rnd k).2 = k + 2 * count ∧
  length (generate_reactions count j rnd k).1 = count ∧
  Reaction.step <$> (generate_reactions count j rnd k).1 = seq (j + 1) count ∧
  Forall reaction_typed (generate_reactions count j rnd k).1.
Proof.
  revert j k. induction count as [|count IH]; intros j k.
  { by split_and!. }
  rewrite generate_reactions_S.
  destruct (IH (S j) (S (S k))) as (Hk & Hlen & Hsteps & Htyped).
  destruct (generate_reactions count (S j) rnd (S (S k))) as [rest k'].
  cbn [fst snd] in *.
  replace (S j + 1) with (S (j + 1)) in Hsteps by lia.
  split_and!.
  - lia.
  - cbn [length]. lia.
  - rewrite fmap_cons, Hsteps. done.
  - apply Forall_cons. split; [|done].
    destruct (Hrnd k) as [H0 H1].
    destruct (floor_scaled_range (rnd k) 10 H0 H1 ltac:(lia)) as [Hlo Hhi].
    unfold reaction_typed, at_index. cbn [Reaction.type].
    destruct (Z.ltb_spec (Qfloor (rnd k * inject_Z 10)) 0) as [?|_]; [lia|].
    destruct (lookup_lt_is_Some_2 reactionTypes
                (Z.to_nat (Qfloor (rnd k * inject_Z 10)))) as [name Hname].
    { change (length reactionTypes) with 10. lia. }
    exists name. split; [done|]. by eapply list_elem_of_lookup_2.
Qed.

Lemma score_in_range (r : Q) :
  (0 <= r)%Q → (r < 1)%Q →
  (85 <= number_of_fixed (toFixed 1 (85 + r * 15)))%Q ∧
  (number_of_fixed (toFixed 1 (85 + r * 15)) <= 100)%Q.
Proof.
  intros H0 H1. unfold toFixed.
  assert (Hsign : Qle_bool 0 (85 + r * 15) = true)
    by (apply Qle_bool_iff; lra).
  rewrite Hsign.
  assert (Hn : (850 ≤ nearest_scaled 1 (85 + r * 15) ≤ 1000)%Z).
  { unfold nearest_scaled. change (inject_Z (10 ^ Z.of_nat 1)) with 10%Q.
    split.
    - change 850%Z with (Qfloor (850 # 1)). apply Qfloor_resp_le. lra.
    - cut (Qfloor ((85 + r * 15) * 10 + (1 # 2)) < 1001)%Z; [lia|].
      rewrite Zlt_Qlt. eapply Qle_lt_trans; [apply Qfloor_le|].
      change (inject_Z 1001) with 1001%Q. lra. }
  assert (Hall : forallb
            (λ d, Qle_bool 85 (number_of_fixed (fixed_digits 1 (850 + Z.of_nat d)))
                  && Qle_bool (number_of_fixed (fixed_digits 1 (850 + Z.of_nat d))) 100)
            (seq 0 151) = true) by (vm_compute; reflexivity).
  rewrite forallb_forall in Hall.
  specialize (Hall (Z.to_nat (nearest_scaled 1 (85 + r * 15) - 850))).
  rewrite Z2Nat.id in Hall by lia.
  replace (850 + (nearest_scaled 1 (85 + r * 15) - 850))%Z
    with (nearest_scaled 1 (85 + r * 15)) in Hall by lia.
  apply andb_true_iff in Hall as [Hlo Hhi].
  - split; by apply Qle_bool_iff.
  - apply in_seq. lia.
Qed.

Lemma generate_pathways_S count i k :
  generate_pathways (S count) i rnd k
  = let numSteps := (Qfloor (rnd k * inject_Z 4) + 2)%Z in
    let '(reactions, k2) :=
      generate_reactions (Z.to_nat numSteps) 0 rnd (S k) in
    let '(rest, k3) := generate_pathways count (S i) rnd (S (S k2)) in
    (Pathway.mk (i + 1) (toFixed 1 (85 + rnd k2 * 15)) numSteps
       (toFixed 0 (rnd (S k2) * 500 + 100)) reactions
       (slice startingMaterials (Some (Z.min numSteps 3))) :: rest, k3).
Proof. reflexivity. Qed.

Lemma generate_pathways_spec count i k :
  length (generate_pathways count i rnd k).1 = count ∧
  Pathway.id <$> (generate_pathways count i rnd k).1 = seq (i + 1) count ∧
  Forall pathway_shaped (generate_pathways count i rnd k).1.
Proof.
  revert i k. induction count as [|count IH]; intros i k.
  { by split_and!. }
  rewrite generate_pathways_S.
  destruct (Hrnd k) as [Hk0 Hk1].
  pose proof (floor_scaled_range (rnd k) 4 Hk0 Hk1 ltac:(lia)) as Hsteps.
  set (numSteps := (Qfloor (rnd k * inject_Z 4) + 2)%Z) in *.
  cbv zeta.
  destruct (generate_reactions_spec (Z.to_nat numSteps) 0 (S k))
    as (_ & Hlen & Hnums & Htyped).
  destruct (generate_reactions (Z.to_nat numSteps) 0 rnd (S k))
    as [reactions k2].
  destruct (IH (S i) (S (S k2))) as (Hcount & Hids & Hshaped).
  destruct (generate_pathways count (S i) rnd (S (S k2))) as [rest k3].
  cbn [fst snd] in *.
  replace (S i + 1) with (S (i + 1)) in Hids by lia.
  split_and!.
  - cbn [length]. lia.
  - rewrite fmap_cons, Hids. done.
  - apply Forall_cons. split; [|done].
    destruct (Hrnd k2) as [H0 H1].
    destruct (score_in_range (rnd k2) H0 H1) as [Hlo Hhi].
    unfold pathway_shaped, score_value.
    cbn [Pathway.steps Pathway.reactions Pathway.starting_materials
         Pathway.score].
    split_and!; [lia|lia|done|done|done| |done..].
    rewrite slice_nonneg by lia. done.
Qed.

Lemma insert_by_score_perm p l : insert_by_score p l ≡ₚ p :: l.
Proof.
  induction l as [|q l IH]; simpl; [done|].
  destruct (Qle_bool (score_value q) (score_value p)); [done|].
  rewrite IH. apply Permutation_swap.
Qed.

Lemma sort_by_score_perm l : sort_by_score l ≡ₚ l.
Proof.
  induction l as [|p l IH]; simpl; [done|].
  rewrite insert_by_score_perm. by rewrite IH.
Qed.

Lemma insert_by_score_sorted p l :
  Sorted score_ge l → Sorted score_ge (insert_by_score p l).
Proof.
  induction 1 as [|q l Hl IH Hhd]; simpl.
  { by repeat constructor. }
  destruct (Qle_bool (score_value q) (score_value p)) eqn:Hle.
  - constructor; [by constructor|]. constructor. by apply Qle_bool_iff.
  - constructor; [done|].
    assert (Hqp : score_ge q p).
    { unfold score_ge. apply Qlt_le_weak, Qnot_le_lt.
      intros H%Qle_bool_iff. congruence. }
    destruct Hhd as [|q' l' Hqq']; simpl.
    + by constructor.
    + destruct (Qle_bool (score_value q') (score_value p));
        by constructor.
Qed.

Lemma sort_by_score_sorted l : StronglySorted score_ge (sort_by_score l).
Proof.
  apply Sorted_StronglySorted.
  { intros a b c Hab Hbc. unfold score_ge in *. by eapply Qle_trans. }
  induction l as [|p l IH]; simpl; [constructor|].
  by apply insert_by_score_sorted.
Qed.

Lemma generateRetrosynthesisPathways_eq k :
  (generateRetrosynthesisPathways rnd k).1
    = sort_by_score
        (generate_pathways (Z.to_nat (Qfloor (rnd k * inject_Z 5) + 5)) 0
           rnd (S k)).1.
Proof.
  unfold generateRetrosynthesisPathways, random_int, mbind, rand_bind, mret,
    rand_ret, random. simpl.
  by destruct (generate_pathways _ 0 rnd (S k)).
Qed.

Lemma pathways_count k :
  length (generateRetrosynthesisPathways rnd k).1
    = Z.to_nat (Qfloor (rnd k * inject_Z 5) + 5) ∧
  (5 ≤ length (generateRetrosynthesisPathways rnd k).1 ≤ 9)%nat.
Proof.
  rewrite generateRetrosynthesisPathways_eq, sort_by_score_perm.
  destruct (generate_pathways_spec
              (Z.to_nat (Qfloor (rnd k * inject_Z 5) + 5)) 0 (S k))
    as (-> & _ & _).
  destruct (Hrnd k) as [H0 H1].
  pose proof (floor_scaled_range (rnd k) 5 H0 H1 ltac:(lia)). lia.
Qed.

End generator.

(** X20. Whatever [Math.random] returns, the generator yields between 5
    and 9 pathways, and every pathway has between 2 and 5 steps, one
    reaction for each step, numbered 1, 2, ... in order, each with a type
    taken from [reactionTypes], and as starting materials the first
    two or three entries of [startingMaterials] (three when it has three
    steps or more). *)
Theorem retrosynthesis_pathways_shape (rnd : nat → Q) (k : nat) :
  in_unit_interval rnd →
  (5 ≤ length (generateRetrosynthesisPathways rnd k).1 ≤ 9)%nat ∧
  Forall (λ p,
    (2 ≤ Pathway.steps p ≤ 5)%Z ∧
    length (Pathway.reactions p) = Z.to_nat (Pathway.steps p) ∧
    Reaction.step <$> Pathway.reactions p
      = seq 1 (Z.to_nat (Pathway.steps p)) ∧
    Forall reaction_typed (Pathway.reactions p) ∧
    Pathway.starting_materials p
      = take (Z.to_nat (Z.min (Pathway.steps p) 3)) startingMaterials ∧
    (2 ≤ length (Pathway.starting_materials p) ≤ 3)%nat)
    (generateRetrosynthesisPathways rnd k).1.
Proof.
  intros Hrnd. split; [by apply pathways_count|].
  rewrite generateRetrosynthesisPathways_eq, sort_by_score_perm.
  destruct (generate_pathways_spec rnd Hrnd
              (Z.to_nat (Qfloor (rnd k * inject_Z 5) + 5)) 0 (S k))
    as (_ & _ & Hshaped).
  eapply Forall_impl; [exact Hshaped|].
  intros p (Hsteps & Hlen & Hnums & Htyped & Hmat & _).
  assert (length (Pathway.starting_materials p)
          = Z.to_nat (Z.min (Pathway.steps p) 3)) as Hmats.
  { rewrite Hmat, length_take.
    change (length startingMaterials) with 4. lia. }
  split_and!; [lia|lia|done|done|done|done|lia|lia].
Qed.

Lemma retrosynthesis_pathways_shape_witness :
  (5 ≤ length (generateRetrosynthesisPathways sample_stream 0).1 ≤ 9)%nat.
Proof.
  apply (retrosynthesis_pathways_shape sample_stream 0).
  intros k. unfold sample_stream. split.
  - unfold Qle. simpl. lia.
  - unfold Qlt. simpl. pose proof (Nat.mod_upper_bound (k * 37) 100). lia.
Defined.

(** X21. The pathways come back ordered by falling score (the number each
    score string denotes, between 85 and 100): no pathway has a lower score
    than one that follows it.  They are the generated pathways
    rearranged: their ids are exactly 1, ..., n, each once. *)
Theorem retrosynthesis_pathways_sorted (rnd : nat → Q) (k : nat) :
  in_unit_interval rnd →
  StronglySorted score_ge (generateRetrosynthesisPathways rnd k).1 ∧
  Pathway.id <$> (generateRetrosynthesisPathways rnd k).1
    ≡ₚ seq 1 (length (generateRetrosynthesisPathways rnd k).1) ∧
  Forall (λ p, (85 <= score_value p)%Q ∧ (score_value p <= 100)%Q)
    (generateRetrosynthesisPathways rnd k).1.
Proof.
  intros Hrnd.
  destruct (pathways_count rnd Hrnd k) as [Hlen _]. rewrite Hlen.
  rewrite generateRetrosynthesisPathways_eq.
  destruct (generate_pathways_spec rnd Hrnd
              (Z.to_nat (Qfloor (rnd k * inject_Z 5) + 5)) 0 (S k))
    as (_ & Hids & Hshaped).
  split_and!.
  - apply sort_by_score_sorted.
  - rewrite sort_by_score_perm. by rewrite Hids.
  - rewrite sort_by_score_perm.
    eapply Forall_impl; [exact Hshaped|].
    by intros p (_ & _ & _ & _ & _ & ? & ?).
Qed.

Lemma retrosynthesis_pathways_sorted_witness :
  StronglySorted score_ge (generateRetrosynthesisPathways sample_stream 0).1.
Proof.
  apply (retrosynthesis_pathways_sorted sample_stream 0).
  intros k. unfold sample_stream. split.
  - unfold Qle. simpl. lia.
  - unfold Qlt. simpl. pose proof (Nat.mod_upper_bound (k * 37) 100). lia.
Defined.

(** Where in the stream each entry of the table starts: the table draws
    six, three, five and three values before the retrosynthesis entry. *)
Lemma generate_results_table_entries rnd k :
  QuantumChemistry.optimization_steps
    (quantum_chemistry (generate_results_table rnd k).1)
    = (Qfloor (rnd (13 + k)%nat * inject_Z 50) + 20)%Z ∧
  MolecularDocking.num_poses
    (molecular_docking (generate_results_table rnd k).1)
    = (Qfloor (rnd (16 + k)%nat * inject_Z 10) + 5)%Z ∧
  StructurePrediction.model_confidence
    (structure_prediction (generate_results_table rnd k).1)
    = (if Qle_bool (rnd (8 + k)%nat) (1 # 2) then "medium" else "high") ∧
  Retrosynthesis.num_pathways
    (retrosynthesis (generate_results_table rnd k).1)
    = (Qfloor (rnd (17 + k)%nat * inject_Z 10) + 5)%Z ∧
  Retrosynthesis.pathways (retrosynthesis (generate_results_table rnd k).1)
    = (generateRetrosynthesisPathways rnd (18 + k)%nat).1.
Proof.
  cbv [generate_results_table generate_molecular_dynamics
       generate_structure_prediction generate_quantum_chemistry
       generate_molecular_docking generate_retrosynthesis
       random_int random mbind rand_bind mret rand_ret].
  change (generateRetrosynthesisPathways rnd
            (S (S (S (S (S (S (S (S (S (S (S (S (S (S (S (S (S (S k)))))))))))))))))))
    with (generateRetrosynthesisPathways rnd (18 + k)).
  destruct (generateRetrosynthesisPathways rnd (18 + k)) as [ps k'].
  cbn [fst snd quantum_chemistry molecular_docking structure_prediction
       retrosynthesis QuantumChemistry.optimization_steps
       MolecularDocking.num_poses StructurePrediction.model_confidence
       Retrosynthesis.num_pathways Retrosynthesis.pathways].
  split_and!; reflexivity.
Qed.

Lemma select_result_kind table key :
  value_kind key (select_result table key) = generateMockResults (JStr key).
Proof.
  unfold select_result.
  change (generateMockResults (JStr key)) with (lookup_results key).
  unfold lookup_results.
  destruct (String.eqb_spec key "molecular_dynamics") as [->|?];
    [by vm_compute|].
  destruct (String.eqb_spec key "structure_prediction") as [->|?];
    [by vm_compute|].
  destruct (String.eqb_spec key "quantum_chemistry") as [->|?];
    [by vm_compute|].
  destruct (String.eqb_spec key "molecular_docking") as [->|?];
    [by vm_compute|].
  destruct (String.eqb_spec key "retrosynthesis") as [->|?];
    [by vm_compute|].
  rewrite (bool_decide_eq_false_2 (key ∈ mock_toolkits)).
  - by destruct (bool_decide (key ∈ object_prototype_members)).
  - unfold mock_toolkits. rewrite !not_elem_of_cons.
    split_and!; try done. apply not_elem_of_nil.
Qed.

(** X22. The [num_pathways] field of a retrosynthesis result is drawn on
    its own, between 5 and 14, one draw before the number of pathways the
    generator then builds, between 5 and 9: it is not the length of the
    [pathways] list, and it exceeds that length whenever its draw is one
    half or more. *)
Theorem num_pathways_is_not_the_count (rnd : nat → Q) (k : nat) :
  in_unit_interval rnd →
  ∃ v, (generateMockResults_full "retrosynthesis" rnd k).1
         = OfRetrosynthesis v ∧
       Retrosynthesis.num_pathways v
         = (Qfloor (rnd (17 + k)%nat * inject_Z 10) + 5)%Z ∧
       length (Retrosynthesis.pathways v)
         = Z.to_nat (Qfloor (rnd (18 + k)%nat * inject_Z 5) + 5) ∧
       (5 ≤ Retrosynthesis.num_pathways v ≤ 14)%Z ∧
       (5 ≤ length (Retrosynthesis.pathways v) ≤ 9)%nat ∧
       ((1 # 2 <= rnd (17 + k)%nat)%Q →
        (Z.of_nat (length (Retrosynthesis.pathways v))
         < Retrosynthesis.num_pathways v)%Z).
Proof.
  intros Hrnd.
  destruct (generate_results_table_entries rnd k)
    as (_ & _ & _ & Hnum & Hps).
  exists (retrosynthesis (generate_results_table rnd k).1).
  split.
  { unfold generateMockResults_full, mbind, rand_bind, mret, rand_ret.
    by destruct (generate_results_table rnd k). }
  destruct (pathways_count rnd Hrnd (18 + k)%nat) as [Hlen Hrange].
  destruct (Hrnd (17 + k)%nat) as [H0 H1].
  pose proof (floor_scaled_range (rnd (17 + k)%nat) 10 H0 H1 ltac:(lia)).
  rewrite Hnum, Hps. split_and!; [done|done|lia..|].
  intros Hhalf.
  assert (5 ≤ Qfloor (rnd (17 + k)%nat * inject_Z 10))%Z; [|lia].
  change 5%Z with (Qfloor 5). apply Qfloor_resp_le.
  change (inject_Z 10) with 10%Q. lra.
Qed.

Lemma num_pathways_is_not_the_count_witness :
  ∃ v, (generateMockResults_full "retrosynthesis" sample_stream 0).1
         = OfRetrosynthesis v ∧
       Retrosynthesis.num_pathways v
         = (Qfloor (sample_stream (17 + 0)%nat * inject_Z 10) + 5)%Z ∧
       length (Retrosynthesis.pathways v)
         = Z.to_nat (Qfloor (sample_stream (18 + 0)%nat * inject_Z 5) + 5) ∧
       (5 ≤ Retrosynthesis.num_pathways v ≤ 14)%Z ∧
       (5 ≤ length (Retrosynthesis.pathways v) ≤ 9)%nat ∧
       ((1 # 2 <= sample_stream (17 + 0)%nat)%Q →
        (Z.of_nat (length (Retrosynthesis.pathways v))
         < Retrosynthesis.num_pathways v)%Z).
Proof.
  apply (num_pathways_is_not_the_count sample_stream 0).
  intros k. unfold sample_stream. split.
  - unfold Qle. simpl. lia.
  - unfold Qlt. simpl. pose proof (Nat.mod_upper_bound (k * 37) 100). lia.
Defined.

(** X23. Whatever [Math.random] returns, [optimization_steps] of a
    quantum chemistry result lies between 20 and 69, [num_poses] of a
    docking result between 5 and 14, and [model_confidence] of a structure
    prediction is "high" or "medium"; a key that is neither one of the five
    toolkits nor a member of [Object.prototype] gets the default
    message. *)
Theorem mock_result_ranges (rnd : nat → Q) (k : nat) :
  in_unit_interval rnd →
  (∃ v, (generateMockResults_full "quantum_chemistry" rnd k).1
          = OfQuantumChemistry v ∧
        (20 ≤ QuantumChemistry.optimization_steps v ≤ 69)%Z) ∧
  (∃ v, (generateMockResults_full "molecular_docking" rnd k).1
          = OfMolecularDocking v ∧
        (5 ≤ MolecularDocking.num_poses v ≤ 14)%Z) ∧
  (∃ v, (generateMockResults_full "structure_prediction" rnd k).1
          = OfStructurePrediction v ∧
        (StructurePrediction.model_confidence v = "high" ∨
         StructurePrediction.model_confidence v = "medium")) ∧
  (∀ key, key ∉ mock_toolkits → key ∉ object_prototype_members →
     (generateMockResults_full key rnd k).1
       = OfDefault "Results generated successfully").
Proof.
  intros Hrnd.
  destruct (generate_results_table_entries rnd k)
    as (Hsteps & Hposes & Hconf & _ & _).
  assert (Hfull : ∀ key, (generateMockResults_full key rnd k).1
            = select_result (generate_results_table rnd k).1 key).
  { intros key.
    unfold generateMockResults_full, mbind, rand_bind, mret, rand_ret.
    by destruct (generate_results_table rnd k). }
  split_and!.
  - eexists. split; [by rewrite Hfull|]. rewrite Hsteps.
    destruct (Hrnd (13 + k)%nat) as [H0 H1].
    pose proof (floor_scaled_range (rnd (13 + k)%nat) 50 H0 H1 ltac:(lia)). lia.
  - eexists. split; [by rewrite Hfull|]. rewrite Hposes.
    destruct (Hrnd (16 + k)%nat) as [H0 H1].
    pose proof (floor_scaled_range (rnd (16 + k)%nat) 10 H0 H1 ltac:(lia)). lia.
  - eexists. split; [by rewrite Hfull|]. rewrite Hconf.
    destruct (Qle_bool (rnd (8 + k)%nat) (1 # 2)); auto.
  - intros key Hkey Hproto. rewrite Hfull. unfold select_result.
    unfold mock_toolkits in Hkey. rewrite !not_elem_of_cons in Hkey.
    destruct Hkey as (? & ? & ? & ? & ? & _).
    destruct (String.eqb_spec key "molecular_dynamics") as [?|_]; [done|].
    destruct (String.eqb_spec key "structure_prediction") as [?|_]; [done|].
    destruct (String.eqb_spec key "quantum_chemistry") as [?|_]; [done|].
    destruct (String.eqb_spec key "molecular_docking") as [?|_]; [done|].
    destruct (String.eqb_spec key "retrosynthesis") as [?|_]; [done|].
    by rewrite bool_decide_eq_false_2.
Qed.

Lemma mock_result_ranges_witness :
  ∃ v, (generateMockResults_full "quantum_chemistry" sample_stream 0).1
         = OfQuantumChemistry v ∧
       (20 ≤ QuantumChemistry.optimization_steps v ≤ 69)%Z.
Proof.
  refine (proj1 (mock_result_ranges sample_stream 0 _)).
  intros k. unfold sample_stream. split.
  - unfold Qle. simpl. lia.
  - unfold Qlt. simpl. pose proof (Nat.mod_upper_bound (k * 37) 100). lia.
Defined.

(** ** The counter *)

Lemma step_jobCounter s ev : jobCounter (step s ev) = jobCounter s.
Proof.
  step_alive s. destruct ev as [body e|jobId|h now|h rnd now]; simpl.
  - unfold submit. by case_match.
  - unfold delete_job. by repeat case_match.
  - unfold fire_timeout, start_callback. by repeat case_match.
  - unfold fire_interval, progress_callback. by repeat case_match.
Qed.

(** X24. No handler and no callback writes [jobCounter]: whatever
    happens, it keeps the value it started with, 0. *)
Theorem job_counter_never_written (s : server) (tr : list event) :
  jobCounter (run s tr) = jobCounter s ∧ jobCounter (run initial tr) = 0%Z.
Proof.
  assert (H : ∀ s', jobCounter (run s' tr) = jobCounter s').
  { induction tr as [|ev tr IH]; intros s'; [done|].
    unfold run in *. simpl. by rewrite IH, step_jobCounter. }
  split; [apply H|]. by rewrite H.
Qed.

(** ** The routes *)

Example handle_samples :
  (handle sample_readings two_jobs
     (mkRequest GET ["api"; "v1"; "jobs"; sample_jobId] ∅ ∅)).2
    = GetAnswer (get_job two_jobs sample_jobId) ∧
  (handle sample_readings two_jobs
     (mkRequest GET ["api"; "v1"; "stats"] ∅ ∅)).2
    = StatsAnswer (stats two_jobs 12 1700000009000) ∧
  (handle sample_readings two_jobs
     (mkRequest DELETE ["API"; "v1"; "Jobs"; sample_jobId] ∅ ∅)).2
    = DeleteAnswer (delete_job two_jobs sample_jobId).2 ∧
  (handle sample_readings two_jobs
     (mkRequest POST ["api"; "v1"; "jobs"; "list"] ∅ ∅)).2
    = EndpointNotFound ∧
  (handle sample_readings initial (mkRequest GET [] ∅ ∅)).2 = MainPageFile.
Proof. by vm_compute. Qed.

Lemma lower_case_nonempty l x :
  String.eqb (lower_case l) (lower_case x) = true → l ≠ "" → x ≠ "".
Proof.
  intros Heq Hl ->. destruct l as [|a l]; [done|].
  cbn [lower_case String.eqb] in Heq. done.
Qed.

(** A pattern whose segments match whatever the segments of another one
    match, matches every path the other one matches. *)
Lemma match_path_covered (general special : list segment) path params :
  Forall2
    (λ p q, ∀ x, segment_matches q x = true → segment_matches p x = true)
    general special →
  match_path special path = Some params →
  is_Some (match_path general path).
Proof.
  intros Hcover. revert path params.
  induction Hcover as [|p q general special Hpq _ IH]; intros path params.
  { destruct path; [by eexists|done]. }
  destruct path as [|x path]; [done|]. cbn [match_path].
  destruct (segment_matches q x) eqn:Hq; [|done].
  rewrite (Hpq x Hq). intros Hrest.
  assert (Hsome : ∃ ps, match_path special path = Some ps).
  { destruct q; [by eexists|].
    destruct (match_path special path); [by eexists|done]. }
  destruct Hsome as [ps Hps]. destruct (IH path ps Hps) as [ps' ->].
  destruct p; by eexists.
Qed.

(** Every path the list route matches, the get route matches too. *)
Lemma list_pattern_covered path params :
  match_path [Literal "api"; Literal "v1"; Literal "jobs"; Literal "list"]
    path = Some params →
  is_Some (match_path [Literal "api"; Literal "v1"; Literal "jobs";
                       Capture "jobId"] path).
Proof.
  apply match_path_covered.
  do 3 (constructor; [by intros x|]).
  constructor; [|constructor].
  intros x Hx. cbn [segment_matches] in *.
  apply negb_true_iff, String.eqb_neq.
  by apply (lower_case_nonempty "list").
Qed.

(** The route of the list handler comes after a route with the same method
    that matches every path it matches: it is never chosen. *)
Lemma list_route_shadowed m path params :
  find_route routes m path ≠ Some (ListJobs, params).
Proof.
  unfold routes. destruct m; cbn -[match_path].
  - destruct (match_path [Literal "api"; Literal "health"] path); [done|].
    destruct (match_path [Literal "api"; Literal "v1"; Literal "jobs";
                          Capture "jobId"] path) eqn:Hget; [done|].
    destruct (match_path [Literal "api"; Literal "v1"; Literal "jobs";
                          Literal "list"] path) eqn:Hlist.
    + destruct (list_pattern_covered _ _ Hlist) as [? ?]. congruence.
    + by repeat case_match.
  - by repeat case_match.
  - by repeat case_match.
Qed.

Lemma handle_never_lists e s req b : (handle e s req).2 ≠ ListAnswer b.
Proof.
  unfold handle. case_match; [done|].
  pose proof (list_route_shadowed (req_method req) (req_path req)) as Hsh.
  destruct (find_route routes (req_method req) (req_path req))
    as [[[] params]|]; try done; try (by repeat case_match).
  by destruct (Hsh params).
Qed.

(** A GET of the list path is answered by the get handler, with the last
    segment as job id. *)
Lemma handle_list_request e s query body :
  handle e s (mkRequest GET list_path query body)
  = (s, if served e list_path then StaticFile list_path
        else GetAnswer (get_job s "list")).
Proof. unfold handle. simpl. by destruct (served e list_path). Qed.

(** Every id in the registry is one that [make_jobId] built. *)
Lemma run_job_ids tr :
  Forall (λ j, ∃ now r36, id j = make_jobId now r36) (jobs (run initial tr)).
Proof.
  apply run_Forall.
  - intros l body e _. by eexists _, _.
  - intros s ev j j' Hj Hw. by rewrite (job_write_id _ _ _ _ Hw).
Qed.

Lemma get_list_not_found tr : get_job (run initial tr) "list" = Err 404 not_found.
Proof.
  apply get_job_absent. intros j Hj Hid.
  destruct (proj1 (Forall_forall _ _) (run_job_ids tr) j Hj)
    as (now & r36 & Hmake).
  rewrite Hmake in Hid. discriminate Hid.
Qed.

(** C1.  The list handler is never reached.  The route
    [/api/v1/jobs/:jobId] is registered before [/api/v1/jobs/list] and
    matches every path the list route matches, so a GET of the list path is
    answered by the get handler with the job id "list"; no job has that id,
    and the answer is 404 "Job not found", whatever the query.  No request
    at all is answered by the list handler.  (Were it reached, [total]
    would be the length of the page, taken after the truncation by
    [limit].)  With two submitted jobs, the list request with limit 1 is
    answered 404, not with one job and a total of 2. *)
Theorem list_request_answered_by_get :
  (∀ e tr query body,
     handle e (run initial tr) (mkRequest GET list_path query body)
     = (run initial tr,
        if served e list_path then StaticFile list_path
        else GetAnswer (Err 404 not_found))) ∧
  (∀ e s req b, (handle e s req).2 ≠ ListAnswer b) ∧
  (∀ s query, total (list_jobs s query) = length (listed (list_jobs s query))) ∧
  (handle sample_readings two_jobs (list_request {[ "limit" := "1" ]})
     = (two_jobs, GetAnswer (Err 404 not_found)) ∧
   length (matching two_jobs {[ "limit" := "1" ]}) = 2 ∧
   length (listed (list_jobs two_jobs {[ "limit" := "1" ]})) = 1 ∧
   total (list_jobs two_jobs {[ "limit" := "1" ]}) = 1).
Proof.
  split_and!.
  - intros e tr query body.
    by rewrite handle_list_request, get_list_not_found.
  - apply handle_never_lists.
  - done.
  - unfold list_request, two_jobs.
    by rewrite handle_list_request, get_list_not_found.
  - by vm_compute.
  - by vm_compute.
  - by vm_compute.
Qed.

Lemma list_request_answered_by_get_witness :
  handle sample_readings
    (run initial [EvSubmit sample_body sample_env;
                  EvSubmit sample_body later_env])
    (mkRequest GET list_path {[ "limit" := "1" ]} ∅)
  = (run initial [EvSubmit sample_body sample_env;
                  EvSubmit sample_body later_env],
     GetAnswer (Err 404 not_found)).
Proof.
  exact (proj1 list_request_answered_by_get sample_readings
           [EvSubmit sample_body sample_env; EvSubmit sample_body later_env]
           {[ "limit" := "1" ]} ∅).
Defined.

(** C3.  The limit of a list request is never read: the answer to a GET
    of the list path is the same for every query, the 404 of the get
    handler (or a static file of that name), so neither an absent nor an
    unreadable limit falls back to 50.  (Were the list handler reached, an
    absent limit would list the first 50 matches, and a limit that
    [parseInt] cannot read would list nothing, with [total] 0.) *)
Theorem list_limit_never_read :
  (∀ e tr query query' body,
     handle e (run initial tr) (mkRequest GET list_path query body)
     = handle e (run initial tr) (mkRequest GET list_path query' body) ∧
     ((handle e (run initial tr) (mkRequest GET list_path query body)).2
        = GetAnswer (Err 404 not_found) ∨
      (handle e (run initial tr) (mkRequest GET list_path query body)).2
        = StaticFile list_path)) ∧
  (∀ s query,
     query !! "limit" = None →
     listed (list_jobs s query) = take 50 (matching s query)) ∧
  (∀ s query l,
     query !! "limit" = Some l → parseInt l = None →
     listed (list_jobs s query) = [] ∧ total (list_jobs s query) = 0) ∧
  (handle sample_readings two_jobs (list_request ∅)
     = (two_jobs, GetAnswer (Err 404 not_found)) ∧
   handle sample_readings two_jobs (list_request {[ "limit" := "abc" ]})
     = (two_jobs, GetAnswer (Err 404 not_found)) ∧
   parseInt "abc" = None ∧
   length (matching two_jobs {[ "limit" := "abc" ]}) = 2 ∧
   list_jobs two_jobs {[ "limit" := "abc" ]} = {| total := 0; listed := [] |}).
Proof.
  split_and!.
  - intros e tr query query' body. rewrite !handle_list_request.
    split; [done|]. rewrite get_list_not_found. simpl.
    destruct (served e list_path); auto.
  - intros s query Hnone. unfold list_jobs. simpl. rewrite Hnone. simpl.
    change (parseInt default_limit) with (Some 50%Z).
    by rewrite slice_nonneg.
  - intros s query l Hl Hnan. unfold list_jobs. simpl. rewrite Hl. simpl.
    rewrite Hnan. by rewrite slice_NaN.
  - unfold list_request, two_jobs.
    by rewrite handle_list_request, get_list_not_found.
  - unfold list_request, two_jobs.
    by rewrite handle_list_request, get_list_not_found.
  - by vm_compute.
  - by vm_compute.
  - by vm_compute.
Qed.

Lemma list_limit_never_read_witness :
  listed (list_jobs two_jobs ∅) = take 50 (matching two_jobs ∅) ∧
  listed (list_jobs two_jobs {[ "limit" := "" ]}) = [] ∧
  total (list_jobs two_jobs {[ "limit" := "" ]}) = 0.
Proof.
  destruct list_limit_never_read as (_ & Habsent & Hnan & _). split.
  - apply Habsent. reflexivity.
  - apply (Hnan two_jobs {[ "limit" := "" ]} ""); by vm_compute.
Defined.

(** ** Results, again *)





(** A toolkit that has no property key: the tick that takes the progress
    to 100 throws, and the process ends with the job still running and
    the periodic timer still registered. *)
Example throwing_run_ends :
  alive (run initial throwing_run) = false ∧
  (status <$> jobs (run initial throwing_run)) = ["running"] ∧
  generateMockResults (JObj [("toString", JNum 1)]) = ThrowsTypeError ∧
  generateMockResults (JArr [JStr "toString"]) = InheritedMember "toString" ∧
  generateMockResults (JObj []) = DefaultMessage.
Proof. by vm_compute. Qed.
